(** * Scroll-driven camera walkthrough (src/main.js): a shallow embedding

    JavaScript numbers are modelled as real numbers: every finite double is
    read as the real it denotes and arithmetic is exact (no rounding, no
    overflow); [Math.tan] is the real tangent and [Math.PI] is π.  The
    places where the program can leave the finite numbers are written out:
    the two quotients of the per-frame update (scroll progress and orbit
    radius), which may be infinite or NaN, and the [Infinity] that starts
    the minimum search of [snapToNearest].  The time-of-day label only does
    arithmetic on an integer slider value, so it is computed over the
    rationals, where it can be evaluated.

    The module-level variables form one state record; the functions of the
    program are state transformers over it, and the page, the loader and
    the user act on it through events. *)

From Stdlib Require Import Reals Lra Lia ZArith List Bool String Ascii.
From Stdlib Require Import QArith Qround DecimalString.
Import ListNotations.

Open Scope R_scope.

(** ** Numbers *)

Module Num.

(** [const lerp = (a, b, t) => a + (b - a) * t] *)
Definition lerp (a b t : R) : R := a + (b - a) * t.

(** [const clamp = (v, min, max) => Math.min(Math.max(v, min), max)],
    on finite numbers. *)
Definition clamp (v min max : R) : R := Rmin (Rmax v min) max.

(** The value of a division whose divisor may be zero. *)
Inductive jsnum : Type :=
| Num (r : R)
| PosInfinity
| NegInfinity
| NaN.

(** [a / b] for finite [a] and [b]; the zero divisor met in the program is
    the difference of two heights, a positive zero. *)
Definition js_div (a b : R) : jsnum :=
  if Req_dec_T b 0 then
    if Rlt_dec 0 a then PosInfinity
    else if Rlt_dec a 0 then NegInfinity
    else NaN
  else Num (a / b).

(** [Math.max(v, min)] and [Math.min(v, max)] with a finite second
    argument: NaN is contagious, infinities are ordered as usual. *)
Definition Math_max (v : jsnum) (min : R) : jsnum :=
  match v with
  | Num r => Num (Rmax r min)
  | PosInfinity => PosInfinity
  | NegInfinity => Num min
  | NaN => NaN
  end.

Definition Math_min (v : jsnum) (max : R) : jsnum :=
  match v with
  | Num r => Num (Rmin r max)
  | PosInfinity => Num max
  | NegInfinity => NegInfinity
  | NaN => NaN
  end.

(** [clamp] applied to a quotient. *)
Definition clamp_ext (v : jsnum) (min max : R) : jsnum :=
  Math_min (Math_max v min) max.

(** Truncation toward zero, the integer quotient behind [%]. *)
Definition trunc (x : R) : Z :=
  if Rle_dec 0 x then Int_part x else (- Int_part (- x))%Z.

(** [a % m] on finite numbers with [m <> 0]: the remainder takes the sign
    of the dividend. *)
Definition js_rem (a m : R) : R := a - m * IZR (trunc (a / m)).

End Num.
Import Num.

(** ** Angle utilities *)

Definition STRAIGHT_ANGLES : list R := [0; PI / 2; PI; 3 * PI / 2].
Definition QUADRANT_CENTERS : list R :=
  [PI / 4; 3 * PI / 4; 5 * PI / 4; 7 * PI / 4].

Definition normalizeAlpha (alpha : R) : R :=
  let a := js_rem alpha (2 * PI) in
  if Rlt_dec a 0 then a + 2 * PI else a.

(** The body of the loop of [snapToNearest] up to the comparison: the
    angular difference, folded back when it exceeds a half turn. *)
Definition angularDiff (normalized angle : R) : R :=
  let diff := Rabs (normalized - angle) in
  if Rgt_dec diff PI then 2 * PI - diff else diff.

(** [diff < minDiff], where [minDiff] is [None] while it is [Infinity]. *)
Definition below (diff : R) (minDiff : option R) : bool :=
  match minDiff with
  | None => true
  | Some m => if Rlt_dec diff m then true else false
  end.

(** One iteration: the pair is [(nearestAngle, minDiff)]; [nearestAngle] is
    [None] while it is [undefined]. *)
Definition snap_step (normalized : R) (acc : option R * option R) (angle : R)
  : option R * option R :=
  if below (angularDiff normalized angle) (snd acc)
  then (Some angle, Some (angularDiff normalized angle))
  else acc.

(** [snapToNearest(alpha, angles)]; [None] is the [undefined] returned for
    an empty array. *)
Definition snapToNearest (alpha : R) (angles : list R) : option R :=
  let normalized := normalizeAlpha alpha in
  fst (fold_left (snap_step normalized) angles (nth_error angles 0, None)).

Definition getQuadrant (alpha : R) : nat :=
  let a := js_rem alpha (2 * PI) in
  let a := if Rlt_dec a 0 then a + 2 * PI else a in
  if Rlt_dec a (PI / 2) then 1%nat
  else if Rlt_dec a PI then 2%nat
  else if Rlt_dec a (3 * PI / 2) then 3%nat
  else 4%nat.

(** The circular distance as the specification words it:
    [min(|d|, 2π − |d|)]. *)
Definition circularDistance (normalized angle : R) : R :=
  Rmin (Rabs (normalized - angle)) (2 * PI - Rabs (normalized - angle)).

(** ** Scene data *)

Definition Vector3 : Type := (R * R * R)%type.
Definition Color3 : Type := (R * R * R)%type.

(** [v.scale(k)] *)
Definition scale (v : Vector3) (k : R) : Vector3 :=
  let '(x, y, z) := v in (x * k, y * k, z * k).

(** A mesh, as far as the program reads and writes it: the flag behind
    [setEnabled]/[isEnabled], [visibility], [scaling] and the
    [_originalScaling] expando captured at load. *)
Record Mesh : Type := mkMesh {
  enabled : bool;
  visibility : R;
  scaling : Vector3;
  _originalScaling : option Vector3
}.

Definition setEnabled (b : bool) (m : Mesh) : Mesh :=
  mkMesh b (visibility m) (scaling m) (_originalScaling m).

Inductive Dir : Type := North | South | East | West.

Definition Dir_eqb (a b : Dir) : bool :=
  match a, b with
  | North, North | South, South | East, East | West, West => true
  | _, _ => false
  end.

(** [const wallMeshes = { north: [], south: [], east: [], west: [] }] *)
Record WallMeshes : Type := mkWalls {
  north : list Mesh;
  south : list Mesh;
  east : list Mesh;
  west : list Mesh
}.

Definition wallGroup (d : Dir) (w : WallMeshes) : list Mesh :=
  match d with
  | North => north w
  | South => south w
  | East => east w
  | West => west w
  end.

(** [['north','south','east','west'].forEach(dir => wallMeshes[dir].forEach(f))]
    with [f] a mutation of the mesh that may look at [dir]. *)
Definition forEachWall (f : Dir -> Mesh -> Mesh) (w : WallMeshes) : WallMeshes :=
  mkWalls (map (f North) (north w)) (map (f South) (south w))
          (map (f East) (east w)) (map (f West) (west w)).

Inductive FurnitureKey : Type := Furniture1 | Furniture2 | Furniture3.

Definition FurnitureKey_eqb (a b : FurnitureKey) : bool :=
  match a, b with
  | Furniture1, Furniture1 | Furniture2, Furniture2 | Furniture3, Furniture3 => true
  | _, _ => false
  end.

Record FurnitureSets : Type := mkFurniture {
  furniture1 : list Mesh;
  furniture2 : list Mesh;
  furniture3 : list Mesh
}.

Definition furnitureSet (k : FurnitureKey) (f : FurnitureSets) : list Mesh :=
  match k with
  | Furniture1 => furniture1 f
  | Furniture2 => furniture2 f
  | Furniture3 => furniture3 f
  end.

(** [Object.entries(furnitureSets).forEach(([key, meshes]) => meshes.forEach(f))] *)
Definition forEachFurniture (f : FurnitureKey -> Mesh -> Mesh) (s : FurnitureSets)
  : FurnitureSets :=
  mkFurniture (map (f Furniture1) (furniture1 s)) (map (f Furniture2) (furniture2 s))
              (map (f Furniture3) (furniture3 s)).

(** [null] is the fourth option: no furniture. *)
Definition FURNITURE_OPTIONS : list (option FurnitureKey) :=
  [Some Furniture1; Some Furniture2; Some Furniture3; None].

(** The three procedural textures are distinct objects that materials point
    to; a material's [emissiveTexture] is kept as the name of the one it
    references. *)
Inductive TextureRef : Type := BlendWhite | BlendAccent | BlendAccent2.

Record ProceduralTexture : Type := mkTexture {
  sunSampler : Z;          (* index into sunTextures of the bound image *)
  blendFactor : R;
  baseColor : Vector3;
  coordinatesIndex : option Z
}.

Record Material : Type := mkMaterial {
  emissiveTexture : option TextureRef;
  emissiveColor : option Color3;
  emissiveIntensity : option R   (* [None]: the property is undefined *)
}.

Inductive Anchor : Type := EntranceHigh | EntranceLow.

(** The screen-space marker: the node it is linked with and its pixel
    offsets. *)
Record Marker : Type := mkMarker {
  linkedMesh : Anchor;
  linkOffsetX : R;
  linkOffsetY : R
}.

Record Camera : Type := mkCamera {
  alpha : R;
  beta : R;
  radius : R;
  fov : R;
  lowerBetaLimit : R;
  upperBetaLimit : R;
  lowerRadiusLimit : R;
  upperRadiusLimit : R;
  minZ : R
}.

(** ** Constants *)

Definition IDLE_TIMEOUT : Z := 10000.
Definition IDLE_ROTATION_SPEED : R := 0.0005.
Definition ACCENT_EMISSION_COLOR : Color3 := (0.608, 0.733, 0.675).
Definition ACCENT_2_EMISSION_COLOR : Color3 := (0.851, 0.902, 0.871).
Definition BETA_TOP_DOWN : R := 0.000015.
Definition BETA_ANGLED : R := PI / 4.
Definition FOV_ORTHO : R := 0.05.
Definition FOV_PERSPECTIVE : R := 0.34.
Definition RADIUS_PERSPECTIVE : R := 30.
Definition APPARENT_SIZE_CONSTANT : R :=
  RADIUS_PERSPECTIVE * tan (FOV_PERSPECTIVE / 2).

(** ** Module state *)

Record State : Type := mkState {
  camera : option Camera;
  wallMeshes : WallMeshes;
  entranceNodeHigh : bool;             (* the node was found *)
  entranceNodeLow : bool;
  entranceImage : option Marker;
  lastInteractionTime : Z;
  isIdleRotating : bool;
  isToggleMode : bool;
  accentMaterial : option Material;
  accent2Material : option Material;
  originalAccentEmissive : option Color3;
  originalAccent2Emissive : option Color3;
  whiteMaterial : option Material;
  originalWhiteEmissive : option Color3;
  sunTextures : Z;                     (* length of the array *)
  currentSunTextureIndex : Z;
  blendedTextureWhite : option ProceduralTexture;
  blendedTextureAccent : option ProceduralTexture;
  blendedTextureAccent2 : option ProceduralTexture;
  furnitureSets : FurnitureSets;
  currentFurnitureIndex : nat;
  transitionTargetAlpha : option R;
  lastTransitionProgress : R;
  isOrthoView : bool;
  lastEntranceQuadrant : option nat;
  lastQuadrant : nat;                  (* local of createScene, captured by the observer *)
  sunPathTitle : option string         (* text of #sunPathTitle, when the element exists *)
}.

(** Assignment to one module-level variable; the others keep their value. *)

Definition set_camera v (s : State) : State :=
  mkState v (wallMeshes s) (entranceNodeHigh s) (entranceNodeLow s) (entranceImage s)
    (lastInteractionTime s) (isIdleRotating s) (isToggleMode s) (accentMaterial s)
    (accent2Material s) (originalAccentEmissive s) (originalAccent2Emissive s)
    (whiteMaterial s) (originalWhiteEmissive s) (sunTextures s) (currentSunTextureIndex
    s) (blendedTextureWhite s) (blendedTextureAccent s) (blendedTextureAccent2 s)
    (furnitureSets s) (currentFurnitureIndex s) (transitionTargetAlpha s)
    (lastTransitionProgress s) (isOrthoView s) (lastEntranceQuadrant s) (lastQuadrant s)
    (sunPathTitle s).
Definition set_wallMeshes v (s : State) : State :=
  mkState (camera s) v (entranceNodeHigh s) (entranceNodeLow s) (entranceImage s)
    (lastInteractionTime s) (isIdleRotating s) (isToggleMode s) (accentMaterial s)
    (accent2Material s) (originalAccentEmissive s) (originalAccent2Emissive s)
    (whiteMaterial s) (originalWhiteEmissive s) (sunTextures s) (currentSunTextureIndex
    s) (blendedTextureWhite s) (blendedTextureAccent s) (blendedTextureAccent2 s)
    (furnitureSets s) (currentFurnitureIndex s) (transitionTargetAlpha s)
    (lastTransitionProgress s) (isOrthoView s) (lastEntranceQuadrant s) (lastQuadrant s)
    (sunPathTitle s).
Definition set_entranceNodeHigh v (s : State) : State :=
  mkState (camera s) (wallMeshes s) v (entranceNodeLow s) (entranceImage s)
    (lastInteractionTime s) (isIdleRotating s) (isToggleMode s) (accentMaterial s)
    (accent2Material s) (originalAccentEmissive s) (originalAccent2Emissive s)
    (whiteMaterial s) (originalWhiteEmissive s) (sunTextures s) (currentSunTextureIndex
    s) (blendedTextureWhite s) (blendedTextureAccent s) (blendedTextureAccent2 s)
    (furnitureSets s) (currentFurnitureIndex s) (transitionTargetAlpha s)
    (lastTransitionProgress s) (isOrthoView s) (lastEntranceQuadrant s) (lastQuadrant s)
    (sunPathTitle s).
Definition set_entranceNodeLow v (s : State) : State :=
  mkState (camera s) (wallMeshes s) (entranceNodeHigh s) v (entranceImage s)
    (lastInteractionTime s) (isIdleRotating s) (isToggleMode s) (accentMaterial s)
    (accent2Material s) (originalAccentEmissive s) (originalAccent2Emissive s)
    (whiteMaterial s) (originalWhiteEmissive s) (sunTextures s) (currentSunTextureIndex
    s) (blendedTextureWhite s) (blendedTextureAccent s) (blendedTextureAccent2 s)
    (furnitureSets s) (currentFurnitureIndex s) (transitionTargetAlpha s)
    (lastTransitionProgress s) (isOrthoView s) (lastEntranceQuadrant s) (lastQuadrant s)
    (sunPathTitle s).
Definition set_entranceImage v (s : State) : State :=
  mkState (camera s) (wallMeshes s) (entranceNodeHigh s) (entranceNodeLow s) v
    (lastInteractionTime s) (isIdleRotating s) (isToggleMode s) (accentMaterial s)
    (accent2Material s) (originalAccentEmissive s) (originalAccent2Emissive s)
    (whiteMaterial s) (originalWhiteEmissive s) (sunTextures s) (currentSunTextureIndex
    s) (blendedTextureWhite s) (blendedTextureAccent s) (blendedTextureAccent2 s)
    (furnitureSets s) (currentFurnitureIndex s) (transitionTargetAlpha s)
    (lastTransitionProgress s) (isOrthoView s) (lastEntranceQuadrant s) (lastQuadrant s)
    (sunPathTitle s).
Definition set_lastInteractionTime v (s : State) : State :=
  mkState (camera s) (wallMeshes s) (entranceNodeHigh s) (entranceNodeLow s)
    (entranceImage s) v (isIdleRotating s) (isToggleMode s) (accentMaterial s)
    (accent2Material s) (originalAccentEmissive s) (originalAccent2Emissive s)
    (whiteMaterial s) (originalWhiteEmissive s) (sunTextures s) (currentSunTextureIndex
    s) (blendedTextureWhite s) (blendedTextureAccent s) (blendedTextureAccent2 s)
    (furnitureSets s) (currentFurnitureIndex s) (transitionTargetAlpha s)
    (lastTransitionProgress s) (isOrthoView s) (lastEntranceQuadrant s) (lastQuadrant s)
    (sunPathTitle s).
Definition set_isIdleRotating v (s : State) : State :=
  mkState (camera s) (wallMeshes s) (entranceNodeHigh s) (entranceNodeLow s)
    (entranceImage s) (lastInteractionTime s) v (isToggleMode s) (accentMaterial s)
    (accent2Material s) (originalAccentEmissive s) (originalAccent2Emissive s)
    (whiteMaterial s) (originalWhiteEmissive s) (sunTextures s) (currentSunTextureIndex
    s) (blendedTextureWhite s) (blendedTextureAccent s) (blendedTextureAccent2 s)
    (furnitureSets s) (currentFurnitureIndex s) (transitionTargetAlpha s)
    (lastTransitionProgress s) (isOrthoView s) (lastEntranceQuadrant s) (lastQuadrant s)
    (sunPathTitle s).
Definition set_isToggleMode v (s : State) : State :=
  mkState (camera s) (wallMeshes s) (entranceNodeHigh s) (entranceNodeLow s)
    (entranceImage s) (lastInteractionTime s) (isIdleRotating s) v (accentMaterial s)
    (accent2Material s) (originalAccentEmissive s) (originalAccent2Emissive s)
    (whiteMaterial s) (originalWhiteEmissive s) (sunTextures s) (currentSunTextureIndex
    s) (blendedTextureWhite s) (blendedTextureAccent s) (blendedTextureAccent2 s)
    (furnitureSets s) (currentFurnitureIndex s) (transitionTargetAlpha s)
    (lastTransitionProgress s) (isOrthoView s) (lastEntranceQuadrant s) (lastQuadrant s)
    (sunPathTitle s).
Definition set_accentMaterial v (s : State) : State :=
  mkState (camera s) (wallMeshes s) (entranceNodeHigh s) (entranceNodeLow s)
    (entranceImage s) (lastInteractionTime s) (isIdleRotating s) (isToggleMode s) v
    (accent2Material s) (originalAccentEmissive s) (originalAccent2Emissive s)
    (whiteMaterial s) (originalWhiteEmissive s) (sunTextures s) (currentSunTextureIndex
    s) (blendedTextureWhite s) (blendedTextureAccent s) (blendedTextureAccent2 s)
    (furnitureSets s) (currentFurnitureIndex s) (transitionTargetAlpha s)
    (lastTransitionProgress s) (isOrthoView s) (lastEntranceQuadrant s) (lastQuadrant s)
    (sunPathTitle s).
Definition set_accent2Material v (s : State) : State :=
  mkState (camera s) (wallMeshes s) (entranceNodeHigh s) (entranceNodeLow s)
    (entranceImage s) (lastInteractionTime s) (isIdleRotating s) (isToggleMode s)
    (accentMaterial s) v (originalAccentEmissive s) (originalAccent2Emissive s)
    (whiteMaterial s) (originalWhiteEmissive s) (sunTextures s) (currentSunTextureIndex
    s) (blendedTextureWhite s) (blendedTextureAccent s) (blendedTextureAccent2 s)
    (furnitureSets s) (currentFurnitureIndex s) (transitionTargetAlpha s)
    (lastTransitionProgress s) (isOrthoView s) (lastEntranceQuadrant s) (lastQuadrant s)
    (sunPathTitle s).
Definition set_originalAccentEmissive v (s : State) : State :=
  mkState (camera s) (wallMeshes s) (entranceNodeHigh s) (entranceNodeLow s)
    (entranceImage s) (lastInteractionTime s) (isIdleRotating s) (isToggleMode s)
    (accentMaterial s) (accent2Material s) v (originalAccent2Emissive s) (whiteMaterial
    s) (originalWhiteEmissive s) (sunTextures s) (currentSunTextureIndex s)
    (blendedTextureWhite s) (blendedTextureAccent s) (blendedTextureAccent2 s)
    (furnitureSets s) (currentFurnitureIndex s) (transitionTargetAlpha s)
    (lastTransitionProgress s) (isOrthoView s) (lastEntranceQuadrant s) (lastQuadrant s)
    (sunPathTitle s).
Definition set_originalAccent2Emissive v (s : State) : State :=
  mkState (camera s) (wallMeshes s) (entranceNodeHigh s) (entranceNodeLow s)
    (entranceImage s) (lastInteractionTime s) (isIdleRotating s) (isToggleMode s)
    (accentMaterial s) (accent2Material s) (originalAccentEmissive s) v (whiteMaterial
    s) (originalWhiteEmissive s) (sunTextures s) (currentSunTextureIndex s)
    (blendedTextureWhite s) (blendedTextureAccent s) (blendedTextureAccent2 s)
    (furnitureSets s) (currentFurnitureIndex s) (transitionTargetAlpha s)
    (lastTransitionProgress s) (isOrthoView s) (lastEntranceQuadrant s) (lastQuadrant s)
    (sunPathTitle s).
Definition set_whiteMaterial v (s : State) : State :=
  mkState (camera s) (wallMeshes s) (entranceNodeHigh s) (entranceNodeLow s)
    (entranceImage s) (lastInteractionTime s) (isIdleRotating s) (isToggleMode s)
    (accentMaterial s) (accent2Material s) (originalAccentEmissive s)
    (originalAccent2Emissive s) v (originalWhiteEmissive s) (sunTextures s)
    (currentSunTextureIndex s) (blendedTextureWhite s) (blendedTextureAccent s)
    (blendedTextureAccent2 s) (furnitureSets s) (currentFurnitureIndex s)
    (transitionTargetAlpha s) (lastTransitionProgress s) (isOrthoView s)
    (lastEntranceQuadrant s) (lastQuadrant s) (sunPathTitle s).
Definition set_originalWhiteEmissive v (s : State) : State :=
  mkState (camera s) (wallMeshes s) (entranceNodeHigh s) (entranceNodeLow s)
    (entranceImage s) (lastInteractionTime s) (isIdleRotating s) (isToggleMode s)
    (accentMaterial s) (accent2Material s) (originalAccentEmissive s)
    (originalAccent2Emissive s) (whiteMaterial s) v (sunTextures s)
    (currentSunTextureIndex s) (blendedTextureWhite s) (blendedTextureAccent s)
    (blendedTextureAccent2 s) (furnitureSets s) (currentFurnitureIndex s)
    (transitionTargetAlpha s) (lastTransitionProgress s) (isOrthoView s)
    (lastEntranceQuadrant s) (lastQuadrant s) (sunPathTitle s).
Definition set_sunTextures v (s : State) : State :=
  mkState (camera s) (wallMeshes s) (entranceNodeHigh s) (entranceNodeLow s)
    (entranceImage s) (lastInteractionTime s) (isIdleRotating s) (isToggleMode s)
    (accentMaterial s) (accent2Material s) (originalAccentEmissive s)
    (originalAccent2Emissive s) (whiteMaterial s) (originalWhiteEmissive s) v
    (currentSunTextureIndex s) (blendedTextureWhite s) (blendedTextureAccent s)
    (blendedTextureAccent2 s) (furnitureSets s) (currentFurnitureIndex s)
    (transitionTargetAlpha s) (lastTransitionProgress s) (isOrthoView s)
    (lastEntranceQuadrant s) (lastQuadrant s) (sunPathTitle s).
Definition set_currentSunTextureIndex v (s : State) : State :=
  mkState (camera s) (wallMeshes s) (entranceNodeHigh s) (entranceNodeLow s)
    (entranceImage s) (lastInteractionTime s) (isIdleRotating s) (isToggleMode s)
    (accentMaterial s) (accent2Material s) (originalAccentEmissive s)
    (originalAccent2Emissive s) (whiteMaterial s) (originalWhiteEmissive s) (sunTextures
    s) v (blendedTextureWhite s) (blendedTextureAccent s) (blendedTextureAccent2 s)
    (furnitureSets s) (currentFurnitureIndex s) (transitionTargetAlpha s)
    (lastTransitionProgress s) (isOrthoView s) (lastEntranceQuadrant s) (lastQuadrant s)
    (sunPathTitle s).
Definition set_blendedTextureWhite v (s : State) : State :=
  mkState (camera s) (wallMeshes s) (entranceNodeHigh s) (entranceNodeLow s)
    (entranceImage s) (lastInteractionTime s) (isIdleRotating s) (isToggleMode s)
    (accentMaterial s) (accent2Material s) (originalAccentEmissive s)
    (originalAccent2Emissive s) (whiteMaterial s) (originalWhiteEmissive s) (sunTextures
    s) (currentSunTextureIndex s) v (blendedTextureAccent s) (blendedTextureAccent2 s)
    (furnitureSets s) (currentFurnitureIndex s) (transitionTargetAlpha s)
    (lastTransitionProgress s) (isOrthoView s) (lastEntranceQuadrant s) (lastQuadrant s)
    (sunPathTitle s).
Definition set_blendedTextureAccent v (s : State) : State :=
  mkState (camera s) (wallMeshes s) (entranceNodeHigh s) (entranceNodeLow s)
    (entranceImage s) (lastInteractionTime s) (isIdleRotating s) (isToggleMode s)
    (accentMaterial s) (accent2Material s) (originalAccentEmissive s)
    (originalAccent2Emissive s) (whiteMaterial s) (originalWhiteEmissive s) (sunTextures
    s) (currentSunTextureIndex s) (blendedTextureWhite s) v (blendedTextureAccent2 s)
    (furnitureSets s) (currentFurnitureIndex s) (transitionTargetAlpha s)
    (lastTransitionProgress s) (isOrthoView s) (lastEntranceQuadrant s) (lastQuadrant s)
    (sunPathTitle s).
Definition set_blendedTextureAccent2 v (s : State) : State :=
  mkState (camera s) (wallMeshes s) (entranceNodeHigh s) (entranceNodeLow s)
    (entranceImage s) (lastInteractionTime s) (isIdleRotating s) (isToggleMode s)
    (accentMaterial s) (accent2Material s) (originalAccentEmissive s)
    (originalAccent2Emissive s) (whiteMaterial s) (originalWhiteEmissive s) (sunTextures
    s) (currentSunTextureIndex s) (blendedTextureWhite s) (blendedTextureAccent s) v
    (furnitureSets s) (currentFurnitureIndex s) (transitionTargetAlpha s)
    (lastTransitionProgress s) (isOrthoView s) (lastEntranceQuadrant s) (lastQuadrant s)
    (sunPathTitle s).
Definition set_furnitureSets v (s : State) : State :=
  mkState (camera s) (wallMeshes s) (entranceNodeHigh s) (entranceNodeLow s)
    (entranceImage s) (lastInteractionTime s) (isIdleRotating s) (isToggleMode s)
    (accentMaterial s) (accent2Material s) (originalAccentEmissive s)
    (originalAccent2Emissive s) (whiteMaterial s) (originalWhiteEmissive s) (sunTextures
    s) (currentSunTextureIndex s) (blendedTextureWhite s) (blendedTextureAccent s)
    (blendedTextureAccent2 s) v (currentFurnitureIndex s) (transitionTargetAlpha s)
    (lastTransitionProgress s) (isOrthoView s) (lastEntranceQuadrant s) (lastQuadrant s)
    (sunPathTitle s).
Definition set_currentFurnitureIndex v (s : State) : State :=
  mkState (camera s) (wallMeshes s) (entranceNodeHigh s) (entranceNodeLow s)
    (entranceImage s) (lastInteractionTime s) (isIdleRotating s) (isToggleMode s)
    (accentMaterial s) (accent2Material s) (originalAccentEmissive s)
    (originalAccent2Emissive s) (whiteMaterial s) (originalWhiteEmissive s) (sunTextures
    s) (currentSunTextureIndex s) (blendedTextureWhite s) (blendedTextureAccent s)
    (blendedTextureAccent2 s) (furnitureSets s) v (transitionTargetAlpha s)
    (lastTransitionProgress s) (isOrthoView s) (lastEntranceQuadrant s) (lastQuadrant s)
    (sunPathTitle s).
Definition set_transitionTargetAlpha v (s : State) : State :=
  mkState (camera s) (wallMeshes s) (entranceNodeHigh s) (entranceNodeLow s)
    (entranceImage s) (lastInteractionTime s) (isIdleRotating s) (isToggleMode s)
    (accentMaterial s) (accent2Material s) (originalAccentEmissive s)
    (originalAccent2Emissive s) (whiteMaterial s) (originalWhiteEmissive s) (sunTextures
    s) (currentSunTextureIndex s) (blendedTextureWhite s) (blendedTextureAccent s)
    (blendedTextureAccent2 s) (furnitureSets s) (currentFurnitureIndex s) v
    (lastTransitionProgress s) (isOrthoView s) (lastEntranceQuadrant s) (lastQuadrant s)
    (sunPathTitle s).
Definition set_lastTransitionProgress v (s : State) : State :=
  mkState (camera s) (wallMeshes s) (entranceNodeHigh s) (entranceNodeLow s)
    (entranceImage s) (lastInteractionTime s) (isIdleRotating s) (isToggleMode s)
    (accentMaterial s) (accent2Material s) (originalAccentEmissive s)
    (originalAccent2Emissive s) (whiteMaterial s) (originalWhiteEmissive s) (sunTextures
    s) (currentSunTextureIndex s) (blendedTextureWhite s) (blendedTextureAccent s)
    (blendedTextureAccent2 s) (furnitureSets s) (currentFurnitureIndex s)
    (transitionTargetAlpha s) v (isOrthoView s) (lastEntranceQuadrant s) (lastQuadrant
    s) (sunPathTitle s).
Definition set_isOrthoView v (s : State) : State :=
  mkState (camera s) (wallMeshes s) (entranceNodeHigh s) (entranceNodeLow s)
    (entranceImage s) (lastInteractionTime s) (isIdleRotating s) (isToggleMode s)
    (accentMaterial s) (accent2Material s) (originalAccentEmissive s)
    (originalAccent2Emissive s) (whiteMaterial s) (originalWhiteEmissive s) (sunTextures
    s) (currentSunTextureIndex s) (blendedTextureWhite s) (blendedTextureAccent s)
    (blendedTextureAccent2 s) (furnitureSets s) (currentFurnitureIndex s)
    (transitionTargetAlpha s) (lastTransitionProgress s) v (lastEntranceQuadrant s)
    (lastQuadrant s) (sunPathTitle s).
Definition set_lastEntranceQuadrant v (s : State) : State :=
  mkState (camera s) (wallMeshes s) (entranceNodeHigh s) (entranceNodeLow s)
    (entranceImage s) (lastInteractionTime s) (isIdleRotating s) (isToggleMode s)
    (accentMaterial s) (accent2Material s) (originalAccentEmissive s)
    (originalAccent2Emissive s) (whiteMaterial s) (originalWhiteEmissive s) (sunTextures
    s) (currentSunTextureIndex s) (blendedTextureWhite s) (blendedTextureAccent s)
    (blendedTextureAccent2 s) (furnitureSets s) (currentFurnitureIndex s)
    (transitionTargetAlpha s) (lastTransitionProgress s) (isOrthoView s) v (lastQuadrant
    s) (sunPathTitle s).
Definition set_lastQuadrant v (s : State) : State :=
  mkState (camera s) (wallMeshes s) (entranceNodeHigh s) (entranceNodeLow s)
    (entranceImage s) (lastInteractionTime s) (isIdleRotating s) (isToggleMode s)
    (accentMaterial s) (accent2Material s) (originalAccentEmissive s)
    (originalAccent2Emissive s) (whiteMaterial s) (originalWhiteEmissive s) (sunTextures
    s) (currentSunTextureIndex s) (blendedTextureWhite s) (blendedTextureAccent s)
    (blendedTextureAccent2 s) (furnitureSets s) (currentFurnitureIndex s)
    (transitionTargetAlpha s) (lastTransitionProgress s) (isOrthoView s)
    (lastEntranceQuadrant s) v (sunPathTitle s).
Definition set_sunPathTitle v (s : State) : State :=
  mkState (camera s) (wallMeshes s) (entranceNodeHigh s) (entranceNodeLow s)
    (entranceImage s) (lastInteractionTime s) (isIdleRotating s) (isToggleMode s)
    (accentMaterial s) (accent2Material s) (originalAccentEmissive s)
    (originalAccent2Emissive s) (whiteMaterial s) (originalWhiteEmissive s) (sunTextures
    s) (currentSunTextureIndex s) (blendedTextureWhite s) (blendedTextureAccent s)
    (blendedTextureAccent2 s) (furnitureSets s) (currentFurnitureIndex s)
    (transitionTargetAlpha s) (lastTransitionProgress s) (isOrthoView s)
    (lastEntranceQuadrant s) (lastQuadrant s) v.

Definition set_alpha (a : R) (c : Camera) : Camera :=
  mkCamera a (beta c) (radius c) (fov c) (lowerBetaLimit c) (upperBetaLimit c)
           (lowerRadiusLimit c) (upperRadiusLimit c) (minZ c).

Definition setEmissiveColor (c : Color3) (m : Material) : Material :=
  mkMaterial (emissiveTexture m) (Some c) (emissiveIntensity m).

(** What a call leaves behind.  [TypeError] is the exception of reading a
    property of [null], with the state at the throw.  [NonFinite] says that
    a camera number stopped being a finite real (a NaN progress, an
    infinite radius, a snap over an empty array); the model does not follow
    the program past that point. *)
Inductive outcome : Type :=
| Returned (s : State)
| TypeError (s : State)
| NonFinite.

(** ** Walls *)

Definition hideAllWalls (s : State) : State :=
  set_wallMeshes (forEachWall (fun _ mesh => setEnabled false mesh) (wallMeshes s)) s.

Definition showAllWalls (s : State) : State :=
  set_wallMeshes (forEachWall (fun _ mesh => setEnabled true mesh) (wallMeshes s)) s.

(** [hideMap[quadrant] || []] *)
Definition hideMap (quadrant : nat) : list Dir :=
  match quadrant with
  | 1%nat => [West; South]
  | 2%nat => [South; East]
  | 3%nat => [East; North]
  | 4%nat => [North; West]
  | _ => []
  end.

(** [toHide.includes(dir)] *)
Definition includes (toHide : list Dir) (dir : Dir) : bool :=
  existsb (Dir_eqb dir) toHide.

Definition updateMeshVisibility (quadrant : nat) (s : State) : State :=
  let toHide := hideMap quadrant in
  set_wallMeshes
    (forEachWall (fun dir mesh =>
                    let hide := includes toHide dir in
                    setEnabled (negb hide) mesh) (wallMeshes s)) s.

Definition updateWallVisibilityForMode (s : State) : outcome :=
  if isOrthoView s then
    Returned (hideAllWalls s)
  else if isToggleMode s then
    match camera s with
    | Some cam => Returned (updateMeshVisibility (getQuadrant (alpha cam)) s)
    | None => TypeError s
    end
  else
    Returned (showAllWalls s).

(** ** Accent emission *)

Definition updateAccentEmission (enabled : bool) (s : State) : State :=
  let s :=
    match accentMaterial s with
    | Some m =>
        if enabled then
          set_accentMaterial (Some (setEmissiveColor ACCENT_EMISSION_COLOR m)) s
        else
          match originalAccentEmissive s with
          | Some c => set_accentMaterial (Some (setEmissiveColor c m)) s
          | None => s
          end
    | None => s
    end in
  match accent2Material s with
  | Some m =>
      if enabled then
        set_accent2Material (Some (setEmissiveColor ACCENT_2_EMISSION_COLOR m)) s
      else
        match originalAccent2Emissive s with
        | Some c => set_accent2Material (Some (setEmissiveColor c m)) s
        | None => s
        end
  | None => s
  end.

(** ** Furniture *)

Definition hideAllFurniture (s : State) : State :=
  set_furnitureSets
    (forEachFurniture
       (fun _ mesh => mkMesh false 0 (scaling mesh) (_originalScaling mesh))
       (furnitureSets s)) s.

(** [FURNITURE_OPTIONS[currentFurnitureIndex]]; [null] and an index out of
    range both give no key. *)
Definition currentOption (s : State) : option FurnitureKey :=
  nth (currentFurnitureIndex s) FURNITURE_OPTIONS None.

(** [key === currentOption] *)
Definition isCurrent (key : FurnitureKey) (opt : option FurnitureKey) : bool :=
  match opt with
  | Some k => FurnitureKey_eqb key k
  | None => false
  end.

Definition updateFurnitureVisibility (s : State) : State :=
  if negb (isToggleMode s) then hideAllFurniture s
  else
    let currentOption := currentOption s in
    set_furnitureSets
      (forEachFurniture
         (fun key mesh =>
            let shouldShow := isCurrent key currentOption in
            mkMesh shouldShow (if shouldShow then 1 else 0)
                   (if shouldShow then
                      match _originalScaling mesh with
                      | Some v => v
                      | None => scaling mesh
                      end
                    else scaling mesh)
                   (_originalScaling mesh))
         (furnitureSets s)) s.

Definition cycleFurniture (s : State) : State :=
  let s :=
    set_currentFurnitureIndex
      ((currentFurnitureIndex s + 1) mod List.length FURNITURE_OPTIONS)%nat s in
  updateFurnitureVisibility s.

(** [furnitureSets[key].forEach(f)] *)
Definition forFurnitureSet (key : FurnitureKey) (f : Mesh -> Mesh) (fs : FurnitureSets)
  : FurnitureSets :=
  match key with
  | Furniture1 => mkFurniture (map f (furniture1 fs)) (furniture2 fs) (furniture3 fs)
  | Furniture2 => mkFurniture (furniture1 fs) (map f (furniture2 fs)) (furniture3 fs)
  | Furniture3 => mkFurniture (furniture1 fs) (furniture2 fs) (map f (furniture3 fs))
  end.

Definition updateFurnitureFade (progress : R) (s : State) : State :=
  if negb (isToggleMode s) then s
  else
    let section4Start := 0.66 in
    let shrinkSpeed := 0.05 in
    let shrinkProgress :=
      if Rge_dec progress section4Start
      then clamp ((progress - section4Start) / shrinkSpeed) 0 1
      else 0 in
    let minScale := 0.9 in
    let scale_ := lerp 1 minScale shrinkProgress in
    let shouldShow := if Rlt_dec shrinkProgress 1 then true else false in
    match currentOption s with
    | Some key =>
        set_furnitureSets
          (forFurnitureSet key
             (fun mesh =>
                if enabled mesh || (if Rlt_dec shrinkProgress 1 then true else false)
                then mkMesh (enabled mesh) (if shouldShow then 1 else 0)
                            (match _originalScaling mesh with
                             | Some v => scale v scale_
                             | None => (scale_, scale_, scale_)
                             end)
                            (_originalScaling mesh)
                else mesh)
             (furnitureSets s)) s
    | None => s
    end.

(** ** Toggle mode *)

Definition toggleMode (s : State) : outcome :=
  let s := set_isToggleMode (negb (isToggleMode s)) s in
  let s := updateAccentEmission (isToggleMode s) s in
  match updateWallVisibilityForMode s with
  | Returned s => Returned (updateFurnitureVisibility s)
  | other => other
  end.

(** ** Sun path *)

(** [texture.setFloat("blendFactor", t)] *)
Definition setBlendFactor (t : R) (tex : ProceduralTexture) : ProceduralTexture :=
  mkTexture (sunSampler tex) t (baseColor tex) (coordinatesIndex tex).

Definition setCoordinatesIndex (i : Z) (tex : ProceduralTexture) : ProceduralTexture :=
  mkTexture (sunSampler tex) (blendFactor tex) (baseColor tex) (Some i).

(** [texture.setTexture("sunSampler", sunTextures[index])] *)
Definition setSunSampler (index : Z) (tex : ProceduralTexture) : ProceduralTexture :=
  mkTexture index (blendFactor tex) (baseColor tex) (coordinatesIndex tex).

(** The value of a global that holds a texture, as stored in
    [emissiveTexture]: a reference to that texture, or [null]. *)
Definition refTo (r : TextureRef) (tex : option ProceduralTexture) : option TextureRef :=
  match tex with
  | Some _ => Some r
  | None => None
  end.

(** The three assignments made to a material in either branch of
    [updateSunPathTransition]. *)
Definition setEmission (tex : option TextureRef) (c : Color3) (m : Material) : Material :=
  mkMaterial tex (Some c)
             (match emissiveIntensity m with
              | Some _ => Some 1
              | None => None
              end).

(** The blend factor computed in the first lines of
    [updateSunPathTransition]. *)
Definition sunBlendFactorOf (progress : R) : R :=
  let section4Start := 0.66 in
  let fadeSpeed := 0.1 in
  if Rge_dec progress section4Start
  then clamp ((progress - section4Start) / fadeSpeed) 0 1
  else 0.

Definition updateSunPathTransition (progress : R) (s : State) : State :=
  let t := sunBlendFactorOf progress in
  let s := set_blendedTextureWhite (option_map (setBlendFactor t) (blendedTextureWhite s)) s in
  let s := set_blendedTextureAccent (option_map (setBlendFactor t) (blendedTextureAccent s)) s in
  let s := set_blendedTextureAccent2 (option_map (setBlendFactor t) (blendedTextureAccent2 s)) s in
  let white : Color3 := (1, 1, 1) in
  if Req_dec_T t 0 then
    let s := set_accentMaterial
               (option_map (setEmission None
                              (if isToggleMode s then ACCENT_EMISSION_COLOR else white))
                           (accentMaterial s)) s in
    let s := set_whiteMaterial
               (option_map (setEmission None white) (whiteMaterial s)) s in
    set_accent2Material
      (option_map (setEmission None
                     (if isToggleMode s then ACCENT_2_EMISSION_COLOR else white))
                  (accent2Material s)) s
  else
    let s := set_blendedTextureWhite
               (option_map (setCoordinatesIndex 0) (blendedTextureWhite s)) s in
    let s := set_blendedTextureAccent
               (option_map (setCoordinatesIndex 0) (blendedTextureAccent s)) s in
    let s := set_blendedTextureAccent2
               (option_map (setCoordinatesIndex 0) (blendedTextureAccent2 s)) s in
    let s := set_accentMaterial
               (option_map
                  (setEmission
                     (if isToggleMode s
                      then refTo BlendAccent (blendedTextureAccent s)
                      else refTo BlendWhite (blendedTextureWhite s)) white)
                  (accentMaterial s)) s in
    let s := set_whiteMaterial
               (option_map (setEmission (refTo BlendWhite (blendedTextureWhite s)) white)
                           (whiteMaterial s)) s in
    set_accent2Material
      (option_map
         (setEmission
            (if isToggleMode s
             then refTo BlendAccent2 (blendedTextureAccent2 s)
             else refTo BlendWhite (blendedTextureWhite s)) white)
         (accent2Material s)) s.

Definition updateSunTexture (index : Z) (s : State) : State :=
  if ((index <? 0) || (index >=? sunTextures s))%Z then s
  else
    let s := set_currentSunTextureIndex index s in
    let s := set_blendedTextureWhite
               (option_map (setSunSampler index) (blendedTextureWhite s)) s in
    let s := set_blendedTextureAccent
               (option_map (setSunSampler index) (blendedTextureAccent s)) s in
    set_blendedTextureAccent2
      (option_map (setSunSampler index) (blendedTextureAccent2 s)) s.

(** [Math.round]: the nearest integer, halves upward. *)
Definition Math_round (q : Q) : Z := Qfloor (q + (1 # 2))%Q.

(** The decimal numeral a template literal prints for an integer. *)
Definition string_of_Z (z : Z) : string := NilZero.string_of_int (Z.to_int z).

(** The text assigned to [title.textContent]. *)
Definition sunPathLabel (sliderValue : Z) : string :=
  let startHour := 6%Q in
  let totalHours := 15%Q in
  let hourIncrement := (totalHours / 39)%Q in
  let hour := (startHour + (inject_Z sliderValue - 1) * hourIncrement)%Q in
  let h := Math_round hour in
  let ampm := if (h >=? 12)%Z then "PM"%string else "AM"%string in
  let h12 := if (h >? 12)%Z then (h - 12)%Z else if (h =? 0)%Z then 12%Z else h in
  ("Sun path - " ++ string_of_Z h12 ++ ampm)%string.

Definition updateSunPathTitle (sliderValue : Z) (s : State) : State :=
  match sunPathTitle s with
  | None => s
  | Some _ => set_sunPathTitle (Some (sunPathLabel sliderValue)) s
  end.

(** The label the specification describes: the same formatting, with the
    hour taken as [6 + index * (15/39)]. *)
Definition specLabel (index : Z) : string :=
  let hour := (6 + inject_Z index * (15 / 39))%Q in
  let h := Math_round hour in
  let ampm := if (h >=? 12)%Z then "PM"%string else "AM"%string in
  let h12 := if (h >? 12)%Z then (h - 12)%Z else if (h =? 0)%Z then 12%Z else h in
  ("Sun path - " ++ string_of_Z h12 ++ ampm)%string.

(** ** Entrance marker *)

Definition updateEntranceParent (s : State) : State :=
  match camera s, entranceImage s with
  | Some cam, Some _ =>
      let quadrant := getQuadrant (alpha cam) in
      if match lastEntranceQuadrant s with
         | Some q => Nat.eqb quadrant q
         | None => false
         end
      then s
      else
        let s := set_lastEntranceQuadrant (Some quadrant) s in
        let targetNode :=
          if Nat.eqb quadrant 1 || Nat.eqb quadrant 4 then
            (if entranceNodeHigh s then Some EntranceHigh else None)
          else if Nat.eqb quadrant 2 || Nat.eqb quadrant 3 then
            (if entranceNodeLow s then Some EntranceLow else None)
          else None in
        match targetNode with
        | Some node => set_entranceImage (Some (mkMarker node 65 (-25))) s
        | None => s
        end
  | _, _ => s
  end.

(** ** The per-frame camera update *)

(** What a frame reads from the page and the clock: the wrapper element
    (when the query finds it) with [getBoundingClientRect().top] and
    [offsetHeight], [window.innerHeight] and [Date.now()]. *)
Record Wrapper : Type := mkWrapper {
  rect_top : R;
  offsetHeight : R
}.

Record Env : Type := mkEnv {
  wrapper : option Wrapper;
  innerHeight : R;
  Date_now : Z
}.

(** Lines 411 to 420: the scroll progress through the wrapper. *)
Definition scrollProgressOf (scrolledAmount scrollableDistance : R) : jsnum :=
  clamp_ext (js_div scrolledAmount scrollableDistance) 0 1.

Definition scrollProgress (w : Wrapper) (viewportHeight : R) : jsnum :=
  let wrapperHeight := offsetHeight w in
  let scrollableDistance := wrapperHeight - viewportHeight in
  let scrolledAmount := - rect_top w in
  scrollProgressOf scrolledAmount scrollableDistance.

Definition transitionProgressOf (progress : R) : R :=
  let transitionEnd := 0.33 in
  clamp (progress / transitionEnd) 0 1.

Definition ORTHO_THRESHOLD : R := 0.1.
Definition TRANSITION_THRESHOLD : R := 1.0.

(** Lines 445 to 474: the new azimuth and the new [transitionTargetAlpha].
    [None] stands for a snap that returned [undefined], which would turn
    the azimuth into NaN; both candidate arrays are non-empty constants, so
    this does not happen. *)
Definition alphaHandling (transitionProgress camera_alpha lastTransitionProgress : R)
                         (transitionTargetAlpha : option R)
  : option (R * option R) :=
  if Rlt_dec transitionProgress ORTHO_THRESHOLD then
    match snapToNearest camera_alpha STRAIGHT_ANGLES with
    | Some targetStraightAngle =>
        let newAlpha := lerp camera_alpha targetStraightAngle 0.08 in
        Some (newAlpha, None)
    | None => None
    end
  else if Rlt_dec transitionProgress TRANSITION_THRESHOLD then
    let entering :=
      (if Rlt_dec lastTransitionProgress ORTHO_THRESHOLD then true else false)
      && (match transitionTargetAlpha with None => true | Some _ => false end) in
    let captured :=
      if entering then
        match snapToNearest camera_alpha STRAIGHT_ANGLES with
        | Some currentStraight =>
            match snapToNearest currentStraight QUADRANT_CENTERS with
            | Some target => Some (Some target)
            | None => None
            end
        | None => None
        end
      else Some transitionTargetAlpha in
    match captured with
    | Some (Some target) =>
        let newAlpha := lerp camera_alpha target 0.08 in
        Some (newAlpha, Some target)
    | Some None => Some (camera_alpha, None)
    | None => None
    end
  else
    Some (camera_alpha, None).

(** Lines 506 to 522: idle rotation. *)
Definition idleRotation (progress : R) (now : Z) (s : State) : State :=
  if Rge_dec progress 0.33 then
    let timeSinceInteraction := (now - lastInteractionTime s)%Z in
    if (timeSinceInteraction >? IDLE_TIMEOUT)%Z then
      let s := if negb (isIdleRotating s) then set_isIdleRotating true s else s in
      set_camera
        (option_map (fun c => set_alpha (alpha c + IDLE_ROTATION_SPEED) c) (camera s)) s
    else set_isIdleRotating false s
  else set_isIdleRotating false s.

(** Lines 422 to 522, for the camera [cam] found non-null at line 406 and a
    progress that is a number. *)
Definition updateCameraWith (progress : R) (now : Z) (cam : Camera) (s : State)
  : outcome :=
  let transitionProgress := transitionProgressOf progress in
  let targetBeta := lerp BETA_TOP_DOWN BETA_ANGLED transitionProgress in
  let targetFov := lerp FOV_ORTHO FOV_PERSPECTIVE transitionProgress in
  let newBeta := lerp (beta cam) targetBeta 0.08 in
  let newFov := lerp (fov cam) targetFov 0.08 in
  match js_div APPARENT_SIZE_CONSTANT (tan (newFov / 2)) with
  | Num newRadius =>
      match alphaHandling transitionProgress (alpha cam)
                          (lastTransitionProgress s) (transitionTargetAlpha s) with
      | Some (newAlpha, target) =>
          let s := set_transitionTargetAlpha target s in
          let s := set_lastTransitionProgress transitionProgress s in
          let s := set_camera
                     (Some (mkCamera newAlpha newBeta newRadius newFov
                                     newBeta newBeta newRadius newRadius
                                     (Rmax 0.1 (newRadius * 0.01)))) s in
          let wasOrthoView := isOrthoView s in
          let s := set_isOrthoView
                     (if Rlt_dec transitionProgress 0.1 then true else false) s in
          match (if Bool.eqb (isOrthoView s) wasOrthoView
                 then Returned s
                 else updateWallVisibilityForMode s) with
          | Returned s =>
              let s := updateEntranceParent s in
              let s := updateSunPathTransition progress s in
              let s := updateFurnitureFade progress s in
              Returned (idleRotation progress now s)
          | other => other
          end
      | None => NonFinite
      end
  | _ => NonFinite
  end.

Definition updateCameraFromScroll (env : Env) (s : State) : outcome :=
  match camera s with
  | None => Returned s
  | Some cam =>
      match wrapper env with
      | None => Returned s
      | Some w =>
          match scrollProgress w (innerHeight env) with
          | Num progress => updateCameraWith progress (Date_now env) cam s
          | _ => NonFinite
          end
      end
  end.

(** ** Scene creation

    [createScene] runs in stages separated by its [await]s: the synchronous
    setup, the arrival of the model, and the arrival of each furniture
    file.  The loader is an external collaborator; an import result is
    given as what the categorisation code reads from it. *)

(** The synchronous prefix of [createScene]: sun textures, the three
    blended textures, the camera and the quadrant observer's local. *)
Definition createSceneSetup (s : State) : State :=
  let s := set_sunTextures 40%Z s in
  let s := set_currentSunTextureIndex 0%Z s in
  let s := set_blendedTextureWhite
             (Some (mkTexture 13 0.0 (1.0, 1.0, 1.0) None)) s in
  let s := set_blendedTextureAccent
             (Some (mkTexture 13 0.0 (0.608, 0.733, 0.675) None)) s in
  let s := set_blendedTextureAccent2
             (Some (mkTexture 13 0.0 (0.851, 0.902, 0.871) None)) s in
  let initialRadius := APPARENT_SIZE_CONSTANT / tan (FOV_ORTHO / 2) in
  let s := set_camera
             (Some (mkCamera (PI / 2) BETA_TOP_DOWN initialRadius FOV_ORTHO
                             BETA_TOP_DOWN BETA_TOP_DOWN initialRadius initialRadius
                             0.1)) s in
  set_lastQuadrant (getQuadrant (PI / 2)) s.

Inductive MaterialName : Type := Accent | Accent_2 | White | OtherMaterial.

(** One mesh of the imported model: the mesh, the wall group its name puts
    it in (a name with [Wall_Top] and a direction), and its material. *)
Record ImportedMesh : Type := mkImported {
  im_mesh : Mesh;
  im_wall : option Dir;
  im_material : option (MaterialName * Material)
}.

Record ModelImport : Type := mkImport {
  im_meshes : list ImportedMesh;
  im_entranceHigh : bool;      (* a mesh or transform node named Entrance_High *)
  im_entranceLow : bool
}.

Definition pushWall (d : Dir) (mesh : Mesh) (w : WallMeshes) : WallMeshes :=
  match d with
  | North => mkWalls (north w ++ [mesh]) (south w) (east w) (west w)
  | South => mkWalls (north w) (south w ++ [mesh]) (east w) (west w)
  | East => mkWalls (north w) (south w) (east w ++ [mesh]) (west w)
  | West => mkWalls (north w) (south w) (east w) (west w ++ [mesh])
  end.

(** The original emissive color kept for a material: a clone of its color,
    or the given default. *)
Definition originalEmissive (m : Material) (default : Color3) : option Color3 :=
  match emissiveColor m with
  | Some c => Some c
  | None => Some default
  end.

(** The body of the categorising [forEach] over [result.meshes]. *)
Definition categorize (s : State) (im : ImportedMesh) : State :=
  let s :=
    match im_wall im with
    | Some d => set_wallMeshes (pushWall d (im_mesh im) (wallMeshes s)) s
    | None => s
    end in
  match im_material im with
  | Some (Accent, m) =>
      match accentMaterial s with
      | None => set_originalAccentEmissive (originalEmissive m (0, 0, 0))
                  (set_accentMaterial (Some m) s)
      | Some _ => s
      end
  | Some (Accent_2, m) =>
      match accent2Material s with
      | None => set_originalAccent2Emissive (originalEmissive m (0, 0, 0))
                  (set_accent2Material (Some m) s)
      | Some _ => s
      end
  | Some (White, m) =>
      match whiteMaterial s with
      | None => set_originalWhiteEmissive (originalEmissive m (1, 1, 1))
                  (set_whiteMaterial (Some m) s)
      | Some _ => s
      end
  | _ => s
  end.

(** The continuation of [createScene] once the model has arrived.  With no
    camera the assignment to [camera.target] throws and the [catch] block
    ends the stage. *)
Definition modelLoaded (r : ModelImport) (s : State) : State :=
  match camera s with
  | None => s
  | Some _ =>
      let s := fold_left categorize (im_meshes r) s in
      let s := hideAllWalls s in
      let s := set_entranceNodeHigh (im_entranceHigh r) s in
      let s := set_entranceNodeLow (im_entranceLow r) s in
      if entranceNodeHigh s || entranceNodeLow s then
        let initialNode := if entranceNodeHigh s then EntranceHigh else EntranceLow in
        let s := set_entranceImage (Some (mkMarker initialNode 65 0)) s in
        updateEntranceParent s
      else s
  end.

Definition pushFurniture (key : FurnitureKey) (mesh : Mesh) (fs : FurnitureSets)
  : FurnitureSets :=
  match key with
  | Furniture1 => mkFurniture (furniture1 fs ++ [mesh]) (furniture2 fs) (furniture3 fs)
  | Furniture2 => mkFurniture (furniture1 fs) (furniture2 fs ++ [mesh]) (furniture3 fs)
  | Furniture3 => mkFurniture (furniture1 fs) (furniture2 fs) (furniture3 fs ++ [mesh])
  end.

(** One kept mesh of a furniture file (root and empty nodes are skipped
    before): its scaling is remembered, then it is stored hidden. *)
Definition storeFurniture (key : FurnitureKey) (s : State) (mesh : Mesh) : State :=
  let original :=
    match _originalScaling mesh with
    | Some v => Some v
    | None => Some (scaling mesh)
    end in
  set_furnitureSets
    (pushFurniture key (mkMesh false 0 (scaling mesh) original) (furnitureSets s)) s.

Definition furnitureLoaded (key : FurnitureKey) (meshes : list Mesh) (s : State) : State :=
  fold_left (storeFurniture key) meshes s.

(** ** Events *)

(** [scene.render()] as far as the program is concerned: pointer input moves
    the azimuth (beta and radius are locked by their limits), then the
    observer registered on [onAfterCheckInputsObservable] runs. *)
Definition render (dAlpha : R) (s : State) : State :=
  match camera s with
  | None => s
  | Some cam =>
      let s := set_camera (Some (set_alpha (alpha cam + dAlpha) cam)) s in
      let q := getQuadrant (alpha cam + dAlpha) in
      let s :=
        if negb (Nat.eqb q (lastQuadrant s)) then
          let s := set_lastQuadrant q s in
          if isToggleMode s && negb (isOrthoView s)
          then updateMeshVisibility q s
          else s
        else s in
      updateEntranceParent s
  end.

Definition resetIdleTimer (now : Z) (s : State) : State :=
  set_lastInteractionTime now s.

(** The [input] listener of the slider. *)
Definition sliderInput (value : Z) (s : State) : State :=
  updateSunPathTitle value (updateSunTexture (value - 1)%Z s).

Inductive Event : Type :=
| SceneSetup
| ModelLoaded (r : ModelImport)
| FurnitureLoaded (key : FurnitureKey) (meshes : list Mesh)
| Frame (env : Env)
| Render (dAlpha : R)
| Interaction (now : Z)
| Pick
| CycleClick
| SliderInput (value : Z).

(** One event.  An exception ends the handler and leaves the state as it
    was at the throw; a frame whose numbers are no longer finite has no
    successor in the model. *)
Definition step (s : State) (e : Event) : option State :=
  match e with
  | SceneSetup => Some (createSceneSetup s)
  | ModelLoaded r => Some (modelLoaded r s)
  | FurnitureLoaded key meshes => Some (furnitureLoaded key meshes s)
  | Frame env =>
      match updateCameraFromScroll env s with
      | Returned s' => Some s'
      | TypeError s' => Some s'
      | NonFinite => None
      end
  | Render dAlpha => Some (render dAlpha s)
  | Interaction now => Some (resetIdleTimer now s)
  | Pick =>
      match toggleMode s with
      | Returned s' => Some s'
      | TypeError s' => Some s'
      | NonFinite => None
      end
  | CycleClick => Some (cycleFurniture s)
  | SliderInput value => Some (sliderInput value s)
  end.

Fixpoint run (s : State) (es : list Event) : option State :=
  match es with
  | [] => Some s
  | e :: es' =>
      match step s e with
      | Some s' => run s' es'
      | None => None
      end
  end.

(** The module-level initialisers; [now] is the [Date.now()] of line 18 and
    [title] the text of the title element, if the page has one. *)
Definition initialState (now : Z) (title : option string) : State :=
  mkState None (mkWalls [] [] [] []) false false None now false false
          None None None None None None 0%Z 0%Z None None None
          (mkFurniture [] [] []) 0%nat None 0 true None 0%nat title.

Definition reachable (s : State) : Prop :=
  exists now title es, run (initialState now title) es = Some s.

(** ** Loop invariant of [snapToNearest]

    What the loop knows after the candidates [seen]: nothing while
    [minDiff] is still [Infinity]; afterwards [nearestAngle] is the first
    of the candidates seen whose difference is the least. *)
Definition snap_inv (normalized : R) (seen : list R) (acc : option R * option R)
  : Prop :=
  match snd acc with
  | None => seen = []
  | Some m =>
      exists c pre post,
        fst acc = Some c /\ m = angularDiff normalized c /\ seen = pre ++ c :: post /\
        (forall x, In x pre -> angularDiff normalized c < angularDiff normalized x) /\
        (forall x, In x post -> angularDiff normalized c <= angularDiff normalized x)
  end.

(** ** The label in words

    The 12-hour reading of a whole hour of the day, and the check that a
    slider value gets the hour nearest to [6 + (value − 1) * (15/39)],
    printed that way, decided by evaluation. *)
Definition twelveHour (h : Z) : string :=
  (string_of_Z (if (h <=? 12)%Z then h else (h - 12)%Z)
   ++ (if (h <? 12)%Z then "AM" else "PM"))%string.

Definition labelHour (sliderValue : Z) : Q :=
  (6 + (inject_Z sliderValue - 1) * (15 / 39))%Q.

Definition label_ok (sliderValue : Z) : bool :=
  let h := Math_round (labelHour sliderValue) in
  Qle_bool (inject_Z h - (1 # 2)) (labelHour sliderValue)
  && negb (Qle_bool (inject_Z h + (1 # 2)) (labelHour sliderValue))
  && (6 <=? h)%Z && (h <=? 21)%Z
  && String.eqb (sunPathLabel sliderValue) ("Sun path - " ++ twelveHour h)
  && String.eqb (sunPathLabel sliderValue) (specLabel (sliderValue - 1)).

(** ** The wall table in words

    Section 4.3 of the specification: ortho hides all four groups,
    perspective with the toggle off shows all four, perspective with the
    toggle on hides two per quadrant. *)
Definition specWallVisible (isOrthoView isToggleMode : bool) (quadrant : nat) (d : Dir)
  : bool :=
  if isOrthoView then false
  else if negb isToggleMode then true
  else
    match quadrant, d with
    | 1%nat, (West | South) => false
    | 2%nat, (South | East) => false
    | 3%nat, (East | North) => false
    | 4%nat, (North | West) => false
    | _, _ => true
    end.

(** Every mesh of a group has its enabled flag equal to [b]. *)
Definition allEnabled (b : bool) (meshes : list Mesh) : Prop :=
  Forall (fun mesh => enabled mesh = b) meshes.

(** A mesh that starts enabled, as the loader delivers it. *)
Definition loadedMesh : Mesh := mkMesh true 1 (1, 1, 1) None.

(** A scene after setup with one wall mesh per direction. *)
Definition sampleWalls : State :=
  set_wallMeshes (mkWalls [loadedMesh] [loadedMesh] [loadedMesh] [loadedMesh])
                 (createSceneSetup (initialState 0 None)).

(** ** Views of the state used by the invariants *)

(** The mode and camera variables, without the scene objects. *)
Definition core (s : State) :=
  (camera s, isOrthoView s, isToggleMode s, currentFurnitureIndex s,
   transitionTargetAlpha s, lastTransitionProgress s, lastInteractionTime s,
   isIdleRotating s).

(** Some mesh of the group is enabled. *)
Definition anyEnabled (meshes : list Mesh) : bool := existsb enabled meshes.

(** The selection that follows a selection in the cycle
    furniture1, furniture2, furniture3, none. *)
Definition nextOption (o : option FurnitureKey) : option FurnitureKey :=
  match o with
  | Some Furniture1 => Some Furniture2
  | Some Furniture2 => Some Furniture3
  | Some Furniture3 => None
  | None => Some Furniture1
  end.

(** The furniture invariant: the index stays inside the options, and a set
    with an enabled mesh is the selected one, with toggle mode on. *)
Definition furnitureInv (s : State) : Prop :=
  (currentFurnitureIndex s < 4)%nat /\
  forall k, anyEnabled (furnitureSet k (furnitureSets s)) = true ->
            isToggleMode s = true /\ currentOption s = Some k.

(** The load-phase invariant: without a camera the view is still ortho and
    no wall mesh has been registered. *)
Definition loadInv (s : State) : Prop :=
  camera s = None -> isOrthoView s = true /\ wallMeshes s = mkWalls [] [] [] [].

(** The camera invariant: the field of view stays between the two
    constants, the radius keeps the apparent size and is locked. *)
Definition cameraInv (s : State) : Prop :=
  forall cam, camera s = Some cam ->
    FOV_ORTHO <= fov cam <= FOV_PERSPECTIVE /\
    radius cam * tan (fov cam / 2) = APPARENT_SIZE_CONSTANT /\
    lowerRadiusLimit cam = radius cam /\
    upperRadiusLimit cam = radius cam.

(** The transition invariant: a frame that ended in the ortho regime left
    no target behind. *)
Definition targetInv (s : State) : Prop :=
  lastTransitionProgress s < ORTHO_THRESHOLD -> transitionTargetAlpha s = None.

(** The smoothed field of view of a frame. *)
Definition newFovOf (progress : R) (cam : Camera) : R :=
  lerp (fov cam) (lerp FOV_ORTHO FOV_PERSPECTIVE (transitionProgressOf progress)) 0.08.

Definition newBetaOf (progress : R) (cam : Camera) : R :=
  lerp (beta cam) (lerp BETA_TOP_DOWN BETA_ANGLED (transitionProgressOf progress)) 0.08.

(** The idle test of a frame: sections 3 and 4, and more than the timeout
    since the last interaction. *)
Definition idleNow (progress : R) (now : Z) (s : State) : bool :=
  (if Rge_dec progress 0.33 then true else false)
  && (now - lastInteractionTime s >? IDLE_TIMEOUT)%Z.

(** A frame event whose wrapper exists. *)
Definition frameAt (top height viewport : R) (now : Z) : Event :=
  Frame (mkEnv (Some (mkWrapper top height)) viewport now).

(** The invariants of every reachable state, together. *)
Definition stateInv (s : State) : Prop :=
  cameraInv s /\ furnitureInv s /\ loadInv s /\ targetInv s.


(** An idle frame: progress at least 0.33 and more than the timeout since
    the interaction at [last]. *)
Definition idleFrame (last : Z) (e : Event) : Prop :=
  exists env w p,
    e = Frame env /\ wrapper env = Some w /\
    scrollProgress w (innerHeight env) = Num p /\
    0.33 <= p /\ (Date_now env - last > IDLE_TIMEOUT)%Z.

Definition isFrame (e : Event) : bool :=
  match e with
  | Frame _ => true
  | _ => false
  end.

(** The render loop left alone: idle frames, each followed or not by a
    render in which no input moves the azimuth. *)
Definition idleEvent (last : Z) (e : Event) : Prop :=
  idleFrame last e \/ e = Render 0.

(** A loaded scene with toggle mode on and the second set selected. *)
Definition sampleEvents : list Event :=
  [SceneSetup; FurnitureLoaded Furniture1 [loadedMesh];
   FurnitureLoaded Furniture2 [loadedMesh]; Pick; CycleClick].

(** The camera made by the setup and a wrapper two viewports high. *)
Definition sampleScene : State := createSceneSetup (initialState 0 None).

Definition sampleCamera : Camera :=
  let initialRadius := APPARENT_SIZE_CONSTANT / tan (FOV_ORTHO / 2) in
  mkCamera (PI / 2) BETA_TOP_DOWN initialRadius FOV_ORTHO
           BETA_TOP_DOWN BETA_TOP_DOWN initialRadius initialRadius 0.1.

(** The frame environment with the wrapper scrolled by [scrolled] pixels,
    the wrapper 2000 high and the viewport 1000 high, at time [now]. *)
Definition sampleEnv (scrolled : R) (now : Z) : Env :=
  mkEnv (Some (mkWrapper (- scrolled) 2000)) 1000 now.

(** ** The unused helper

    [straightToQuadrantCenter] is defined by the program and called
    nowhere.  Its mapping object has a non-negative integer key and three
    other numeric keys, which [Object.entries] lists in the order written;
    [parseFloat] gives back the number each key was printed from. *)
Definition quadrantMapping : list (R * R) :=
  [(0, PI / 4); (PI / 2, PI / 4); (PI, 5 * PI / 4); (3 * PI / 2, 5 * PI / 4)].

Definition straightToQuadrantCenter (straightAngle : R) : option R :=
  match find (fun entry =>
                if Rlt_dec (Rabs (fst entry - straightAngle)) 0.01 then true else false)
             quadrantMapping with
  | Some (_, value) => Some value
  | None => snapToNearest straightAngle QUADRANT_CENTERS
  end.

(** ** Further views of the state *)

(** The sun-path objects. *)
Definition sunView (s : State) :=
  (blendedTextureWhite s, blendedTextureAccent s, blendedTextureAccent2 s,
   sunTextures s, currentSunTextureIndex s).

(** The three materials and the colors remembered for them. *)
Definition materialView (s : State) :=
  (accentMaterial s, accent2Material s, whiteMaterial s,
   originalAccentEmissive s, originalAccent2Emissive s, originalWhiteEmissive s).

(** The entrance marker and what it is linked with. *)
Definition entranceView (s : State) :=
  (entranceNodeHigh s, entranceNodeLow s, entranceImage s, lastEntranceQuadrant s).

(** ** Relations between a mesh before and after an operation *)

(** What [updateFurnitureFade] may do to a mesh of the selected set at
    progress [p]: the flag and the remembered scaling stay; a mesh that is
    enabled, or any mesh while the shrink is not complete, gets the shrink
    factor and the visibility of the progress. *)
Definition fadedFrom (p : R) (old new : Mesh) : Prop :=
  enabled new = enabled old /\
  _originalScaling new = _originalScaling old /\
  (enabled old = false -> 0.71 <= p -> new = old) /\
  (enabled old = true \/ p < 0.71 ->
   visibility new = (if Rlt_dec p 0.71 then 1 else 0) /\
   exists factor,
     0.9 <= factor <= 1 /\
     (p <= 0.66 -> factor = 1) /\ (0.71 <= p -> factor = 0.9) /\
     scaling new = match _originalScaling old with
                   | Some v => scale v factor
                   | None => (factor, factor, factor)
                   end).

(** The anchor of each quadrant. *)
Definition anchorOf (quadrant : nat) : Anchor :=
  match quadrant with
  | 2%nat | 3%nat => EntranceLow
  | _ => EntranceHigh
  end.

Definition anchorPresent (s : State) (a : Anchor) : bool :=
  match a with
  | EntranceHigh => entranceNodeHigh s
  | EntranceLow => entranceNodeLow s
  end.

Definition MaterialName_eqb (a b : MaterialName) : bool :=
  match a, b with
  | Accent, Accent | Accent_2, Accent_2 | White, White
  | OtherMaterial, OtherMaterial => true
  | _, _ => false
  end.

(** The material of the first imported mesh whose material has the given
    name. *)
Fixpoint firstNamed (name : MaterialName) (meshes : list ImportedMesh) : option Material :=
  match meshes with
  | [] => None
  | im :: rest =>
      match im_material im with
      | Some (n, m) => if MaterialName_eqb n name then Some m else firstNamed name rest
      | None => firstNamed name rest
      end
  end.

(** The meshes of an import that belong to a wall group, in order. *)
Definition wallsOf (d : Dir) (meshes : list ImportedMesh) : list Mesh :=
  map im_mesh
      (filter (fun im => match im_wall im with
                         | Some d' => Dir_eqb d' d
                         | None => false
                         end) meshes).


(** A furniture mesh as [createScene] stores it. *)
Definition storedMesh (mesh : Mesh) : Mesh :=
  mkMesh false 0 (scaling mesh)
         (match _originalScaling mesh with
          | Some v => Some v
          | None => Some (scaling mesh)
          end).

(** The value a global keeps when it is assigned only while still null. *)
Definition keepFirst {A : Type} (old new : option A) : option A :=
  match old with
  | Some a => Some a
  | None => new
  end.

(** ** Invariants of the scene objects *)

(** In the top-down view no wall mesh is enabled. *)
Definition wallsInv (s : State) : Prop :=
  isOrthoView s = true -> forall d, allEnabled false (wallGroup d (wallMeshes s)).

(** The view flag follows the transition progress of the last frame. *)
Definition modeInv (s : State) : Prop :=
  0 <= lastTransitionProgress s <= 1 /\
  (isOrthoView s = true <-> lastTransitionProgress s < ORTHO_THRESHOLD).

(** A blended texture that exists, with the given base color, sun image
    and blend factor. *)
Definition blended (base : Vector3) (sampler : Z) (t : R)
                   (tex : option ProceduralTexture) : Prop :=
  exists x, tex = Some x /\ baseColor x = base /\ sunSampler x = sampler /\
            blendFactor x = t.

(** The sun-path invariant: before the setup nothing exists; after it the
    forty images are there, the index is one of them, and the three
    blended textures show one common image, the initial one or the one of
    the index, at one common blend factor, each over its own base color. *)
Definition sunInv (s : State) : Prop :=
  (sunTextures s = 0%Z /\ currentSunTextureIndex s = 0%Z /\
   blendedTextureWhite s = None /\ blendedTextureAccent s = None /\
   blendedTextureAccent2 s = None) \/
  (sunTextures s = 40%Z /\ (0 <= currentSunTextureIndex s < 40)%Z /\
   exists sampler t,
     (sampler = 13%Z \/ sampler = currentSunTextureIndex s) /\ 0 <= t <= 1 /\
     blended (1, 1, 1) sampler t (blendedTextureWhite s) /\
     blended ACCENT_EMISSION_COLOR sampler t (blendedTextureAccent s) /\
     blended ACCENT_2_EMISSION_COLOR sampler t (blendedTextureAccent2 s)).

(** A material that was found has its original emissive color kept. *)
Definition materialInv (s : State) : Prop :=
  (accentMaterial s <> None -> originalAccentEmissive s <> None) /\
  (accent2Material s <> None -> originalAccent2Emissive s <> None) /\
  (whiteMaterial s <> None -> originalWhiteEmissive s <> None).

(** Every stored furniture mesh remembers its original scaling. *)
Definition scalingInv (s : State) : Prop :=
  forall k, Forall (fun mesh => _originalScaling mesh <> None)
                   (furnitureSet k (furnitureSets s)).

(** The polar angle stays between the two constants and is locked by its
    limits; the near plane is at its initial 0.1 or at a hundredth of the
    radius. *)
Definition betaInv (s : State) : Prop :=
  forall cam, camera s = Some cam ->
    BETA_TOP_DOWN <= beta cam <= BETA_ANGLED /\
    lowerBetaLimit cam = beta cam /\ upperBetaLimit cam = beta cam /\
    (minZ cam = 0.1 \/ minZ cam = radius cam * 0.01).

Definition sceneInv (s : State) : Prop :=
  wallsInv s /\ modeInv s /\ sunInv s /\ materialInv s /\ scalingInv s /\ betaInv s.

(** The view flag a frame at the given progress ends with. *)
Definition orthoAt (progress : R) : bool :=
  if Rlt_dec (transitionProgressOf progress) 0.1 then true else false.

(** The radius a frame gives the camera. *)
Definition newRadiusOf (progress : R) (cam : Camera) : R :=
  APPARENT_SIZE_CONSTANT / tan (newFovOf progress cam / 2).

(** The scrolled amount and the scrollable distance of a frame. *)
Definition scrolledAmountOf (w : Wrapper) : R := - rect_top w.

Definition scrollableDistanceOf (w : Wrapper) (viewportHeight : R) : R :=
  offsetHeight w - viewportHeight.

(** An import with a north wall carrying a colorless Accent material, a
    second Accent material that comes too late, and the high entrance
    node. *)
Definition sampleImport : ModelImport :=
  mkImport [mkImported loadedMesh (Some North) (Some (Accent, mkMaterial None None None));
            mkImported loadedMesh None (Some (Accent, mkMaterial None (Some (1, 0, 0)) None))]
           true false.

(** The sample scene after the sample import. *)
Definition sampleLoaded : State := modelLoaded sampleImport sampleScene.

(** The azimuth after [n] consecutive frames of the ortho regime with no
    pointer input in between. *)
Fixpoint orthoFrames (n : nat) (a : R) : option R :=
  match n with
  | O => Some a
  | S n' =>
      match alphaHandling 0 a 0 None with
      | Some (newAlpha, _) => orthoFrames n' newAlpha
      | None => None
      end
  end.


(** ** Frames whose progress is a number *)

(** A frame that does not find the wrapper exactly as high as the viewport
    with its top at the viewport top, so that its progress is not 0/0.
    Events other than frames qualify as they are. *)
Definition numericFrame (e : Event) : Prop :=
  match e with
  | Frame env =>
      forall w, wrapper env = Some w ->
        ~ (scrolledAmountOf w = 0 /\ scrollableDistanceOf w (innerHeight env) = 0)
  | _ => True
  end.

(** The frame environment with the wrapper as high as the viewport and its
    top at the viewport top. *)
Definition nanEnv : Env := mkEnv (Some (mkWrapper 0 1000)) 1000 0.

(** The setup followed by a frame half way down the sample wrapper. *)
Definition sampleRun : list Event := [SceneSetup; Frame (sampleEnv 500 0)].

(** * Properties *)

(** ** Numbers and angles *)

Lemma two_PI_pos : 0 < 2 * PI.
Proof. pose proof PI_RGT_0. lra. Qed.

Lemma clamp_bounds (v lo hi : R) : lo <= hi -> lo <= clamp v lo hi <= hi.
Proof.
  intros Hle. unfold clamp, Rmin, Rmax.
  destruct (Rle_dec v lo); destruct (Rle_dec _ hi); lra.
Qed.

Lemma clamp_inside (v lo hi : R) : lo <= v <= hi -> clamp v lo hi = v.
Proof.
  intros Hv. unfold clamp, Rmin, Rmax.
  destruct (Rle_dec v lo); destruct (Rle_dec _ hi); lra.
Qed.

Lemma clamp_low (v lo hi : R) : lo <= hi -> v <= lo -> clamp v lo hi = lo.
Proof.
  intros Hle Hv. unfold clamp, Rmin, Rmax.
  destruct (Rle_dec v lo); destruct (Rle_dec _ hi); lra.
Qed.

Lemma clamp_high (v lo hi : R) : lo <= hi -> hi <= v -> clamp v lo hi = hi.
Proof.
  intros Hle Hv. unfold clamp, Rmin, Rmax.
  destruct (Rle_dec v lo); destruct (Rle_dec _ hi); lra.
Qed.

Lemma clamp_ext_Num (v lo hi : R) : clamp_ext (Num v) lo hi = Num (clamp v lo hi).
Proof. reflexivity. Qed.

Lemma js_div_nonzero (a b : R) : b <> 0 -> js_div a b = Num (a / b).
Proof.
  intros Hb. unfold js_div. destruct (Req_dec_T b 0); [contradiction | reflexivity].
Qed.

Lemma trunc_unit (x : R) : 0 <= x < 1 -> trunc x = 0%Z.
Proof.
  intros [H0 H1]. unfold trunc. destruct (Rle_dec 0 x); [| contradiction].
  symmetry. apply Int_part_spec. simpl. lra.
Qed.

(** The remainder is the dividend itself inside the first period. *)
Lemma js_rem_small (a m : R) : 0 <= a < m -> js_rem a m = a.
Proof.
  intros [H0 H1]. unfold js_rem.
  assert (Hm : 0 < m) by lra.
  rewrite trunc_unit.
  - simpl. lra.
  - split.
    + apply Rmult_le_pos; [lra |]. left. now apply Rinv_0_lt_compat.
    + apply (Rmult_lt_reg_r m); [lra |]. unfold Rdiv.
      rewrite Rmult_assoc, Rinv_l by lra. lra.
Qed.

(** The remainder keeps the sign of the dividend and is smaller than the
    divisor in absolute value. *)
Lemma js_rem_bounds (a m : R) :
  0 < m -> - m < js_rem a m < m /\ (0 <= a -> 0 <= js_rem a m).
Proof.
  intros Hm. unfold js_rem, trunc.
  assert (Hx : a = m * (a / m)) by (field; lra).
  set (x := a / m) in *.
  destruct (Rle_dec 0 x) as [Hpos | Hneg].
  - destruct (base_Int_part x) as [Hlo Hhi].
    assert (0 <= x - IZR (Int_part x) < 1) as [Ha Hb] by lra.
    replace (a - m * IZR (Int_part x)) with (m * (x - IZR (Int_part x))) by lra.
    split; [split |]; intros; nra.
  - destruct (base_Int_part (- x)) as [Hlo Hhi].
    rewrite opp_IZR.
    assert (-1 < x + IZR (Int_part (- x)) <= 0) as [Ha Hb] by lra.
    replace (a - m * - IZR (Int_part (- x)))
      with (m * (x + IZR (Int_part (- x)))) by lra.
    split; [split |]; intros; nra.
Qed.

Lemma normalizeAlpha_range (alpha : R) : 0 <= normalizeAlpha alpha < 2 * PI.
Proof.
  unfold normalizeAlpha.
  destruct (js_rem_bounds alpha (2 * PI) two_PI_pos) as [[Hlo Hhi] _].
  destruct (Rlt_dec (js_rem alpha (2 * PI)) 0); lra.
Qed.

Lemma normalizeAlpha_id (alpha : R) : 0 <= alpha < 2 * PI -> normalizeAlpha alpha = alpha.
Proof.
  intros H. unfold normalizeAlpha. rewrite js_rem_small by assumption.
  destruct (Rlt_dec alpha 0); lra.
Qed.

(** The remainder and the normalised angle differ from the angle by whole
    multiples of the divisor. *)
Lemma js_rem_congruent (a m : R) : exists k : Z, js_rem a m = a + IZR k * m.
Proof.
  exists (- trunc (a / m))%Z. unfold js_rem. rewrite opp_IZR. lra.
Qed.

Lemma normalizeAlpha_congruent (alpha : R) :
  exists k : Z, normalizeAlpha alpha = alpha + IZR k * (2 * PI).
Proof.
  unfold normalizeAlpha. destruct (js_rem_congruent alpha (2 * PI)) as [k Hk].
  destruct (Rlt_dec (js_rem alpha (2 * PI)) 0).
  - exists (k + 1)%Z. rewrite Hk, plus_IZR. lra.
  - exists k. exact Hk.
Qed.

Lemma getQuadrant_range (alpha : R) : (1 <= getQuadrant alpha <= 4)%nat.
Proof.
  unfold getQuadrant.
  repeat match goal with |- context [Rlt_dec ?a ?b] => destruct (Rlt_dec a b) end; lia.
Qed.

(** The folded difference of the loop is the circular distance
    [min(|d|, 2π − |d|)]. *)
Lemma angularDiff_circular (normalized angle : R) :
  angularDiff normalized angle = circularDistance normalized angle.
Proof.
  unfold angularDiff, circularDistance, Rmin.
  generalize (Rabs (normalized - angle)). intros d.
  destruct (Rgt_dec d PI); destruct (Rle_dec d (2 * PI - d)); lra.
Qed.

Lemma angularDiff_in_range (n x : R) :
  0 <= n < 2 * PI -> 0 <= x < 2 * PI ->
  0 <= angularDiff n x /\ (angularDiff n x = 0 -> x = n).
Proof.
  intros Hn Hx. unfold angularDiff, Rabs.
  destruct (Rcase_abs (n - x)); destruct (Rgt_dec _ PI); split; intros; lra.
Qed.

(** ** snapToNearest *)

Section SnapLoop.

Variable normalized : R.

Lemma snap_step_inv (seen : list R) (acc : option R * option R) (a : R) :
  snap_inv normalized seen acc ->
  snap_inv normalized (seen ++ [a]) (snap_step normalized acc a).
Proof.
  destruct acc as [nearest [m |]]; unfold snap_inv, snap_step, below; simpl.
  - intros (c & pre & post & Hc & Hm & Hseen & Hpre & Hpost).
    set (d := angularDiff normalized) in *.
    destruct (Rlt_dec (d a) m) as [Hlt | Hge]; simpl.
    + exists a, seen, []. repeat split; try reflexivity.
      * intros x Hx. subst seen m. apply in_app_or in Hx.
        destruct Hx as [Hx | [Hx | Hx]].
        -- specialize (Hpre x Hx). lra.
        -- subst x. exact Hlt.
        -- specialize (Hpost x Hx). lra.
      * intros x [].
    + exists c, pre, (post ++ [a]). repeat split; try assumption.
      * subst seen. rewrite <- app_assoc. reflexivity.
      * intros x Hx. apply in_app_or in Hx. destruct Hx as [Hx | [Hx | []]].
        -- now apply Hpost.
        -- subst x m. lra.
  - intros ->. exists a, [], []. repeat split; try reflexivity; intros x [].
Qed.

Lemma snap_fold_inv (l seen : list R) (acc : option R * option R) :
  snap_inv normalized seen acc ->
  snap_inv normalized (seen ++ l) (fold_left (snap_step normalized) l acc).
Proof.
  revert seen acc. induction l as [| a l IH]; intros seen acc Hinv; simpl.
  - now rewrite app_nil_r.
  - replace (seen ++ a :: l) with ((seen ++ [a]) ++ l)
      by (rewrite <- app_assoc; reflexivity).
    apply IH. now apply snap_step_inv.
Qed.

End SnapLoop.

Lemma snapToNearest_first_min (alpha : R) (angles : list R) :
  angles <> [] ->
  exists c pre post,
    snapToNearest alpha angles = Some c /\ angles = pre ++ c :: post /\
    (forall x, In x pre ->
       angularDiff (normalizeAlpha alpha) c < angularDiff (normalizeAlpha alpha) x) /\
    (forall x, In x post ->
       angularDiff (normalizeAlpha alpha) c <= angularDiff (normalizeAlpha alpha) x).
Proof.
  intros Hne. unfold snapToNearest.
  pose proof (snap_fold_inv (normalizeAlpha alpha) angles []
                (nth_error angles 0, None) eq_refl) as Hinv.
  simpl app in Hinv. unfold snap_inv in Hinv.
  destruct (fold_left _ angles _) as [nearest [m |]]; simpl in *.
  - destruct Hinv as (c & pre & post & Hc & _ & Hl & Hpre & Hpost).
    exists c, pre, post. auto.
  - contradiction.
Qed.

Lemma snapToNearest_minimal (alpha c : R) (angles : list R) :
  snapToNearest alpha angles = Some c ->
  In c angles /\
  forall x, In x angles ->
    circularDistance (normalizeAlpha alpha) c <= circularDistance (normalizeAlpha alpha) x.
Proof.
  intros Hsnap. destruct angles as [| a l]; [discriminate |].
  destruct (snapToNearest_first_min alpha (a :: l))
    as (c' & pre & post & Hc' & Hl & Hpre & Hpost); [discriminate |].
  rewrite Hsnap in Hc'. injection Hc' as <-. split.
  - rewrite Hl. apply in_or_app. right. now left.
  - intros x Hx. rewrite <- !angularDiff_circular. rewrite Hl in Hx.
    apply in_app_or in Hx. destruct Hx as [Hx | [Hx | Hx]].
    + left. now apply Hpre.
    + subst x. right. reflexivity.
    + now apply Hpost.
Qed.

Lemma snapToNearest_STRAIGHT (alpha : R) :
  exists t, snapToNearest alpha STRAIGHT_ANGLES = Some t /\ In t STRAIGHT_ANGLES.
Proof.
  destruct (snapToNearest_first_min alpha STRAIGHT_ANGLES) as (c & pre & post & H & Hl & _).
  - discriminate.
  - exists c. split; [assumption |]. rewrite Hl. apply in_or_app. right. now left.
Qed.

Lemma snapToNearest_QUADRANT (alpha : R) :
  exists t, snapToNearest alpha QUADRANT_CENTERS = Some t /\ In t QUADRANT_CENTERS.
Proof.
  destruct (snapToNearest_first_min alpha QUADRANT_CENTERS) as (c & pre & post & H & Hl & _).
  - discriminate.
  - exists c. split; [assumption |]. rewrite Hl. apply in_or_app. right. now left.
Qed.

(** C8 (amended).  For every angle and every non-empty candidate array,
    [snapToNearest] returns a member of the array; that member minimises
    the circular distance [min(|d|, 2π − |d|)] to the normalised angle and
    is the first candidate of the array that does (every earlier candidate
    is strictly farther); and when all candidates lie in [[0, 2π)] and the
    input angle is one of them, the input angle is what is returned. *)
Theorem snapToNearest_nearest_first (alpha : R) (angles : list R) :
  angles <> [] ->
  exists c,
    snapToNearest alpha angles = Some c /\
    In c angles /\
    (forall x, In x angles ->
       circularDistance (normalizeAlpha alpha) c
       <= circularDistance (normalizeAlpha alpha) x) /\
    (exists pre post,
       angles = pre ++ c :: post /\
       forall x, In x pre ->
         circularDistance (normalizeAlpha alpha) c
         < circularDistance (normalizeAlpha alpha) x) /\
    ((forall x, In x angles -> 0 <= x < 2 * PI) -> In alpha angles -> c = alpha).
Proof.
  intros Hne.
  destruct (snapToNearest_first_min alpha angles Hne)
    as (c & pre & post & Hsnap & Hl & Hpre & Hpost).
  assert (Hin : In c angles) by (rewrite Hl; apply in_or_app; right; now left).
  assert (Hmin : forall x, In x angles ->
            angularDiff (normalizeAlpha alpha) c <= angularDiff (normalizeAlpha alpha) x).
  { intros x Hx. rewrite Hl in Hx. apply in_app_or in Hx.
    destruct Hx as [Hx | [Hx | Hx]].
    - left. now apply Hpre.
    - subst x. right. reflexivity.
    - now apply Hpost. }
  exists c. split; [assumption |]. split; [assumption |]. split; [| split].
  - intros x Hx. rewrite <- !angularDiff_circular. now apply Hmin.
  - exists pre, post. split; [assumption |].
    intros x Hx. rewrite <- !angularDiff_circular. now apply Hpre.
  - intros Hrange Halpha.
    pose proof (Hrange alpha Halpha) as Ha.
    pose proof (Hmin alpha Halpha) as Hle.
    rewrite (normalizeAlpha_id alpha Ha) in Hle.
    destruct (angularDiff_in_range alpha c Ha (Hrange c Hin)) as [Hge Hzero].
    apply Hzero.
    assert (angularDiff alpha alpha = 0).
    { unfold angularDiff. replace (alpha - alpha) with 0 by lra. rewrite Rabs_R0.
      pose proof PI_RGT_0. destruct (Rgt_dec 0 PI); lra. }
    lra.
Qed.

Lemma STRAIGHT_ANGLES_range (x : R) : In x STRAIGHT_ANGLES -> 0 <= x < 2 * PI.
Proof.
  pose proof PI_RGT_0. unfold STRAIGHT_ANGLES. simpl.
  intros [<- | [<- | [<- | [<- | []]]]]; lra.
Qed.

Lemma QUADRANT_CENTERS_range (x : R) : In x QUADRANT_CENTERS -> 0 <= x < 2 * PI.
Proof.
  pose proof PI_RGT_0. unfold QUADRANT_CENTERS. simpl.
  intros [<- | [<- | [<- | [<- | []]]]]; lra.
Qed.

(** A quarter turn is itself a straight angle, so snapping it among the
    straight angles returns it. *)
Lemma snapToNearest_nearest_first_witness :
  snapToNearest (PI / 2) STRAIGHT_ANGLES = Some (PI / 2).
Proof.
  destruct (snapToNearest_nearest_first (PI / 2) STRAIGHT_ANGLES)
    as (c & Hsnap & _ & _ & _ & Heq).
  - discriminate.
  - rewrite Hsnap. f_equal. apply Heq.
    + exact STRAIGHT_ANGLES_range.
    + simpl. right. left. reflexivity.
Defined.

(** C8, as stated, fails when a candidate lies outside [[0, 2π)]: the
    angle 0 is a candidate of [[10; 0]], yet the folded difference of 10 is
    [2π − 10 < 0], smaller than the difference 0 of the candidate 0, and 10
    is returned. *)
Lemma snapToNearest_equal_candidate_counterexample :
  In 0 [10; 0] /\ snapToNearest 0 [10; 0] = Some 10 /\ 10 <> 0.
Proof.
  pose proof PI_RGT_0 as Hpos. pose proof PI_4 as H4.
  split; [simpl; auto |]. split; [| lra].
  unfold snapToNearest. rewrite normalizeAlpha_id by lra.
  assert (H10 : angularDiff 0 10 = 2 * PI - 10).
  { unfold angularDiff. replace (0 - 10) with (- (10)) by lra.
    rewrite Rabs_Ropp, Rabs_pos_eq by lra.
    destruct (Rgt_dec 10 PI); lra. }
  assert (H0 : angularDiff 0 0 = 0).
  { unfold angularDiff. replace (0 - 0) with 0 by lra. rewrite Rabs_R0.
    destruct (Rgt_dec 0 PI); lra. }
  simpl. unfold snap_step at 2. simpl.
  unfold snap_step. simpl. rewrite H0, H10.
  destruct (Rlt_dec 0 (2 * PI - 10)); [lra | reflexivity].
Qed.

(** ** Sun-blend factor *)

Lemma sunBlendFactorOf_before (p : R) : p < 0.66 -> sunBlendFactorOf p = 0.
Proof.
  intros Hp. unfold sunBlendFactorOf. destruct (Rge_dec p 0.66); [lra | reflexivity].
Qed.

Lemma sunBlendFactorOf_ramp (p : R) :
  0.66 <= p <= 0.76 -> sunBlendFactorOf p = (p - 0.66) / 0.1.
Proof.
  intros Hp. unfold sunBlendFactorOf. destruct (Rge_dec p 0.66); [| lra].
  apply clamp_inside. lra.
Qed.

Lemma sunBlendFactorOf_after (p : R) : 0.76 <= p -> sunBlendFactorOf p = 1.
Proof.
  intros Hp. unfold sunBlendFactorOf. destruct (Rge_dec p 0.66); [| lra].
  apply clamp_high; lra.
Qed.

Lemma updateSunPathTransition_blendFactor (p : R) (s : State) :
  let s' := updateSunPathTransition p s in
  option_map blendFactor (blendedTextureWhite s')
  = option_map (fun _ => sunBlendFactorOf p) (blendedTextureWhite s) /\
  option_map blendFactor (blendedTextureAccent s')
  = option_map (fun _ => sunBlendFactorOf p) (blendedTextureAccent s) /\
  option_map blendFactor (blendedTextureAccent2 s')
  = option_map (fun _ => sunBlendFactorOf p) (blendedTextureAccent2 s).
Proof.
  unfold updateSunPathTransition.
  destruct (Req_dec_T (sunBlendFactorOf p) 0); simpl;
    destruct (blendedTextureWhite s), (blendedTextureAccent s),
             (blendedTextureAccent2 s); simpl; auto.
Qed.

(** C2 (amended).  For every scroll progress [p], each of the three blended
    textures that exists gets the same blend factor; the factor is 0 below
    the start threshold 0.66, ramps linearly as [(p − 0.66) / 0.1] over the
    span 0.1 and is 1 from 0.76 on; progress 0.60 gives 0, progress 0.68
    gives 0.2 and progress 1.0 gives 1. *)
Theorem sun_blend_factor (p : R) (s : State) :
  (let s' := updateSunPathTransition p s in
   option_map blendFactor (blendedTextureWhite s')
   = option_map (fun _ => sunBlendFactorOf p) (blendedTextureWhite s) /\
   option_map blendFactor (blendedTextureAccent s')
   = option_map (fun _ => sunBlendFactorOf p) (blendedTextureAccent s) /\
   option_map blendFactor (blendedTextureAccent2 s')
   = option_map (fun _ => sunBlendFactorOf p) (blendedTextureAccent2 s)) /\
  (p < 0.66 -> sunBlendFactorOf p = 0) /\
  (0.66 <= p <= 0.76 -> sunBlendFactorOf p = (p - 0.66) / 0.1) /\
  (0.76 <= p -> sunBlendFactorOf p = 1) /\
  sunBlendFactorOf 0.60 = 0 /\
  sunBlendFactorOf 0.68 = 0.2 /\
  sunBlendFactorOf 1.0 = 1.
Proof.
  split; [apply updateSunPathTransition_blendFactor |].
  split; [apply sunBlendFactorOf_before |].
  split; [apply sunBlendFactorOf_ramp |].
  split; [apply sunBlendFactorOf_after |].
  split; [apply sunBlendFactorOf_before; lra |].
  split; [rewrite sunBlendFactorOf_ramp; lra |].
  apply sunBlendFactorOf_after; lra.
Qed.

(** C2, as stated, fails: the ramp spans 0.1, so progress 0.68 gives 0.2
    rather than 0.4, and at 0.71, where a span of 0.05 would end, the
    factor is 0.5. *)
Lemma sun_blend_span_counterexample :
  sunBlendFactorOf 0.68 <> 0.4 /\ sunBlendFactorOf 0.71 <> 1.
Proof.
  split; rewrite sunBlendFactorOf_ramp; lra.
Qed.

(** ** Scroll progress *)

(** C3 (amended).  The quotient by the scrollable distance is not guarded.
    When the scrollable distance is negative, the progress is 0 for a
    scrolled amount that is not negative and [min(s/d, 1) > 0] for a
    negative one; when it is zero, the progress is 1 for a positive scrolled
    amount and 0 for a negative one. *)
Theorem scrollProgress_degenerate (scrolledAmount scrollableDistance : R) :
  scrollableDistance <= 0 ->
  (scrollableDistance < 0 -> 0 <= scrolledAmount ->
   scrollProgressOf scrolledAmount scrollableDistance = Num 0) /\
  (scrollableDistance < 0 -> scrolledAmount < 0 ->
   scrollProgressOf scrolledAmount scrollableDistance
   = Num (Rmin (scrolledAmount / scrollableDistance) 1) /\
   0 < Rmin (scrolledAmount / scrollableDistance) 1) /\
  (scrollableDistance = 0 -> 0 < scrolledAmount ->
   scrollProgressOf scrolledAmount scrollableDistance = Num 1) /\
  (scrollableDistance = 0 -> scrolledAmount < 0 ->
   scrollProgressOf scrolledAmount scrollableDistance = Num 0).
Proof.
  intros Hd. unfold scrollProgressOf. repeat split.
  - intros Hneg Hs. rewrite js_div_nonzero, clamp_ext_Num by lra. f_equal.
    apply clamp_low; [lra |].
    unfold Rdiv. assert (/ scrollableDistance < 0) by now apply Rinv_lt_0_compat.
    nra.
  - rewrite js_div_nonzero, clamp_ext_Num by lra. f_equal.
    assert (0 < scrolledAmount / scrollableDistance).
    { unfold Rdiv. assert (/ scrollableDistance < 0) by now apply Rinv_lt_0_compat.
      nra. }
    unfold clamp. f_equal. unfold Rmax. destruct (Rle_dec _ 0); lra.
  - assert (0 < scrolledAmount / scrollableDistance).
    { unfold Rdiv. assert (/ scrollableDistance < 0) by now apply Rinv_lt_0_compat.
      nra. }
    unfold Rmin. destruct (Rle_dec _ 1); lra.
  - intros -> Hs. unfold js_div. destruct (Req_dec_T 0 0); [| lra].
    destruct (Rlt_dec 0 scrolledAmount); [reflexivity | lra].
  - intros -> Hs. unfold js_div. destruct (Req_dec_T 0 0); [| lra].
    destruct (Rlt_dec 0 scrolledAmount); [lra |].
    destruct (Rlt_dec scrolledAmount 0); [| lra].
    unfold clamp_ext. simpl. f_equal. unfold Rmin. destruct (Rle_dec 0 1); lra.
Qed.

Lemma scrollProgress_degenerate_witness :
  scrollProgressOf 0 (-50) = Num 0.
Proof.
  destruct (scrollProgress_degenerate 0 (-50)) as [H _]; [lra |].
  apply H; lra.
Defined.

(** C3, as stated, fails: a wrapper 500 high in a viewport 1000 high has the
    scrollable distance −500; with its top 600 below the viewport top the
    scrolled amount is −600 and the progress is 1. *)
Lemma scrollProgress_guard_counterexample :
  offsetHeight (mkWrapper 600 500) - 1000 <= 0 /\
  scrollProgress (mkWrapper 600 500) 1000 = Num 1.
Proof.
  split; [simpl; lra |].
  unfold scrollProgress, scrollProgressOf. simpl.
  rewrite js_div_nonzero, clamp_ext_Num by lra. f_equal.
  apply clamp_high; lra.
Qed.

(** ** Time-of-day label *)

Lemma label_ok_all : forallb label_ok (map Z.of_nat (seq 1 40)) = true.
Proof. vm_compute. reflexivity. Qed.

Lemma label_ok_range (v : Z) : (1 <= v <= 40)%Z -> label_ok v = true.
Proof.
  intros Hv. pose proof label_ok_all as Hall.
  rewrite forallb_forall in Hall. apply Hall.
  replace v with (Z.of_nat (Z.to_nat v)) by lia.
  apply in_map. apply in_seq. lia.
Qed.

(** C9 (amended).  For every slider value in 1..40 the label is
    ["Sun path - "] followed by the hour [6 + (value − 1) * (15/39)] rounded
    to the nearest whole hour and printed as 12-hour time with AM or PM;
    this is the specification's formula at [value − 1].  The hour stays
    between 6 and 21; when the title element exists the label becomes its
    text; values 1, 14 and 40 give 6AM, 11AM and 9PM. *)
Theorem sun_path_label (v : Z) :
  (1 <= v <= 40)%Z ->
  let hour := labelHour v in
  let h := Math_round hour in
  (inject_Z h - (1 # 2) <= hour)%Q /\ (hour < inject_Z h + (1 # 2))%Q /\
  (6 <= h <= 21)%Z /\
  sunPathLabel v = ("Sun path - " ++ twelveHour h)%string /\
  sunPathLabel v = specLabel (v - 1) /\
  (forall s old, sunPathTitle s = Some old ->
     sunPathTitle (updateSunPathTitle v s) = Some (sunPathLabel v)) /\
  sunPathLabel 1 = "Sun path - 6AM"%string /\
  sunPathLabel 14 = "Sun path - 11AM"%string /\
  sunPathLabel 40 = "Sun path - 9PM"%string.
Proof.
  intros Hv hour h. pose proof (label_ok_range v Hv) as Hok.
  unfold label_ok in Hok. fold hour in Hok. fold h in Hok.
  repeat rewrite andb_true_iff in Hok.
  destruct Hok as [[[[[Hlo Hhi] H6] H21] Hlabel] Hspec].
  apply Qle_bool_iff in Hlo. apply negb_true_iff in Hhi.
  apply Z.leb_le in H6. apply Z.leb_le in H21.
  apply String.eqb_eq in Hlabel. apply String.eqb_eq in Hspec.
  split; [exact Hlo |]. split.
  { apply Qnot_le_lt. intros Hle. apply Qle_bool_iff in Hle. congruence. }
  split; [lia |]. split; [exact Hlabel |]. split; [exact Hspec |]. split.
  { intros s old Hs. unfold updateSunPathTitle. rewrite Hs. reflexivity. }
  repeat split; vm_compute; reflexivity.
Qed.

Lemma sun_path_label_witness :
  sunPathLabel 14 = ("Sun path - " ++ twelveHour 11)%string.
Proof.
  apply (sun_path_label 14). lia.
Defined.

(** C9, as stated, fails: with the hour taken as [6 + index * (15/39)] the
    slider value 2 would read 7AM, while the program prints 6AM. *)
Lemma sun_path_label_counterexample :
  sunPathLabel 2 = "Sun path - 6AM"%string /\
  specLabel 2 = "Sun path - 7AM"%string /\
  sunPathLabel 2 <> specLabel 2.
Proof.
  split; [vm_compute; reflexivity |]. split; [vm_compute; reflexivity |].
  vm_compute. discriminate.
Qed.

(** ** Wall visibility *)

Lemma forEachWall_group (f : Dir -> Mesh -> Mesh) (w : WallMeshes) (d : Dir) :
  wallGroup d (forEachWall f w) = map (f d) (wallGroup d w).
Proof. destruct d; reflexivity. Qed.

Lemma allEnabled_setEnabled (b : bool) (meshes : list Mesh) :
  allEnabled b (map (setEnabled b) meshes).
Proof.
  unfold allEnabled. induction meshes as [| m l IH]; simpl; constructor; auto.
Qed.

Lemma updateMeshVisibility_group (quadrant : nat) (s : State) (d : Dir) :
  wallGroup d (wallMeshes (updateMeshVisibility quadrant s))
  = map (setEnabled (negb (includes (hideMap quadrant) d))) (wallGroup d (wallMeshes s)).
Proof. unfold updateMeshVisibility. simpl. now rewrite forEachWall_group. Qed.

Lemma hideAllWalls_group (s : State) (d : Dir) :
  wallGroup d (wallMeshes (hideAllWalls s)) = map (setEnabled false) (wallGroup d (wallMeshes s)).
Proof. unfold hideAllWalls. simpl. now rewrite forEachWall_group. Qed.

Lemma showAllWalls_group (s : State) (d : Dir) :
  wallGroup d (wallMeshes (showAllWalls s)) = map (setEnabled true) (wallGroup d (wallMeshes s)).
Proof. unfold showAllWalls. simpl. now rewrite forEachWall_group. Qed.

Lemma hideMap_table (quadrant : nat) (d : Dir) :
  (1 <= quadrant <= 4)%nat ->
  negb (includes (hideMap quadrant) d) = specWallVisible false true quadrant d.
Proof.
  intros Hq.
  destruct quadrant as [| [| [| [| [| q]]]]]; try lia; destruct d; reflexivity.
Qed.

(** C5.  With a camera present, [updateWallVisibilityForMode] returns and
    leaves every mesh of every wall group enabled exactly as the table of
    (isOrthoView, toggle mode, quadrant of the azimuth) says, whatever the
    flags were before, and keeps each group's membership.  The table:
    ortho disables all four groups; perspective with the toggle off enables
    all four; perspective with the toggle on hides west and south in
    quadrant 1 (north and east stay), south and east in 2, east and north
    in 3 (west and south stay), north and west in 4.  The same holds of
    [updateMeshVisibility] for each quadrant. *)
Theorem wall_visibility_table (s : State) (cam : Camera) :
  camera s = Some cam ->
  (exists s',
     updateWallVisibilityForMode s = Returned s' /\
     forall d,
       allEnabled (specWallVisible (isOrthoView s) (isToggleMode s)
                                   (getQuadrant (alpha cam)) d)
                  (wallGroup d (wallMeshes s')) /\
       List.length (wallGroup d (wallMeshes s')) = List.length (wallGroup d (wallMeshes s))) /\
  (forall quadrant d, (1 <= quadrant <= 4)%nat ->
     allEnabled (specWallVisible false true quadrant d)
                (wallGroup d (wallMeshes (updateMeshVisibility quadrant s)))) /\
  (forall toggle quadrant d, specWallVisible true toggle quadrant d = false) /\
  (forall quadrant d, specWallVisible false false quadrant d = true) /\
  map (specWallVisible false true 1) [North; East; West; South] = [true; true; false; false] /\
  map (specWallVisible false true 2) [North; West; South; East] = [true; true; false; false] /\
  map (specWallVisible false true 3) [West; South; East; North] = [true; true; false; false] /\
  map (specWallVisible false true 4) [South; East; North; West] = [true; true; false; false].
Proof.
  intros Hcam. split; [| split; [| repeat split]].
  - unfold updateWallVisibilityForMode. rewrite Hcam.
    destruct (isOrthoView s) eqn:Ho; [| destruct (isToggleMode s) eqn:Ht];
      eexists; (split; [reflexivity |]); intros d.
    + rewrite hideAllWalls_group, length_map. split; [| reflexivity].
      apply allEnabled_setEnabled.
    + rewrite updateMeshVisibility_group, length_map. split; [| reflexivity].
      rewrite <- hideMap_table by apply getQuadrant_range.
      apply allEnabled_setEnabled.
    + rewrite showAllWalls_group, length_map. split; [| reflexivity].
      apply allEnabled_setEnabled.
  - intros quadrant d Hq. rewrite updateMeshVisibility_group.
    rewrite <- hideMap_table by assumption. apply allEnabled_setEnabled.
Qed.

Lemma wall_visibility_table_witness :
  exists s',
    updateWallVisibilityForMode sampleWalls = Returned s' /\
    forall d,
      allEnabled (specWallVisible true false (getQuadrant (PI / 2)) d)
                 (wallGroup d (wallMeshes s')) /\
      List.length (wallGroup d (wallMeshes s')) = List.length (wallGroup d (wallMeshes sampleWalls)).
Proof.
  refine (proj1 (wall_visibility_table sampleWalls _ _)). reflexivity.
Defined.

(** ** What each operation leaves alone *)

Ltac break_match :=
  repeat match goal with
         | |- context [if ?c then _ else _] => destruct c
         | |- context [match ?x with _ => _ end] => destruct x
         end.

Lemma core_updateSunPathTransition (p : R) (s : State) :
  core (updateSunPathTransition p s) = core s /\
  furnitureSets (updateSunPathTransition p s) = furnitureSets s /\
  wallMeshes (updateSunPathTransition p s) = wallMeshes s.
Proof.
  unfold updateSunPathTransition, core.
  destruct (Req_dec_T _ 0); repeat split.
Qed.

Lemma core_updateEntranceParent (s : State) :
  core (updateEntranceParent s) = core s /\
  furnitureSets (updateEntranceParent s) = furnitureSets s /\
  wallMeshes (updateEntranceParent s) = wallMeshes s.
Proof.
  unfold updateEntranceParent, core.
  destruct (camera s) eqn:Hc; destruct (entranceImage s); break_match;
    simpl; rewrite ?Hc; repeat split.
Qed.

Lemma core_updateAccentEmission (b : bool) (s : State) :
  core (updateAccentEmission b s) = core s /\
  furnitureSets (updateAccentEmission b s) = furnitureSets s /\
  wallMeshes (updateAccentEmission b s) = wallMeshes s.
Proof.
  unfold updateAccentEmission, core.
  destruct (accentMaterial s), b, (originalAccentEmissive s); simpl;
    destruct (accent2Material s), (originalAccent2Emissive s); repeat split.
Qed.

Lemma core_sliderInput (v : Z) (s : State) :
  core (sliderInput v s) = core s /\
  furnitureSets (sliderInput v s) = furnitureSets s /\
  wallMeshes (sliderInput v s) = wallMeshes s.
Proof.
  unfold sliderInput, updateSunPathTitle, updateSunTexture, core.
  destruct ((v - 1 <? 0)%Z || (v - 1 >=? sunTextures s)%Z); simpl;
    destruct (sunPathTitle s); repeat split.
Qed.

Lemma core_updateFurnitureFade (p : R) (s : State) :
  core (updateFurnitureFade p s) = core s /\
  wallMeshes (updateFurnitureFade p s) = wallMeshes s.
Proof.
  unfold updateFurnitureFade, core.
  destruct (negb (isToggleMode s)); [repeat split |].
  destruct (currentOption s); repeat split.
Qed.

Lemma core_updateFurnitureVisibility (s : State) :
  core (updateFurnitureVisibility s) = core s /\
  wallMeshes (updateFurnitureVisibility s) = wallMeshes s.
Proof.
  unfold updateFurnitureVisibility, core.
  destruct (negb (isToggleMode s)); repeat split.
Qed.

Lemma core_furnitureLoaded (key : FurnitureKey) (meshes : list Mesh) (s : State) :
  core (furnitureLoaded key meshes s) = core s /\
  wallMeshes (furnitureLoaded key meshes s) = wallMeshes s.
Proof.
  unfold furnitureLoaded. revert s.
  induction meshes as [| m l IH]; intros s; simpl; [split; reflexivity |].
  destruct (IH (storeFurniture key s m)) as [Hc Hw]. rewrite Hc, Hw.
  split; reflexivity.
Qed.

Lemma core_updateWallVisibilityForMode (s : State) (cam : Camera) :
  camera s = Some cam ->
  exists s', updateWallVisibilityForMode s = Returned s' /\
             core s' = core s /\ furnitureSets s' = furnitureSets s.
Proof.
  intros Hcam. unfold updateWallVisibilityForMode. rewrite Hcam.
  destruct (isOrthoView s), (isToggleMode s); eexists; repeat split.
Qed.

Lemma core_categorize (l : list ImportedMesh) (s : State) :
  core (fold_left categorize l s) = core s /\
  furnitureSets (fold_left categorize l s) = furnitureSets s.
Proof.
  revert s. induction l as [| im l IH]; intros s; simpl; [split; reflexivity |].
  destruct (IH (categorize s im)) as [Hc Hf]. rewrite Hc, Hf.
  unfold categorize, core.
  destruct (im_wall im); destruct (im_material im) as [[[] m] |];
    break_match; repeat split.
Qed.

Lemma core_modelLoaded (r : ModelImport) (s : State) :
  core (modelLoaded r s) = core s /\
  furnitureSets (modelLoaded r s) = furnitureSets s.
Proof.
  unfold modelLoaded. destruct (camera s) eqn:Hcam; [| split; reflexivity].
  destruct (core_categorize (im_meshes r) s) as [Hc Hf].
  set (s1 := fold_left categorize (im_meshes r) s) in *.
  match goal with
  | |- context [if ?c then _ else _] => destruct c
  end.
  - match goal with
    | |- context [updateEntranceParent ?s2] =>
        destruct (core_updateEntranceParent s2) as (Hc2 & Hf2 & _);
        rewrite Hc2, Hf2
    end.
    rewrite <- Hc, <- Hf. split; reflexivity.
  - rewrite <- Hc, <- Hf. split; reflexivity.
Qed.

(** ** One frame *)

Lemma transitionProgressOf_bounds (p : R) : 0 <= transitionProgressOf p <= 1.
Proof. unfold transitionProgressOf. apply clamp_bounds. lra. Qed.

Lemma newFovOf_range (p : R) (cam : Camera) :
  FOV_ORTHO <= fov cam <= FOV_PERSPECTIVE ->
  FOV_ORTHO <= newFovOf p cam <= FOV_PERSPECTIVE.
Proof.
  intros H. pose proof (transitionProgressOf_bounds p) as Ht.
  unfold newFovOf, lerp, FOV_ORTHO, FOV_PERSPECTIVE in *. nra.
Qed.

Lemma tan_half_fov_pos (x : R) :
  FOV_ORTHO <= x <= FOV_PERSPECTIVE -> 0 < tan (x / 2).
Proof.
  unfold FOV_ORTHO, FOV_PERSPECTIVE. intros H. pose proof PI2_1.
  apply tan_gt_0; lra.
Qed.

Lemma alphaHandling_Some (tp a last : R) (target : option R) :
  exists newAlpha target',
    alphaHandling tp a last target = Some (newAlpha, target').
Proof.
  unfold alphaHandling.
  destruct (snapToNearest_STRAIGHT a) as (t & Ht & Hin). rewrite Ht.
  destruct (snapToNearest_QUADRANT t) as (q & Hq & _). rewrite Hq.
  destruct (Rlt_dec tp ORTHO_THRESHOLD); [eauto |].
  destruct (Rlt_dec tp TRANSITION_THRESHOLD); [| eauto].
  destruct (Rlt_dec last ORTHO_THRESHOLD); destruct target; simpl; eauto.
Qed.

Lemma idleRotation_spec (p : R) (now : Z) (s : State) :
  let s' := idleRotation p now s in
  camera s' = (if idleNow p now s
               then option_map (fun c => set_alpha (alpha c + IDLE_ROTATION_SPEED) c) (camera s)
               else camera s) /\
  isIdleRotating s' = idleNow p now s /\
  isOrthoView s' = isOrthoView s /\ isToggleMode s' = isToggleMode s /\
  currentFurnitureIndex s' = currentFurnitureIndex s /\
  transitionTargetAlpha s' = transitionTargetAlpha s /\
  lastTransitionProgress s' = lastTransitionProgress s /\
  lastInteractionTime s' = lastInteractionTime s /\
  furnitureSets s' = furnitureSets s /\ wallMeshes s' = wallMeshes s.
Proof.
  unfold idleRotation, idleNow.
  destruct (Rge_dec p 0.33); simpl; [| repeat split].
  destruct (now - lastInteractionTime s >? IDLE_TIMEOUT)%Z; simpl; [| repeat split].
  destruct (isIdleRotating s) eqn:Hi; simpl; rewrite ?Hi; repeat split.
Qed.

Lemma updateFurnitureFade_enabled (p : R) (s : State) (k : FurnitureKey) :
  map enabled (furnitureSet k (furnitureSets (updateFurnitureFade p s)))
  = map enabled (furnitureSet k (furnitureSets s)).
Proof.
  unfold updateFurnitureFade.
  destruct (negb (isToggleMode s)); [reflexivity |].
  destruct (currentOption s) as [key |]; [| reflexivity]. simpl.
  destruct key, k; simpl; try reflexivity; rewrite map_map; apply map_ext;
    intros m; break_match; reflexivity.
Qed.

Lemma updateCameraWith_returns (p : R) (now : Z) (cam : Camera) (s : State) :
  camera s = Some cam -> FOV_ORTHO <= fov cam <= FOV_PERSPECTIVE ->
  exists newAlpha target s',
    alphaHandling (transitionProgressOf p) (alpha cam)
                  (lastTransitionProgress s) (transitionTargetAlpha s)
    = Some (newAlpha, target) /\
    updateCameraWith p now cam s = Returned s' /\
    camera s' =
      Some (let newRadius := APPARENT_SIZE_CONSTANT / tan (newFovOf p cam / 2) in
            mkCamera (if idleNow p now s then newAlpha + IDLE_ROTATION_SPEED else newAlpha)
                     (newBetaOf p cam) newRadius (newFovOf p cam)
                     (newBetaOf p cam) (newBetaOf p cam) newRadius newRadius
                     (Rmax 0.1 (newRadius * 0.01))) /\
    isOrthoView s' = (if Rlt_dec (transitionProgressOf p) 0.1 then true else false) /\
    isToggleMode s' = isToggleMode s /\
    currentFurnitureIndex s' = currentFurnitureIndex s /\
    transitionTargetAlpha s' = target /\
    lastTransitionProgress s' = transitionProgressOf p /\
    lastInteractionTime s' = lastInteractionTime s /\
    isIdleRotating s' = idleNow p now s /\
    (forall k, map enabled (furnitureSet k (furnitureSets s'))
               = map enabled (furnitureSet k (furnitureSets s))).
Proof.
  intros Hcam Hfov.
  destruct (alphaHandling_Some (transitionProgressOf p) (alpha cam)
              (lastTransitionProgress s) (transitionTargetAlpha s))
    as (newAlpha & target & Halpha).
  exists newAlpha, target.
  unfold updateCameraWith. rewrite Halpha.
  fold (newFovOf p cam). fold (newBetaOf p cam).
  pose proof (tan_half_fov_pos _ (newFovOf_range p cam Hfov)) as Htan.
  rewrite js_div_nonzero by lra.
  cbv zeta.
  match goal with
  | |- context [set_isOrthoView ?b ?s0] => set (s1 := set_isOrthoView b s0)
  end.
  match goal with
  | |- context [if ?c then Returned s1 else _] => set (same := c)
  end.
  assert (Hw : exists s2, (if same then Returned s1 else updateWallVisibilityForMode s1)
                          = Returned s2 /\ core s2 = core s1
                          /\ furnitureSets s2 = furnitureSets s1).
  { destruct same; [exists s1; auto |].
    eapply core_updateWallVisibilityForMode. reflexivity. }
  destruct Hw as (s2 & Hret & Hcore & Hfurn). rewrite Hret.
  eexists. split; [reflexivity |]. split; [reflexivity |].
  destruct (idleRotation_spec p now
              (updateFurnitureFade p (updateSunPathTransition p (updateEntranceParent s2))))
    as (Icam & Iidle & Iortho & Itoggle & Iidx & Itarget & Ilast & Itime & Ifurn & _).
  cbv zeta in *.
  destruct (core_updateFurnitureFade p (updateSunPathTransition p (updateEntranceParent s2)))
    as [Fcore _].
  destruct (core_updateSunPathTransition p (updateEntranceParent s2)) as (Score & Sfurn & _).
  destruct (core_updateEntranceParent s2) as (Ecore & Efurn & _).
  assert (Hall : core (updateFurnitureFade p (updateSunPathTransition p (updateEntranceParent s2)))
                 = core s1) by congruence.
  unfold core in Hall. injection Hall as Hc Ho Ht Hi Hta Hl Hti Hid.
  assert (Hidle : idleNow p now (updateFurnitureFade p
                     (updateSunPathTransition p (updateEntranceParent s2)))
                  = idleNow p now s).
  { unfold idleNow. rewrite Hti. reflexivity. }
  rewrite Hidle in *.
  rewrite Icam, Iidle, Iortho, Itoggle, Iidx, Itarget, Ilast, Itime, Ifurn.
  rewrite Hc, Ho, Ht, Hi, Hta, Hl, Hti.
  repeat split.
  - subst s1. simpl. destruct (idleNow p now s); reflexivity.
  - intros k. rewrite updateFurnitureFade_enabled, Sfurn, Efurn, Hfurn. reflexivity.
Qed.

(** ** Runs *)

Lemma run_app (es1 es2 : list Event) (s : State) :
  run s (es1 ++ es2) = match run s es1 with
                       | Some s' => run s' es2
                       | None => None
                       end.
Proof.
  revert s. induction es1 as [| e es IH]; intros s; simpl; [reflexivity |].
  destruct (step s e); [apply IH | reflexivity].
Qed.

Lemma reachable_initial (now : Z) (title : option string) :
  reachable (initialState now title).
Proof. exists now, title, []. reflexivity. Qed.

Lemma reachable_step (s s' : State) (e : Event) :
  reachable s -> step s e = Some s' -> reachable s'.
Proof.
  intros (now & title & es & Hrun) Hstep.
  exists now, title, (es ++ [e]). rewrite run_app, Hrun. simpl. now rewrite Hstep.
Qed.

Lemma reachable_run (s s' : State) (es : list Event) :
  reachable s -> run s es = Some s' -> reachable s'.
Proof.
  revert s. induction es as [| e es IH]; intros s Hs Hrun; simpl in Hrun.
  - now inversion Hrun; subst.
  - destruct (step s e) eqn:He; [| discriminate].
    eapply IH; [| eassumption]. eapply reachable_step; eassumption.
Qed.

Lemma run_invariant (P : State -> Prop) :
  (forall s e s', P s -> step s e = Some s' -> P s') ->
  forall es s s', P s -> run s es = Some s' -> P s'.
Proof.
  intros Hstep es. induction es as [| e es IH]; intros s s' Hs Hrun; simpl in Hrun.
  - now inversion Hrun; subst.
  - destruct (step s e) eqn:He; [| discriminate].
    eapply IH; [| eassumption]. eapply Hstep; eassumption.
Qed.

Lemma reachable_invariant (P : State -> Prop) :
  (forall now title, P (initialState now title)) ->
  (forall s e s', P s -> step s e = Some s' -> P s') ->
  forall s, reachable s -> P s.
Proof.
  intros Hinit Hstep s (now & title & es & Hrun).
  eapply run_invariant; [exact Hstep | apply Hinit | exact Hrun].
Qed.

(** ** Furniture *)

Lemma anyEnabled_app (l1 l2 : list Mesh) :
  anyEnabled (l1 ++ l2) = anyEnabled l1 || anyEnabled l2.
Proof. apply existsb_app. Qed.

Lemma anyEnabled_map_enabled (l1 l2 : list Mesh) :
  map enabled l1 = map enabled l2 -> anyEnabled l1 = anyEnabled l2.
Proof.
  revert l2. induction l1 as [| a l1 IH]; intros [| b l2] H; simpl in *;
    try discriminate; [reflexivity |].
  injection H as Hab Hl. rewrite Hab. f_equal. now apply IH.
Qed.

Lemma anyEnabled_const (b : bool) (f : Mesh -> Mesh) (l : list Mesh) :
  (forall m, enabled (f m) = b) -> anyEnabled (map f l) = true -> b = true.
Proof.
  intros Hf. induction l as [| a l IH]; simpl; [discriminate |].
  rewrite Hf. destruct b; auto.
Qed.

Lemma forEachFurniture_set (f : FurnitureKey -> Mesh -> Mesh) (fs : FurnitureSets)
      (k : FurnitureKey) :
  furnitureSet k (forEachFurniture f fs) = map (f k) (furnitureSet k fs).
Proof. destruct k; reflexivity. Qed.

Lemma isCurrent_true (k : FurnitureKey) (o : option FurnitureKey) :
  isCurrent k o = true -> o = Some k.
Proof. destruct o as [[] |], k; simpl; congruence. Qed.

(** After [updateFurnitureVisibility] a set has an enabled mesh only when
    toggle mode is on and the set is the selected one; with toggle mode on
    every mesh of the selected set is enabled and every other mesh is
    not. *)
Lemma updateFurnitureVisibility_post (s : State) (k : FurnitureKey) :
  (anyEnabled (furnitureSet k (furnitureSets (updateFurnitureVisibility s))) = true ->
   isToggleMode s = true /\ currentOption s = Some k) /\
  (isToggleMode s = true ->
   allEnabled (isCurrent k (currentOption s))
              (furnitureSet k (furnitureSets (updateFurnitureVisibility s)))) /\
  (isToggleMode s = false ->
   allEnabled false (furnitureSet k (furnitureSets (updateFurnitureVisibility s)))).
Proof.
  unfold updateFurnitureVisibility, hideAllFurniture.
  destruct (isToggleMode s); simpl; rewrite forEachFurniture_set.
  - split; [| split; [| discriminate]].
    + intros H. split; [reflexivity |]. apply isCurrent_true.
      eapply anyEnabled_const; [| exact H]. reflexivity.
    + intros _. unfold allEnabled. apply Forall_forall. intros m Hm.
      apply in_map_iff in Hm. destruct Hm as (m0 & <- & _). reflexivity.
  - split; [| split; [discriminate |]].
    + intros H. exfalso.
      assert (false = true); [| discriminate].
      eapply anyEnabled_const; [| exact H]. reflexivity.
    + intros _. unfold allEnabled. apply Forall_forall. intros m Hm.
      apply in_map_iff in Hm. destruct Hm as (m0 & <- & _). reflexivity.
Qed.

Lemma furnitureLoaded_enabled (key : FurnitureKey) (meshes : list Mesh) (s : State)
      (k : FurnitureKey) :
  anyEnabled (furnitureSet k (furnitureSets (furnitureLoaded key meshes s)))
  = anyEnabled (furnitureSet k (furnitureSets s)).
Proof.
  unfold furnitureLoaded. revert s.
  induction meshes as [| m l IH]; intros s; simpl; [reflexivity |].
  rewrite IH. unfold storeFurniture. simpl.
  destruct key, k; simpl; try reflexivity; rewrite anyEnabled_app; simpl;
    now rewrite !orb_false_r.
Qed.

Lemma currentOption_next (s : State) :
  (currentFurnitureIndex s < 4)%nat ->
  currentOption (set_currentFurnitureIndex
                   ((currentFurnitureIndex s + 1) mod List.length FURNITURE_OPTIONS)%nat s)
  = nextOption (currentOption s).
Proof.
  unfold currentOption. simpl currentFurnitureIndex.
  destruct (currentFurnitureIndex s) as [| [| [| [| n]]]]; intros H; try lia; reflexivity.
Qed.

(** ** Toggle mode *)

Lemma toggleMode_returns (s : State) :
  loadInv s ->
  exists s3,
    toggleMode s = Returned (updateFurnitureVisibility s3) /\
    core s3 = core (set_isToggleMode (negb (isToggleMode s)) s) /\
    furnitureSets s3 = furnitureSets s /\
    (isOrthoView s = true ->
     forall d, wallGroup d (wallMeshes s3) = map (setEnabled false) (wallGroup d (wallMeshes s))).
Proof.
  intros Hload. unfold toggleMode. cbv zeta.
  set (s1 := set_isToggleMode (negb (isToggleMode s)) s).
  destruct (core_updateAccentEmission (isToggleMode s1) s1) as (Hc & Hf & Hw).
  set (s2 := updateAccentEmission (isToggleMode s1) s1) in *.
  assert (Hcam : camera s2 = camera s) by (unfold core in Hc; now injection Hc).
  assert (Hortho : isOrthoView s2 = isOrthoView s) by (unfold core in Hc; now injection Hc).
  unfold updateWallVisibilityForMode. rewrite Hortho.
  destruct (isOrthoView s) eqn:Ho.
  - exists (hideAllWalls s2). split; [reflexivity |]. split; [exact Hc |].
    split; [exact Hf |]. intros _ d. rewrite hideAllWalls_group, Hw. reflexivity.
  - destruct (camera s) as [cam |] eqn:Hcs.
    + rewrite Hcam.
      destruct (isToggleMode s2); eexists; (split; [reflexivity |]);
        (split; [exact Hc |]); (split; [exact Hf |]); discriminate.
    + destruct (Hload Hcs) as [Habs _]. congruence.
Qed.

(** ** The invariants hold in every reachable state *)

Lemma currentOption_index (s s' : State) :
  currentFurnitureIndex s' = currentFurnitureIndex s -> currentOption s' = currentOption s.
Proof. unfold currentOption. now intros ->. Qed.

(** A step that keeps the mode variables, the enabled flags of the
    furniture and the camera's field of view and radius keeps the
    invariants. *)
Lemma stateInv_preserved (s s' : State) :
  (forall cam', camera s' = Some cam' ->
     exists cam, camera s = Some cam /\ fov cam' = fov cam /\ radius cam' = radius cam /\
                 lowerRadiusLimit cam' = lowerRadiusLimit cam /\
                 upperRadiusLimit cam' = upperRadiusLimit cam) ->
  (camera s' = None -> camera s = None /\ wallMeshes s' = wallMeshes s) ->
  isOrthoView s' = isOrthoView s ->
  isToggleMode s' = isToggleMode s ->
  currentFurnitureIndex s' = currentFurnitureIndex s ->
  transitionTargetAlpha s' = transitionTargetAlpha s ->
  lastTransitionProgress s' = lastTransitionProgress s ->
  (forall k, anyEnabled (furnitureSet k (furnitureSets s'))
             = anyEnabled (furnitureSet k (furnitureSets s))) ->
  stateInv s -> stateInv s'.
Proof.
  intros Hcam Hnone Ho Ht Hi Hta Hl Hf (Icam & Ifurn & Iload & Itarget).
  split; [| split; [| split]].
  - intros cam' Hc'. destruct (Hcam cam' Hc') as (cam & Hc & Hfov & Hr & Hlo & Hup).
    destruct (Icam cam Hc) as (H1 & H2 & H3 & H4).
    rewrite Hfov, Hr, Hlo, Hup. auto.
  - destruct Ifurn as [Hidx Hen]. split; [now rewrite Hi |].
    intros k Hk. rewrite Hf in Hk. rewrite Ht, (currentOption_index s s' Hi). auto.
  - intros Hc'. destruct (Hnone Hc') as [Hc Hw]. rewrite Ho, Hw. auto.
  - unfold targetInv. rewrite Hta, Hl. exact Itarget.
Qed.

Lemma stateInv_core (s s' : State) :
  core s' = core s ->
  (camera s = None -> wallMeshes s' = wallMeshes s) ->
  (forall k, anyEnabled (furnitureSet k (furnitureSets s'))
             = anyEnabled (furnitureSet k (furnitureSets s))) ->
  stateInv s -> stateInv s'.
Proof.
  intros Hcore Hw Hf. unfold core in Hcore.
  injection Hcore as Hc Ho Ht Hi Hta Hl _ _.
  apply stateInv_preserved; try assumption.
  - intros cam' Hc'. exists cam'. rewrite <- Hc. auto.
  - intros Hn. rewrite Hc in Hn. auto.
Qed.

Lemma stateInv_initial (now : Z) (title : option string) :
  stateInv (initialState now title).
Proof.
  split; [| split; [| split]].
  - intros cam H. discriminate.
  - split; [simpl; lia |]. intros [] H; discriminate.
  - intros _. split; reflexivity.
  - intros _. reflexivity.
Qed.

Lemma stateInv_createSceneSetup (s : State) :
  stateInv s -> stateInv (createSceneSetup s).
Proof.
  intros (Icam & Ifurn & Iload & Itarget). split; [| split; [| split]].
  - intros cam H. unfold createSceneSetup in H. simpl in H. injection H as <-. simpl.
    assert (0 < tan (FOV_ORTHO / 2)).
    { apply tan_half_fov_pos. unfold FOV_ORTHO, FOV_PERSPECTIVE. lra. }
    repeat split; try (unfold FOV_ORTHO, FOV_PERSPECTIVE; lra).
    field. lra.
  - exact Ifurn.
  - intros H. discriminate.
  - exact Itarget.
Qed.

Lemma modelLoaded_no_camera (r : ModelImport) (s : State) :
  camera s = None -> modelLoaded r s = s.
Proof. intros H. unfold modelLoaded. now rewrite H. Qed.

Lemma render_spec (dAlpha : R) (s : State) :
  camera (render dAlpha s)
  = option_map (fun c => set_alpha (alpha c + dAlpha) c) (camera s) /\
  (camera s = None -> render dAlpha s = s) /\
  isOrthoView (render dAlpha s) = isOrthoView s /\
  isToggleMode (render dAlpha s) = isToggleMode s /\
  currentFurnitureIndex (render dAlpha s) = currentFurnitureIndex s /\
  transitionTargetAlpha (render dAlpha s) = transitionTargetAlpha s /\
  lastTransitionProgress (render dAlpha s) = lastTransitionProgress s /\
  lastInteractionTime (render dAlpha s) = lastInteractionTime s /\
  isIdleRotating (render dAlpha s) = isIdleRotating s /\
  furnitureSets (render dAlpha s) = furnitureSets s.
Proof.
  unfold render. destruct (camera s) as [cam |] eqn:Hcam;
    [| simpl; rewrite ?Hcam; repeat split].
  cbv zeta.
  set (s0 := set_camera (Some (set_alpha (alpha cam + dAlpha) cam)) s).
  match goal with
  | |- context [updateEntranceParent ?s2] => set (s3 := s2)
  end.
  assert (H3 : core s3 = core s0 /\ furnitureSets s3 = furnitureSets s0).
  { subst s3. destruct (negb _); [destruct (_ && _) |]; split; reflexivity. }
  destruct H3 as [H3 F3].
  destruct (core_updateEntranceParent s3) as (Hc & Hf & _).
  rewrite H3 in Hc. unfold core in Hc. simpl in Hc.
  injection Hc as Hc Ho Ht Hi Hta Hl Hti Hid.
  rewrite Hc, Ho, Ht, Hi, Hta, Hl, Hti, Hid, Hf, F3.
  repeat split. discriminate.
Qed.

Lemma stateInv_render (dAlpha : R) (s : State) :
  stateInv s -> stateInv (render dAlpha s).
Proof.
  destruct (render_spec dAlpha s)
    as (Hc & Hn & Ho & Ht & Hi & Hta & Hl & _ & _ & Hf).
  apply stateInv_preserved; try assumption.
  - intros cam' Hc'. rewrite Hc in Hc'. destruct (camera s) as [cam |]; [| discriminate].
    injection Hc' as <-. exists cam. auto.
  - intros Hc'. rewrite Hc in Hc'. destruct (camera s) eqn:E; [discriminate |].
    split; [reflexivity |]. now rewrite Hn.
  - intros k. now rewrite Hf.
Qed.

Lemma stateInv_toggle (s s' : State) :
  stateInv s -> step s Pick = Some s' -> stateInv s'.
Proof.
  intros Hinv Hstep. destruct Hinv as (Icam & Ifurn & Iload & Itarget).
  simpl in Hstep. destruct (toggleMode_returns s Iload) as (s3 & Hret & Hcore & Hf & Hw).
  rewrite Hret in Hstep. injection Hstep as <-.
  destruct (core_updateFurnitureVisibility s3) as [Hcv Hwv].
  rewrite Hcore in Hcv. unfold core in Hcv. simpl in Hcv.
  injection Hcv as Hc Ho Ht Hi Hta Hl _ _.
  split; [| split; [| split]].
  - intros cam Hcam. rewrite Hc in Hcam. auto.
  - split; [rewrite Hi; apply Ifurn |].
    intros k Hk. destruct (updateFurnitureVisibility_post s3 k) as [Hpost _].
    destruct (Hpost Hk) as [Hon Hopt].
    unfold core in Hcore. simpl in Hcore. injection Hcore as _ _ Ht3 Hi3 _ _ _ _.
    rewrite Ht, <- Ht3, Hon. split; [reflexivity |].
    rewrite <- Hopt. apply currentOption_index. congruence.
  - intros Hnone. rewrite Hc in Hnone. destruct (Iload Hnone) as [Hortho Hwalls].
    split; [congruence |]. rewrite Hwv.
    specialize (Hw Hortho).
    pose proof (Hw North) as HN. pose proof (Hw South) as HS.
    pose proof (Hw East) as HE. pose proof (Hw West) as HW.
    rewrite Hwalls in HN, HS, HE, HW. simpl in *.
    destruct (wallMeshes s3). simpl in *. congruence.
  - unfold targetInv. rewrite Hta, Hl. exact Itarget.
Qed.

Lemma stateInv_cycle (s : State) : stateInv s -> stateInv (cycleFurniture s).
Proof.
  intros (Icam & Ifurn & Iload & Itarget). unfold cycleFurniture. cbv zeta.
  set (s1 := set_currentFurnitureIndex _ s).
  destruct (core_updateFurnitureVisibility s1) as [Hcv Hwv].
  unfold core in Hcv. injection Hcv as Hc Ho Ht Hi Hta Hl _ _.
  split; [| split; [| split]].
  - intros cam Hcam. rewrite Hc in Hcam. exact (Icam cam Hcam).
  - split.
    + rewrite Hi. destruct Ifurn as [Hlt _].
      destruct (currentFurnitureIndex s) as [| [| [| [| n]]]]; simpl; lia.
    + intros k Hk. destruct (updateFurnitureVisibility_post s1 k) as [Hpost _].
      destruct (Hpost Hk) as [Hon Hopt]. rewrite Ht. split; [exact Hon |].
      rewrite <- Hopt. apply currentOption_index. exact Hi.
  - intros Hnone. rewrite Hc in Hnone. rewrite Ho, Hwv. exact (Iload Hnone).
  - unfold targetInv. rewrite Hta, Hl. exact Itarget.
Qed.

Lemma alphaHandling_ortho (tp a last newAlpha : R) (target target' : option R) :
  tp < ORTHO_THRESHOLD ->
  alphaHandling tp a last target = Some (newAlpha, target') ->
  target' = None /\
  exists straight, snapToNearest a STRAIGHT_ANGLES = Some straight /\
                   newAlpha = lerp a straight 0.08.
Proof.
  intros Htp. unfold alphaHandling.
  destruct (Rlt_dec tp ORTHO_THRESHOLD); [| contradiction].
  destruct (snapToNearest a STRAIGHT_ANGLES) as [t |]; [| discriminate].
  intros H. injection H as <- <-. split; [reflexivity |]. exists t. auto.
Qed.

Lemma frame_cases (env : Env) (s s' : State) :
  cameraInv s -> step s (Frame env) = Some s' ->
  (s' = s /\ (camera s = None \/ wrapper env = None)) \/
  exists cam w p,
    camera s = Some cam /\ wrapper env = Some w /\
    scrollProgress w (innerHeight env) = Num p /\
    updateCameraWith p (Date_now env) cam s = Returned s'.
Proof.
  intros Icam Hstep. simpl in Hstep. unfold updateCameraFromScroll in Hstep.
  destruct (camera s) as [cam |] eqn:Hcam.
  - destruct (wrapper env) as [w |] eqn:Hw.
    + destruct (scrollProgress w (innerHeight env)) as [p | | |] eqn:Hp;
        try discriminate.
      destruct (Icam cam Hcam) as [Hfov _].
      destruct (updateCameraWith_returns p (Date_now env) cam s Hcam Hfov)
        as (a & t & s2 & _ & Hret & _).
      rewrite Hret in Hstep. injection Hstep as <-.
      right. exists cam, w, p. auto.
    + left. injection Hstep as <-. auto.
  - left. injection Hstep as <-. auto.
Qed.

Lemma stateInv_updateCameraWith (p : R) (now : Z) (cam : Camera) (s s' : State) :
  stateInv s -> camera s = Some cam ->
  updateCameraWith p now cam s = Returned s' -> stateInv s'.
Proof.
  intros (Icam & Ifurn & Iload & Itarget) Hcam Hret.
  destruct (Icam cam Hcam) as [Hfov _].
  destruct (updateCameraWith_returns p now cam s Hcam Hfov)
    as (a & t & s2 & Halpha & Hret2 & Hc & Ho & Ht & Hi & Hta & Hl & _ & _ & Hf).
  rewrite Hret in Hret2. injection Hret2 as <-.
  pose proof (newFovOf_range p cam Hfov) as Hnew.
  pose proof (tan_half_fov_pos _ Hnew) as Htan.
  split; [| split; [| split]].
  - intros cam' Hc'. rewrite Hc in Hc'. injection Hc' as <-. simpl.
    repeat split; try lra. field. lra.
  - destruct Ifurn as [Hidx Hen]. split; [now rewrite Hi |].
    intros k Hk. rewrite (anyEnabled_map_enabled _ _ (Hf k)) in Hk.
    rewrite Ht, (currentOption_index s s' Hi). auto.
  - intros Hnone. rewrite Hc in Hnone. discriminate.
  - unfold targetInv. rewrite Hta, Hl. intros Htp.
    eapply alphaHandling_ortho; eassumption.
Qed.

Lemma stateInv_step (s s' : State) (e : Event) :
  stateInv s -> step s e = Some s' -> stateInv s'.
Proof.
  intros Hinv Hstep. destruct e.
  - injection Hstep as <-. now apply stateInv_createSceneSetup.
  - injection Hstep as <-. destruct (core_modelLoaded r s) as [Hc Hf].
    apply (stateInv_core s); try assumption.
    + intros Hn. now rewrite modelLoaded_no_camera.
    + intros k. now rewrite Hf.
  - injection Hstep as <-. destruct (core_furnitureLoaded key meshes s) as [Hc Hw].
    apply (stateInv_core s); try assumption.
    + intros _. exact Hw.
    + intros k. apply furnitureLoaded_enabled.
  - destruct (frame_cases env s s' (proj1 Hinv) Hstep)
      as [[-> _] | (cam & w & p & Hcam & _ & _ & Hret)]; [assumption |].
    eapply stateInv_updateCameraWith; eassumption.
  - injection Hstep as <-. now apply stateInv_render.
  - injection Hstep as <-. apply (stateInv_preserved s); try assumption; try reflexivity.
    + intros cam' Hc'. exists cam'. auto.
    + intros Hn. auto.
  - eapply stateInv_toggle; eassumption.
  - injection Hstep as <-. now apply stateInv_cycle.
  - injection Hstep as <-. destruct (core_sliderInput value s) as (Hc & Hf & Hw).
    apply (stateInv_core s); try assumption.
    + intros _. exact Hw.
    + intros k. now rewrite Hf.
Qed.

Lemma reachable_stateInv (s : State) : reachable s -> stateInv s.
Proof.
  apply reachable_invariant; [apply stateInv_initial |].
  intros s0 e s' H Hs. exact (stateInv_step s0 s' e H Hs).
Qed.

(** ** Load-phase safety *)

Lemma walls_ext (w1 w2 : WallMeshes) :
  (forall d, wallGroup d w1 = wallGroup d w2) -> w1 = w2.
Proof.
  intros H. destruct w1, w2.
  pose proof (H North). pose proof (H South). pose proof (H East). pose proof (H West).
  simpl in *. congruence.
Qed.

(** C10.  In every reachable state a null camera implies the ortho view.
    Hence, while the camera is null, [updateWallVisibilityForMode] takes
    the hide-all-walls branch and never reads [camera.alpha]; [toggleMode]
    returns without an exception, flips the toggle, leaves the camera null
    and the view ortho, and its wall update is the hide-all-walls one, which
    changes nothing since no wall is registered yet.  In fact
    [toggleMode] throws in no reachable state. *)
Theorem load_phase_safety (s : State) :
  reachable s ->
  (camera s = None -> isOrthoView s = true) /\
  (camera s = None ->
   updateWallVisibilityForMode s = Returned (hideAllWalls s)) /\
  (camera s = None ->
   exists s', toggleMode s = Returned s' /\
              isToggleMode s' = negb (isToggleMode s) /\
              camera s' = None /\ isOrthoView s' = true /\
              wallMeshes s' = wallMeshes (hideAllWalls s) /\
              wallMeshes s' = wallMeshes s) /\
  (exists s', toggleMode s = Returned s').
Proof.
  intros Hreach. destruct (reachable_stateInv s Hreach) as (_ & _ & Iload & _).
  split; [intros Hn; apply (Iload Hn) |]. split; [| split].
  - intros Hn. destruct (Iload Hn) as [Ho _].
    unfold updateWallVisibilityForMode. now rewrite Ho.
  - intros Hn. destruct (Iload Hn) as [Ho Hw].
    destruct (toggleMode_returns s Iload) as (s3 & Hret & Hcore & _ & Hwalls).
    exists (updateFurnitureVisibility s3). split; [exact Hret |].
    destruct (core_updateFurnitureVisibility s3) as [Hcv Hwv].
    rewrite Hcore in Hcv. unfold core in Hcv.
    injection Hcv as Hc Hov Ht _ _ _ _ _.
    split; [exact Ht |]. split; [congruence |]. split; [congruence |].
    assert (Hhide : wallMeshes (updateFurnitureVisibility s3) = wallMeshes (hideAllWalls s)).
    { rewrite Hwv. apply walls_ext. intros d.
      rewrite (Hwalls Ho d), hideAllWalls_group. reflexivity. }
    split; [exact Hhide |]. rewrite Hhide. unfold hideAllWalls. simpl.
    rewrite Hw. reflexivity.
  - destruct (toggleMode_returns s Iload) as (s3 & Hret & _). eauto.
Qed.

Lemma load_phase_safety_witness :
  isOrthoView (initialState 0 None) = true.
Proof.
  apply (load_phase_safety (initialState 0 None)).
  - apply reachable_initial.
  - reflexivity.
Defined.

(** ** Furniture mutual exclusion *)

Lemma anyEnabled_false (meshes : list Mesh) :
  anyEnabled meshes = false -> allEnabled false meshes.
Proof.
  unfold anyEnabled, allEnabled. induction meshes as [| m l IH]; simpl; intros H.
  - constructor.
  - apply orb_false_iff in H. destruct H as [Hm Hl]. constructor; auto.
Qed.

(** C7.  In every reachable state (the load state and whatever cycle,
    toggle and other events follow it) at most one furniture set has an
    enabled mesh, and with toggle mode off no furniture mesh is enabled.
    The index stays below four; [cycleFurniture] moves it to the next one
    modulo four, so the selection goes furniture1, furniture2, furniture3,
    none and back, and with toggle mode on leaves exactly the meshes of the
    new selection enabled.  [toggleMode] flips the toggle, keeps the
    selection and leaves enabled exactly the meshes of the selection when
    the toggle is then on, and none when it is off. *)
Theorem furniture_mutual_exclusion (s : State) :
  reachable s ->
  (forall k1 k2,
     anyEnabled (furnitureSet k1 (furnitureSets s)) = true ->
     anyEnabled (furnitureSet k2 (furnitureSets s)) = true -> k1 = k2) /\
  (isToggleMode s = false ->
   forall k, allEnabled false (furnitureSet k (furnitureSets s))) /\
  (currentFurnitureIndex s < 4)%nat /\
  currentFurnitureIndex (cycleFurniture s) = ((currentFurnitureIndex s + 1) mod 4)%nat /\
  currentOption (cycleFurniture s) = nextOption (currentOption s) /\
  (forall k,
     allEnabled (isToggleMode s && isCurrent k (currentOption (cycleFurniture s)))
                (furnitureSet k (furnitureSets (cycleFurniture s)))) /\
  (exists s',
     toggleMode s = Returned s' /\
     isToggleMode s' = negb (isToggleMode s) /\
     currentOption s' = currentOption s /\
     forall k,
       allEnabled (isToggleMode s' && isCurrent k (currentOption s'))
                  (furnitureSet k (furnitureSets s'))).
Proof.
  intros Hreach.
  destruct (reachable_stateInv s Hreach) as (_ & [Hidx Hen] & Iload & _).
  split; [| split; [| split; [exact Hidx | split; [| split; [| split]]]]].
  - intros k1 k2 H1 H2. destruct (Hen k1 H1) as [_ E1]. destruct (Hen k2 H2) as [_ E2].
    congruence.
  - intros Hoff k. apply anyEnabled_false.
    destruct (anyEnabled _) eqn:E; [| reflexivity].
    destruct (Hen k E) as [Hon _]. congruence.
  - unfold cycleFurniture. cbv zeta.
    destruct (core_updateFurnitureVisibility
                (set_currentFurnitureIndex
                   ((currentFurnitureIndex s + 1) mod List.length FURNITURE_OPTIONS)%nat s))
      as [Hcv _].
    unfold core in Hcv. apply (f_equal (fun c => snd (fst (fst (fst (fst c)))))) in Hcv.
    exact Hcv.
  - unfold cycleFurniture. cbv zeta.
    set (s1 := set_currentFurnitureIndex _ s).
    destruct (core_updateFurnitureVisibility s1) as [Hcv _].
    unfold core in Hcv. apply (f_equal (fun c => snd (fst (fst (fst (fst c)))))) in Hcv.
    rewrite (currentOption_index s1 _ Hcv). apply currentOption_next. exact Hidx.
  - intros k. unfold cycleFurniture. cbv zeta.
    set (s1 := set_currentFurnitureIndex _ s).
    destruct (core_updateFurnitureVisibility s1) as [Hcv _].
    unfold core in Hcv. apply (f_equal (fun c => snd (fst (fst (fst (fst c)))))) in Hcv.
    rewrite (currentOption_index s1 _ Hcv).
    destruct (updateFurnitureVisibility_post s1 k) as (_ & Hon & Hoff).
    change (isToggleMode s1) with (isToggleMode s) in *.
    destruct (isToggleMode s); simpl; auto.
  - destruct (toggleMode_returns s Iload) as (s3 & Hret & Hcore & _).
    exists (updateFurnitureVisibility s3). split; [exact Hret |].
    destruct (core_updateFurnitureVisibility s3) as [Hcv _].
    unfold core in Hcore, Hcv.
    injection Hcore as _ _ Ht3 Hi3 _ _ _ _.
    injection Hcv as _ _ Ht Hi _ _ _ _.
    split; [congruence |]. split.
    + rewrite <- (currentOption_index s s3 Hi3). apply currentOption_index. exact Hi.
    + intros k. rewrite (currentOption_index s3 _ Hi), Ht.
      destruct (updateFurnitureVisibility_post s3 k) as (_ & Hon & Hoff).
      destruct (isToggleMode s3); simpl; auto.
Qed.

Ltac run_eval := lazy -[tan PI Rplus Rmult Rdiv Rinv Rminus Ropp IZR getQuadrant].

Lemma furniture_mutual_exclusion_witness :
  exists s,
    run (initialState 0 None) sampleEvents = Some s /\
    currentOption s = Some Furniture2 /\
    forall k1 k2,
      anyEnabled (furnitureSet k1 (furnitureSets s)) = true ->
      anyEnabled (furnitureSet k2 (furnitureSets s)) = true -> k1 = k2.
Proof.
  eexists. split; [run_eval; reflexivity |]. split; [run_eval; reflexivity |].
  refine (proj1 (furniture_mutual_exclusion _ _)).
  exists 0%Z, None, sampleEvents. run_eval. reflexivity.
Defined.

(** ** Frames in reachable states *)

Lemma updateCameraFromScroll_progress (env : Env) (s : State) (cam : Camera)
      (w : Wrapper) (p : R) :
  camera s = Some cam -> wrapper env = Some w ->
  scrollProgress w (innerHeight env) = Num p ->
  updateCameraFromScroll env s = updateCameraWith p (Date_now env) cam s.
Proof.
  intros Hc Hw Hp. unfold updateCameraFromScroll. now rewrite Hc, Hw, Hp.
Qed.

Lemma sampleEnv_progress (scrolled : R) (now : Z) :
  0 <= scrolled <= 1000 ->
  scrollProgress (mkWrapper (- scrolled) 2000) (innerHeight (sampleEnv scrolled now))
  = Num (scrolled / 1000).
Proof.
  intros H. unfold scrollProgress, scrollProgressOf. simpl.
  rewrite js_div_nonzero, clamp_ext_Num by lra. f_equal.
  replace (- - scrolled / (2000 - 1000)) with (scrolled / 1000) by (field; lra).
  apply clamp_inside. lra.
Qed.

Lemma sampleScene_reachable : reachable sampleScene.
Proof. exists 0%Z, None, [SceneSetup]. reflexivity. Qed.

Lemma transitionProgressOf_one (p : R) : 0.33 <= p -> transitionProgressOf p = 1.
Proof.
  intros Hp. unfold transitionProgressOf. apply clamp_high; [lra |].
  apply (Rmult_le_reg_r 0.33); [lra |]. unfold Rdiv.
  rewrite Rmult_assoc, Rinv_l by lra. lra.
Qed.


Lemma alphaHandling_perspective (tp a last : R) (target : option R) :
  1 <= tp -> alphaHandling tp a last target = Some (a, None).
Proof.
  intros Htp. unfold alphaHandling, ORTHO_THRESHOLD, TRANSITION_THRESHOLD.
  destruct (Rlt_dec tp 0.1); [lra |]. destruct (Rlt_dec tp 1.0); [lra |]. reflexivity.
Qed.



(** A frame in a reachable state with a camera, a wrapper and a progress
    that is a number returns, with the pose of [updateCameraWith]. *)
Lemma frame_returns (s : State) (cam : Camera) (env : Env) (w : Wrapper) (p : R) :
  reachable s -> camera s = Some cam -> wrapper env = Some w ->
  scrollProgress w (innerHeight env) = Num p ->
  exists newAlpha target s' cam',
    alphaHandling (transitionProgressOf p) (alpha cam)
                  (lastTransitionProgress s) (transitionTargetAlpha s)
    = Some (newAlpha, target) /\
    updateCameraFromScroll env s = Returned s' /\
    camera s' = Some cam' /\
    alpha cam' = (if idleNow p (Date_now env) s
                  then newAlpha + IDLE_ROTATION_SPEED else newAlpha) /\
    fov cam' = newFovOf p cam /\
    radius cam' = APPARENT_SIZE_CONSTANT / tan (newFovOf p cam / 2) /\
    transitionTargetAlpha s' = target /\
    lastTransitionProgress s' = transitionProgressOf p /\
    lastInteractionTime s' = lastInteractionTime s /\
    isIdleRotating s' = idleNow p (Date_now env) s /\
    reachable s'.
Proof.
  intros Hreach Hcam Hw Hp.
  destruct (reachable_stateInv s Hreach) as (Icam & _).
  destruct (Icam cam Hcam) as [Hfov _].
  destruct (updateCameraWith_returns p (Date_now env) cam s Hcam Hfov)
    as (a & t & s' & Halpha & Hret & Hc & _ & _ & _ & Hta & Hl & Hti & Hid & _).
  exists a, t, s'. eexists. split; [exact Halpha |].
  rewrite (updateCameraFromScroll_progress env s cam w p Hcam Hw Hp).
  split; [exact Hret |]. split; [exact Hc |]. simpl.
  repeat split; try assumption.
  apply (reachable_step s s' (Frame env) Hreach). simpl.
  rewrite (updateCameraFromScroll_progress env s cam w p Hcam Hw Hp), Hret. reflexivity.
Qed.

(** ** Apparent size *)

(** C4.  The invariant is lost on one frame.  The scene after setup is
    reachable and its camera has radius times [tan(fov/2)] equal to the
    constant [k].  On a frame that finds the wrapper exactly as high as
    the viewport with its top at the viewport top, the scrolled amount and
    the scrollable distance are both 0, the progress is 0/0, not a number,
    and the update, which has no guard, goes on to compute the field of
    view and the radius from it: the camera numbers stop being numbers and
    the model has no state to follow the frame with. *)
Theorem apparent_size_lost_at_nan_progress :
  reachable sampleScene /\ camera sampleScene = Some sampleCamera /\
  radius sampleCamera * tan (fov sampleCamera / 2) = APPARENT_SIZE_CONSTANT /\
  scrolledAmountOf (mkWrapper 0 1000) = 0 /\
  scrollableDistanceOf (mkWrapper 0 1000) 1000 = 0 /\
  scrollProgress (mkWrapper 0 1000) 1000 = NaN /\
  updateCameraFromScroll nanEnv sampleScene = NonFinite /\
  step sampleScene (Frame nanEnv) = None.
Proof.
  assert (Hcam : camera sampleScene = Some sampleCamera) by reflexivity.
  assert (Hp : scrollProgress (mkWrapper 0 1000) 1000 = NaN).
  { unfold scrollProgress, scrollProgressOf, js_div. cbn [rect_top offsetHeight].
    destruct (Req_dec_T (1000 - 1000) 0); [| lra].
    destruct (Rlt_dec 0 (- 0)); [lra |].
    destruct (Rlt_dec (- 0) 0); [lra |]. reflexivity. }
  assert (Hret : updateCameraFromScroll nanEnv sampleScene = NonFinite).
  { unfold updateCameraFromScroll. rewrite Hcam.
    unfold nanEnv. cbn [wrapper innerHeight]. rewrite Hp. reflexivity. }
  split; [exact sampleScene_reachable |]. split; [exact Hcam |].
  split.
  { destruct (reachable_stateInv sampleScene sampleScene_reachable) as (Icam & _).
    destruct (Icam sampleCamera Hcam) as (_ & Hk & _). exact Hk. }
  split; [unfold scrolledAmountOf; cbn [rect_top]; lra |].
  split; [unfold scrollableDistanceOf; cbn [offsetHeight]; lra |].
  split; [exact Hp |]. split; [exact Hret |].
  cbn [step]. rewrite Hret. reflexivity.
Qed.

(** ** Idle rotation *)

Lemma idleNow_true (p : R) (now : Z) (s : State) :
  0.33 <= p -> (now - lastInteractionTime s > IDLE_TIMEOUT)%Z -> idleNow p now s = true.
Proof.
  intros Hp Ht. unfold idleNow. destruct (Rge_dec p 0.33); [| lra].
  simpl. apply Z.gtb_lt. lia.
Qed.

Lemma idleNow_recent (p : R) (now : Z) (s : State) :
  (now - lastInteractionTime s <= IDLE_TIMEOUT)%Z -> idleNow p now s = false.
Proof.
  intros Ht. unfold idleNow.
  replace (now - lastInteractionTime s >? IDLE_TIMEOUT)%Z with false.
  - apply andb_false_r.
  - symmetry. rewrite Z.gtb_ltb. apply Z.ltb_ge. exact Ht.
Qed.

Lemma idleNow_early (p : R) (now : Z) (s : State) : p < 0.33 -> idleNow p now s = false.
Proof.
  intros Hp. unfold idleNow. destruct (Rge_dec p 0.33); [lra | reflexivity].
Qed.

(** What one frame does about idle rotation. *)
Lemma idle_frame (s : State) (cam : Camera) (env : Env) (w : Wrapper) (p : R) :
  reachable s -> camera s = Some cam -> wrapper env = Some w ->
  scrollProgress w (innerHeight env) = Num p ->
  exists s' cam',
    updateCameraFromScroll env s = Returned s' /\ camera s' = Some cam' /\
    reachable s' /\
    lastInteractionTime s' = lastInteractionTime s /\
    (0.33 <= p -> (Date_now env - lastInteractionTime s > IDLE_TIMEOUT)%Z ->
     alpha cam' = alpha cam + IDLE_ROTATION_SPEED /\ isIdleRotating s' = true) /\
    (0.33 <= p -> (Date_now env - lastInteractionTime s <= IDLE_TIMEOUT)%Z ->
     alpha cam' = alpha cam /\ isIdleRotating s' = false) /\
    (p < 0.33 ->
     isIdleRotating s' = false /\
     exists target,
       alphaHandling (transitionProgressOf p) (alpha cam)
                     (lastTransitionProgress s) (transitionTargetAlpha s)
       = Some (alpha cam', target)).
Proof.
  intros Hreach Hcam Hw Hp.
  destruct (frame_returns s cam env w p Hreach Hcam Hw Hp)
    as (a & t & s' & cam' & Halpha & Hret & Hc' & Ha' & _ & _ & _ & _ & Hti & Hid & Hr').
  exists s', cam'. repeat split; try assumption.
  - rewrite Ha', idleNow_true by assumption.
    rewrite transitionProgressOf_one, alphaHandling_perspective in Halpha by lra.
    injection Halpha as <- _. reflexivity.
  - rewrite Hid. now apply idleNow_true.
  - rewrite Ha', idleNow_recent by assumption.
    rewrite transitionProgressOf_one, alphaHandling_perspective in Halpha by lra.
    injection Halpha as <- _. reflexivity.
  - rewrite Hid. now apply idleNow_recent.
  - rewrite Hid. now apply idleNow_early.
  - exists t. rewrite Ha', idleNow_early by assumption. exact Halpha.
Qed.

Lemma idle_frames (es : list Event) (s : State) (cam : Camera) :
  reachable s -> camera s = Some cam ->
  Forall (idleEvent (lastInteractionTime s)) es ->
  exists s' cam',
    run s es = Some s' /\ camera s' = Some cam' /\
    alpha cam' = alpha cam + INR (List.length (filter isFrame es)) * IDLE_ROTATION_SPEED.
Proof.
  revert s cam. induction es as [| e es IH]; intros s cam Hreach Hcam Hall.
  - exists s, cam. simpl. repeat split; auto. lra.
  - inversion Hall as [| e0 es0 He Hes]; subst.
    destruct He as [(env & w & p & -> & Hw & Hp & Hge & Hidle) | ->].
    + destruct (idle_frame s cam env w p Hreach Hcam Hw Hp)
        as (s1 & cam1 & Hret & Hc1 & Hr1 & Hti & Hinc & _).
      destruct (Hinc Hge Hidle) as [Ha1 _].
      rewrite <- Hti in Hes.
      destruct (IH s1 cam1 Hr1 Hc1 Hes) as (s' & cam' & Hrun & Hc' & Ha').
      exists s', cam'. split; [| split; [exact Hc' |]].
      * simpl. rewrite Hret. exact Hrun.
      * rewrite Ha', Ha1.
        change (List.length (filter isFrame (Frame env :: es)))
          with (S (List.length (filter isFrame es))).
        rewrite S_INR. lra.
    + destruct (render_spec 0 s) as (Hc1 & _ & _ & _ & _ & _ & _ & Hti & _).
      rewrite Hcam in Hc1. simpl in Hc1.
      assert (Hr1 : reachable (render 0 s)).
      { apply (reachable_step s _ (Render 0) Hreach). reflexivity. }
      rewrite <- Hti in Hes.
      destruct (IH (render 0 s) _ Hr1 Hc1 Hes) as (s' & cam' & Hrun & Hc' & Ha').
      exists s', cam'. split; [exact Hrun |]. split; [exact Hc' |].
      rewrite Ha'. simpl. lra.
Qed.

(** C6.  In a reachable state with a camera, a frame whose progress is a
    number and at least 0.33, checked more than 10000 ms after the last
    interaction, adds 0.0005 rad to the azimuth and sets the idle flag;
    [n] such frames in a row, with renders in which no input moves the
    azimuth between them, add [n * 0.0005].  After an interaction event
    at time [t], a frame checked no later than [t + 10000] adds nothing and
    clears the flag.  A frame with progress below 0.33 clears the flag and
    leaves the azimuth as the camera regime set it. *)
Theorem idle_rotation (s : State) (cam : Camera) :
  reachable s -> camera s = Some cam ->
  IDLE_TIMEOUT = 10000%Z /\ IDLE_ROTATION_SPEED = 0.0005 /\
  (forall env w p,
     wrapper env = Some w -> scrollProgress w (innerHeight env) = Num p ->
     exists s' cam',
       updateCameraFromScroll env s = Returned s' /\ camera s' = Some cam' /\
       (0.33 <= p -> (Date_now env - lastInteractionTime s > IDLE_TIMEOUT)%Z ->
        alpha cam' = alpha cam + IDLE_ROTATION_SPEED /\ isIdleRotating s' = true) /\
       (0.33 <= p -> (Date_now env - lastInteractionTime s <= IDLE_TIMEOUT)%Z ->
        alpha cam' = alpha cam /\ isIdleRotating s' = false) /\
       (p < 0.33 ->
        isIdleRotating s' = false /\
        exists target,
          alphaHandling (transitionProgressOf p) (alpha cam)
                        (lastTransitionProgress s) (transitionTargetAlpha s)
          = Some (alpha cam', target))) /\
  (forall es,
     Forall (idleEvent (lastInteractionTime s)) es ->
     exists s' cam',
       run s es = Some s' /\ camera s' = Some cam' /\
       alpha cam' = alpha cam
                    + INR (List.length (filter isFrame es)) * IDLE_ROTATION_SPEED) /\
  (forall t env w p,
     wrapper env = Some w -> scrollProgress w (innerHeight env) = Num p ->
     (Date_now env - t <= IDLE_TIMEOUT)%Z ->
     exists s1 s' cam',
       step s (Interaction t) = Some s1 /\ lastInteractionTime s1 = t /\
       updateCameraFromScroll env s1 = Returned s' /\ camera s' = Some cam' /\
       isIdleRotating s' = false /\
       (0.33 <= p -> alpha cam' = alpha cam) /\
       (p < 0.33 ->
        exists target,
          alphaHandling (transitionProgressOf p) (alpha cam)
                        (lastTransitionProgress s) (transitionTargetAlpha s)
          = Some (alpha cam', target))).
Proof.
  intros Hreach Hcam. split; [reflexivity |]. split; [reflexivity |].
  split; [| split].
  - intros env w p Hw Hp.
    destruct (idle_frame s cam env w p Hreach Hcam Hw Hp)
      as (s' & cam' & Hret & Hc' & _ & _ & H1 & H2 & H3).
    exists s', cam'. auto.
  - intros es Hes. now apply idle_frames.
  - intros t env w p Hw Hp Ht.
    assert (Hr1 : reachable (resetIdleTimer t s)).
    { apply (reachable_step s _ (Interaction t) Hreach). reflexivity. }
    destruct (idle_frame (resetIdleTimer t s) cam env w p Hr1 Hcam Hw Hp)
      as (s' & cam' & Hret & Hc' & _ & _ & _ & H2 & H3).
    exists (resetIdleTimer t s), s', cam'.
    split; [reflexivity |]. split; [reflexivity |].
    split; [exact Hret |]. split; [exact Hc' |]. split.
    + destruct (Rlt_dec p 0.33) as [Hlt | Hge].
      * apply (H3 Hlt).
      * apply H2; [lra | exact Ht].
    + split.
      * intros Hge. apply H2; [exact Hge | exact Ht].
      * intros Hlt. apply (H3 Hlt).
Qed.

Lemma idle_rotation_witness :
  exists s' cam',
    updateCameraFromScroll (sampleEnv 500 20000) sampleScene = Returned s' /\
    camera s' = Some cam' /\
    alpha cam' = alpha sampleCamera + IDLE_ROTATION_SPEED /\ isIdleRotating s' = true.
Proof.
  destruct (idle_rotation sampleScene sampleCamera sampleScene_reachable eq_refl)
    as (_ & _ & Hframe & _).
  destruct (Hframe (sampleEnv 500 20000) (mkWrapper (- 500) 2000) (500 / 1000) eq_refl)
    as (s' & cam' & Hret & Hc' & Hidle & _).
  - apply sampleEnv_progress. lra.
  - exists s', cam'. split; [exact Hret |]. split; [exact Hc' |].
    apply Hidle; [lra |]. reflexivity.
Defined.

(** ** Transition target *)





Ltac decide_reals :=
  repeat (cbn [fst snd];
          match goal with
          | |- context [Rcase_abs ?x] => destruct (Rcase_abs x); try (exfalso; lra)
          | |- context [Rgt_dec ?a ?b] => destruct (Rgt_dec a b); try (exfalso; lra)
          | |- context [Rlt_dec ?a ?b] => destruct (Rlt_dec a b); try (exfalso; lra)
          end).

Ltac snap_eval :=
  unfold snapToNearest; rewrite normalizeAlpha_id by lra;
  cbn [fold_left nth_error fst snd QUADRANT_CENTERS STRAIGHT_ANGLES];
  unfold snap_step, below; cbn [fst snd];
  unfold angularDiff, Rabs; decide_reals; reflexivity.

(** The quadrant center chosen for each straight angle; each straight angle
    is equally far from two centers and the earlier one of the array is
    taken. *)
Lemma snap_QUADRANT_table :
  snapToNearest 0 QUADRANT_CENTERS = Some (PI / 4) /\
  snapToNearest (PI / 2) QUADRANT_CENTERS = Some (PI / 4) /\
  snapToNearest PI QUADRANT_CENTERS = Some (3 * PI / 4) /\
  snapToNearest (3 * PI / 2) QUADRANT_CENTERS = Some (5 * PI / 4).
Proof.
  pose proof PI_RGT_0 as Hpi.
  split; [| split; [| split]]; snap_eval.
Qed.




(** * Further properties *)

(** ** Normalisation and quadrants *)

(** The remainder differs from the dividend by a whole number of
    divisors. *)
(** Two angles of the first turn that differ by whole turns are equal. *)
Lemma first_turn_unique (x y : R) (k : Z) :
  0 <= x < 2 * PI -> 0 <= y < 2 * PI -> x = y + IZR k * (2 * PI) -> x = y.
Proof.
  intros Hx Hy Heq. pose proof two_PI_pos as Hpos.
  assert (Hk : (-1 < k < 1)%Z).
  { split; apply lt_IZR.
    - apply (Rmult_lt_reg_r (2 * PI)); [exact Hpos |]. lra.
    - apply (Rmult_lt_reg_r (2 * PI)); [exact Hpos |]. lra. }
  assert (k = 0%Z) by lia. subst k. lra.
Qed.

Lemma normalizeAlpha_shift (alpha : R) (k : Z) :
  normalizeAlpha (alpha + IZR k * (2 * PI)) = normalizeAlpha alpha.
Proof.
  destruct (normalizeAlpha_congruent (alpha + IZR k * (2 * PI))) as [k1 H1].
  destruct (normalizeAlpha_congruent alpha) as [k2 H2].
  apply (first_turn_unique _ _ (k1 + k - k2)%Z);
    try apply normalizeAlpha_range.
  rewrite H1, H2, minus_IZR, plus_IZR. lra.
Qed.

(** X1.  [normalizeAlpha] maps every real angle into [[0, 2π)], changes it
    by a whole number of turns only, is the identity on [[0, 2π)], is
    idempotent and is periodic with period 2π. *)
Theorem normalizeAlpha_canonical (alpha : R) :
  0 <= normalizeAlpha alpha < 2 * PI /\
  (exists k : Z, normalizeAlpha alpha = alpha + IZR k * (2 * PI)) /\
  (0 <= alpha < 2 * PI -> normalizeAlpha alpha = alpha) /\
  normalizeAlpha (normalizeAlpha alpha) = normalizeAlpha alpha /\
  (forall k : Z, normalizeAlpha (alpha + IZR k * (2 * PI)) = normalizeAlpha alpha).
Proof.
  split; [apply normalizeAlpha_range |].
  split; [apply normalizeAlpha_congruent |].
  split; [apply normalizeAlpha_id |].
  split; [apply normalizeAlpha_id, normalizeAlpha_range |].
  intros k. apply normalizeAlpha_shift.
Qed.

Lemma getQuadrant_normalized (alpha : R) :
  getQuadrant alpha =
  if Rlt_dec (normalizeAlpha alpha) (PI / 2) then 1%nat
  else if Rlt_dec (normalizeAlpha alpha) PI then 2%nat
  else if Rlt_dec (normalizeAlpha alpha) (3 * PI / 2) then 3%nat
  else 4%nat.
Proof. reflexivity. Qed.

(** X2.  [getQuadrant] cuts the normalised angle into four quarter turns,
    each closed below and open above: quadrant 1 is [[0, π/2)], 2 is
    [[π/2, π)], 3 is [[π, 3π/2)] and 4 is [[3π/2, 2π)].  The result is
    always one of 1..4 and does not change when whole turns are added. *)
Theorem getQuadrant_partition (alpha : R) :
  (1 <= getQuadrant alpha <= 4)%nat /\
  (getQuadrant alpha = 1%nat <-> 0 <= normalizeAlpha alpha < PI / 2) /\
  (getQuadrant alpha = 2%nat <-> PI / 2 <= normalizeAlpha alpha < PI) /\
  (getQuadrant alpha = 3%nat <-> PI <= normalizeAlpha alpha < 3 * PI / 2) /\
  (getQuadrant alpha = 4%nat <-> 3 * PI / 2 <= normalizeAlpha alpha < 2 * PI) /\
  (forall k : Z, getQuadrant (alpha + IZR k * (2 * PI)) = getQuadrant alpha).
Proof.
  split; [apply getQuadrant_range |].
  pose proof (normalizeAlpha_range alpha) as Hr. pose proof PI_RGT_0 as Hpi.
  assert (Hshift : forall k : Z,
             getQuadrant (alpha + IZR k * (2 * PI)) = getQuadrant alpha).
  { intros k. rewrite !getQuadrant_normalized, normalizeAlpha_shift. reflexivity. }
  rewrite getQuadrant_normalized.
  split; [| split; [| split; [| split; [| exact Hshift]]]]; split; intros H;
    repeat match goal with
           | H : context [Rlt_dec ?a ?b] |- _ => destruct (Rlt_dec a b)
           | |- context [Rlt_dec ?a ?b] => destruct (Rlt_dec a b)
           end; try discriminate; try reflexivity; lra.
Qed.

(** ** The unused helper *)

Lemma PI_gt_3 : 3 < PI.
Proof. pose proof PI2_3_2. lra. Qed.

Lemma straightToQuadrantCenter_cases (x : R) :
  (Rabs (0 - x) < 0.01 -> straightToQuadrantCenter x = Some (PI / 4)) /\
  (Rabs (PI / 2 - x) < 0.01 -> straightToQuadrantCenter x = Some (PI / 4)) /\
  (Rabs (PI - x) < 0.01 -> straightToQuadrantCenter x = Some (5 * PI / 4)) /\
  (Rabs (3 * PI / 2 - x) < 0.01 -> straightToQuadrantCenter x = Some (5 * PI / 4)) /\
  (0.01 <= Rabs (0 - x) -> 0.01 <= Rabs (PI / 2 - x) ->
   0.01 <= Rabs (PI - x) -> 0.01 <= Rabs (3 * PI / 2 - x) ->
   straightToQuadrantCenter x = snapToNearest x QUADRANT_CENTERS).
Proof.
  pose proof PI_gt_3 as Hpi.
  unfold straightToQuadrantCenter, quadrantMapping. cbn [find fst].
  unfold Rabs.
  repeat match goal with
         | |- context [Rcase_abs ?a] => destruct (Rcase_abs a)
         end;
    repeat match goal with
           | |- context [Rlt_dec ?a ?b] => destruct (Rlt_dec a b)
           end;
    repeat split; intros; try reflexivity; exfalso; lra.
Qed.

(** X3.  [straightToQuadrantCenter], which nothing calls, always returns a
    quadrant center.  Within 0.01 of 0° or 90° it returns 45°, within 0.01
    of 180° or 270° it returns 225°, and elsewhere it falls back on
    [snapToNearest].  At 180° this is not the center that the per-frame
    update captures, which is the 135° that [snapToNearest] returns. *)
Theorem straightToQuadrantCenter_table (x : R) :
  (exists c, straightToQuadrantCenter x = Some c /\ In c QUADRANT_CENTERS) /\
  (Rabs (0 - x) < 0.01 -> straightToQuadrantCenter x = Some (PI / 4)) /\
  (Rabs (PI / 2 - x) < 0.01 -> straightToQuadrantCenter x = Some (PI / 4)) /\
  (Rabs (PI - x) < 0.01 -> straightToQuadrantCenter x = Some (5 * PI / 4)) /\
  (Rabs (3 * PI / 2 - x) < 0.01 -> straightToQuadrantCenter x = Some (5 * PI / 4)) /\
  (0.01 <= Rabs (0 - x) -> 0.01 <= Rabs (PI / 2 - x) ->
   0.01 <= Rabs (PI - x) -> 0.01 <= Rabs (3 * PI / 2 - x) ->
   straightToQuadrantCenter x = snapToNearest x QUADRANT_CENTERS) /\
  straightToQuadrantCenter PI = Some (5 * PI / 4) /\
  snapToNearest PI QUADRANT_CENTERS = Some (3 * PI / 4).
Proof.
  destruct (straightToQuadrantCenter_cases x) as (H0 & H1 & H2 & H3 & Hfall).
  split; [| split; [exact H0 | split; [exact H1 | split; [exact H2 |
            split; [exact H3 | split; [exact Hfall |]]]]]].
  - destruct (Rlt_dec (Rabs (0 - x)) 0.01) as [A0 | A0].
    { exists (PI / 4). split; [now apply H0 | simpl; auto]. }
    destruct (Rlt_dec (Rabs (PI / 2 - x)) 0.01) as [A1 | A1].
    { exists (PI / 4). split; [now apply H1 | simpl; auto]. }
    destruct (Rlt_dec (Rabs (PI - x)) 0.01) as [A2 | A2].
    { exists (5 * PI / 4). split; [now apply H2 | simpl; auto]. }
    destruct (Rlt_dec (Rabs (3 * PI / 2 - x)) 0.01) as [A3 | A3].
    { exists (5 * PI / 4). split; [now apply H3 | simpl; auto]. }
    rewrite Hfall by lra. apply snapToNearest_QUADRANT.
  - split; [| apply snap_QUADRANT_table].
    destruct (straightToQuadrantCenter_cases PI) as (_ & _ & Hpi & _).
    apply Hpi. replace (PI - PI) with 0 by lra. rewrite Rabs_R0. lra.
Qed.

(** ** Scroll progress *)

Lemma div_pos_le (a b d : R) : 0 < d -> a <= b -> a / d <= b / d.
Proof.
  intros Hd Hab. unfold Rdiv. apply Rmult_le_compat_r; [| exact Hab].
  left. now apply Rinv_0_lt_compat.
Qed.

Lemma clamp_monotone (u v lo hi : R) : u <= v -> clamp u lo hi <= clamp v lo hi.
Proof.
  intros H. unfold clamp, Rmin, Rmax.
  destruct (Rle_dec u lo), (Rle_dec v lo);
    repeat match goal with
           | |- context [Rle_dec ?a ?b] => destruct (Rle_dec a b)
           end; lra.
Qed.

(** X4.  The scroll progress is never infinite and never outside [[0, 1]]:
    it is NaN exactly when the scrolled amount and the scrollable distance
    are both zero, and a number between 0 and 1 otherwise.  For a positive
    scrollable distance it is [clamp(s/d, 0, 1)], 0 until the wrapper top
    reaches the viewport top, 1 once the whole distance is scrolled, and it
    never decreases as the scrolled amount grows. *)
Theorem scrollProgress_range (scrolledAmount scrollableDistance : R) :
  (scrollProgressOf scrolledAmount scrollableDistance = NaN <->
   scrolledAmount = 0 /\ scrollableDistance = 0) /\
  (scrollProgressOf scrolledAmount scrollableDistance = NaN \/
   exists p, scrollProgressOf scrolledAmount scrollableDistance = Num p /\ 0 <= p <= 1) /\
  (0 < scrollableDistance ->
   scrollProgressOf scrolledAmount scrollableDistance
   = Num (clamp (scrolledAmount / scrollableDistance) 0 1) /\
   (scrolledAmount <= 0 ->
    scrollProgressOf scrolledAmount scrollableDistance = Num 0) /\
   (scrollableDistance <= scrolledAmount ->
    scrollProgressOf scrolledAmount scrollableDistance = Num 1) /\
   (forall more, scrolledAmount <= more ->
      clamp (scrolledAmount / scrollableDistance) 0 1
      <= clamp (more / scrollableDistance) 0 1)).
Proof.
  unfold scrollProgressOf, js_div.
  destruct (Req_dec_T scrollableDistance 0) as [Hz | Hnz].
  - destruct (Rlt_dec 0 scrolledAmount) as [Hp | Hnp];
      [| destruct (Rlt_dec scrolledAmount 0) as [Hn | Hnn]];
      unfold clamp_ext; simpl.
    + split; [split; [discriminate | lra] |]. split; [| lra].
      right. exists 1. split; [reflexivity | lra].
    + split; [split; [discriminate | lra] |]. split; [| lra].
      right. exists (Rmin 0 1). split; [reflexivity |].
      unfold Rmin. destruct (Rle_dec 0 1); lra.
    + split; [split; [intros _; lra | reflexivity] |]. split; [| lra].
      left. reflexivity.
  - rewrite clamp_ext_Num.
    split; [split; [discriminate | intros [_ H]; contradiction] |].
    split.
    + right. eexists. split; [reflexivity |]. apply clamp_bounds. lra.
    + intros Hd. split; [reflexivity |]. split; [| split].
      * intros Hs. f_equal. apply clamp_low; [lra |].
        replace 0 with (0 / scrollableDistance) by (unfold Rdiv; lra).
        now apply div_pos_le.
      * intros Hs. f_equal. apply clamp_high; [lra |].
        replace 1 with (scrollableDistance / scrollableDistance) by (field; lra).
        now apply div_pos_le.
      * intros more Hmore. apply clamp_monotone. now apply div_pos_le.
Qed.

Lemma scrollProgress_range_witness :
  scrollProgressOf 500 1000 = Num (clamp (500 / 1000) 0 1).
Proof.
  apply (scrollProgress_range 500 1000). lra.
Defined.

(** ** Sun texture selection *)

(** X5.  [updateSunTexture] ignores an index below 0 or at or beyond the
    number of loaded textures; an index in range becomes the current one and
    the sampler of each blended texture that exists, while blend factors
    stay.  The slider listener passes [value - 1], so a value outside
    [1 .. length] changes no texture and still rewrites the title. *)
Theorem updateSunTexture_bounds (index : Z) (s : State) :
  ((index < 0 \/ sunTextures s <= index)%Z -> updateSunTexture index s = s) /\
  ((0 <= index < sunTextures s)%Z ->
   let s' := updateSunTexture index s in
   currentSunTextureIndex s' = index /\
   option_map sunSampler (blendedTextureWhite s')
   = option_map (fun _ => index) (blendedTextureWhite s) /\
   option_map sunSampler (blendedTextureAccent s')
   = option_map (fun _ => index) (blendedTextureAccent s) /\
   option_map sunSampler (blendedTextureAccent2 s')
   = option_map (fun _ => index) (blendedTextureAccent2 s) /\
   option_map blendFactor (blendedTextureWhite s')
   = option_map blendFactor (blendedTextureWhite s) /\
   option_map blendFactor (blendedTextureAccent s')
   = option_map blendFactor (blendedTextureAccent s) /\
   option_map blendFactor (blendedTextureAccent2 s')
   = option_map blendFactor (blendedTextureAccent2 s)) /\
  (forall value old,
     (value < 1 \/ sunTextures s < value)%Z -> sunPathTitle s = Some old ->
     sunView (sliderInput value s) = sunView s /\
     sunPathTitle (sliderInput value s) = Some (sunPathLabel value)).
Proof.
  split; [| split].
  - intros H. unfold updateSunTexture.
    replace ((index <? 0)%Z || (index >=? sunTextures s)%Z) with true; [reflexivity |].
    symmetry. apply orb_true_iff. destruct H as [H | H].
    + left. now apply Z.ltb_lt.
    + right. rewrite Z.geb_leb. now apply Z.leb_le.
  - intros [Hlo Hhi]. unfold updateSunTexture.
    replace ((index <? 0)%Z || (index >=? sunTextures s)%Z) with false.
    + simpl. destruct (blendedTextureWhite s), (blendedTextureAccent s),
        (blendedTextureAccent2 s); simpl; repeat split.
    + symmetry. apply orb_false_iff. split.
      * now apply Z.ltb_ge.
      * rewrite Z.geb_leb. apply Z.leb_gt. exact Hhi.
  - intros value old Hv Ht. unfold sliderInput.
    assert (Hsame : updateSunTexture (value - 1) s = s).
    { unfold updateSunTexture.
      replace ((value - 1 <? 0)%Z || (value - 1 >=? sunTextures s)%Z) with true;
        [reflexivity |].
      symmetry. apply orb_true_iff. destruct Hv as [H | H].
      - left. apply Z.ltb_lt. lia.
      - right. rewrite Z.geb_leb. apply Z.leb_le. lia. }
    rewrite Hsame. unfold updateSunPathTitle. rewrite Ht. split; reflexivity.
Qed.

Lemma updateSunTexture_bounds_witness :
  currentSunTextureIndex (updateSunTexture 20 sampleScene) = 20%Z.
Proof.
  apply (updateSunTexture_bounds 20 sampleScene). simpl. lia.
Defined.

(** ** Emission by section *)

Lemma sunBlendFactorOf_zero (p : R) : sunBlendFactorOf p = 0 <-> p <= 0.66.
Proof.
  unfold sunBlendFactorOf. destruct (Rge_dec p 0.66) as [Hge | Hlt].
  - unfold clamp, Rmin, Rmax.
    destruct (Rle_dec ((p - 0.66) / 0.1) 0); destruct (Rle_dec _ 1); split; intros; lra.
  - split; intros; lra.
Qed.

(** X6.  Up to progress 0.66 [updateSunPathTransition] leaves every material
    it knows without a texture and with a flat color: white, or the accent
    colors on the two accent materials while toggle mode is on.  Beyond
    0.66 every material gets white and a reference to a blended texture: the
    white one, or the accent ones on the accent materials while toggle mode
    is on.  An emissive intensity that is defined becomes 1 and one that is
    undefined stays so; the remembered original colors are not touched. *)
Theorem sun_path_emission (p : R) (s : State) :
  let s' := updateSunPathTransition p s in
  let white : Color3 := (1, 1, 1) in
  (p <= 0.66 ->
   accentMaterial s'
   = option_map (setEmission None (if isToggleMode s then ACCENT_EMISSION_COLOR else white))
                (accentMaterial s) /\
   accent2Material s'
   = option_map (setEmission None (if isToggleMode s then ACCENT_2_EMISSION_COLOR else white))
                (accent2Material s) /\
   whiteMaterial s' = option_map (setEmission None white) (whiteMaterial s)) /\
  (0.66 < p ->
   accentMaterial s'
   = option_map (setEmission (if isToggleMode s
                              then refTo BlendAccent (blendedTextureAccent s)
                              else refTo BlendWhite (blendedTextureWhite s)) white)
                (accentMaterial s) /\
   accent2Material s'
   = option_map (setEmission (if isToggleMode s
                              then refTo BlendAccent2 (blendedTextureAccent2 s)
                              else refTo BlendWhite (blendedTextureWhite s)) white)
                (accent2Material s) /\
   whiteMaterial s'
   = option_map (setEmission (refTo BlendWhite (blendedTextureWhite s)) white)
                (whiteMaterial s)) /\
  (forall tex c m, emissiveIntensity (setEmission tex c m)
                   = option_map (fun _ => 1) (emissiveIntensity m)) /\
  originalAccentEmissive s' = originalAccentEmissive s /\
  originalAccent2Emissive s' = originalAccent2Emissive s /\
  originalWhiteEmissive s' = originalWhiteEmissive s.
Proof.
  intros s' white. subst s'. unfold updateSunPathTransition.
  destruct (Req_dec_T (sunBlendFactorOf p) 0) as [Hz | Hnz].
  - apply sunBlendFactorOf_zero in Hz.
    split; [intros _; repeat split |]. split; [intros Hp; lra |].
    split; [intros tex c m; destruct m as [t col [i |]]; reflexivity |].
    repeat split.
  - assert (Hp : 0.66 < p).
    { destruct (Rle_dec p 0.66) as [Hle | Hgt]; [| lra].
      apply sunBlendFactorOf_zero in Hle. contradiction. }
    split; [intros Hle; lra |]. split.
    + intros _. simpl.
      destruct (blendedTextureWhite s), (blendedTextureAccent s),
        (blendedTextureAccent2 s); repeat split.
    + split; [intros tex c m; destruct m as [t col [i |]]; reflexivity |].
      repeat split.
Qed.

(** ** Furniture shrink *)

Lemma Forall2_map_r {A : Type} (P : A -> A -> Prop) (f : A -> A) (l : list A) :
  (forall x, P x (f x)) -> Forall2 P l (map f l).
Proof. intros H. induction l; simpl; constructor; auto. Qed.

Lemma Forall2_same {A : Type} (P : A -> A -> Prop) (l : list A) :
  (forall x, P x x) -> Forall2 P l l.
Proof. intros H. induction l; constructor; auto. Qed.

Lemma shrink_progress (p : R) :
  let shrink := if Rge_dec p 0.66 then clamp ((p - 0.66) / 0.05) 0 1 else 0 in
  0 <= shrink <= 1 /\ (shrink < 1 <-> p < 0.71) /\
  (p <= 0.66 -> shrink = 0) /\ (0.71 <= p -> shrink = 1).
Proof.
  simpl. destruct (Rge_dec p 0.66) as [Hge | Hlt].
  - unfold clamp, Rmin, Rmax.
    destruct (Rle_dec ((p - 0.66) / 0.05) 0); destruct (Rle_dec _ 1);
      repeat split; intros; lra.
  - repeat split; intros; lra.
Qed.

Lemma fade_mesh (p : R) (mesh : Mesh) :
  fadedFrom p mesh
    (let shrinkProgress :=
       if Rge_dec p 0.66 then clamp ((p - 0.66) / 0.05) 0 1 else 0 in
     if enabled mesh || (if Rlt_dec shrinkProgress 1 then true else false)
     then mkMesh (enabled mesh)
                 (if (if Rlt_dec shrinkProgress 1 then true else false) then 1 else 0)
                 (match _originalScaling mesh with
                  | Some v => scale v (lerp 1 0.9 shrinkProgress)
                  | None => (lerp 1 0.9 shrinkProgress, lerp 1 0.9 shrinkProgress,
                             lerp 1 0.9 shrinkProgress)
                  end)
                 (_originalScaling mesh)
     else mesh).
Proof.
  destruct (shrink_progress p) as (Hr & Hlt & Hlow & Hhigh).
  cbv zeta in *. set (shrink := if Rge_dec p 0.66 then _ else 0) in *.
  unfold fadedFrom.
  destruct (Rlt_dec shrink 1) as [Hs | Hs].
  - assert (Hp : p < 0.71) by now apply Hlt.
    rewrite orb_true_r. simpl. split; [reflexivity |]. split; [reflexivity |].
    split; [intros _ H; lra |]. intros _.
    destruct (Rlt_dec p 0.71); [| contradiction]. split; [reflexivity |].
    exists (lerp 1 0.9 shrink). unfold lerp.
    split; [lra |]. split; [intros H; rewrite (Hlow H); lra |].
    split; [intros H; lra | reflexivity].
  - assert (Hp : ~ p < 0.71) by (intros H; apply Hs; now apply Hlt).
    rewrite orb_false_r. destruct (enabled mesh) eqn:He; simpl.
    + split; [reflexivity |]. split; [reflexivity |].
      split; [intros H; discriminate |]. intros _.
      destruct (Rlt_dec p 0.71); [contradiction |]. split; [reflexivity |].
      exists (lerp 1 0.9 shrink). unfold lerp.
      split; [lra |]. split; [intros H; lra |].
      split; [intros H; rewrite (Hhigh H); lra | reflexivity].
    + split; [exact He |]. split; [reflexivity |]. split; [reflexivity |].
      intros [H | H]; [congruence | contradiction].
Qed.

(** X7.  [updateFurnitureFade] never changes which meshes are enabled, how
    many there are, or their remembered scaling.  It does nothing with
    toggle mode off or with no set selected, and never touches a set other
    than the selected one.  In the selected set an enabled mesh gets the
    remembered scaling times a factor between 0.9 and 1 (1 up to progress
    0.66, 0.9 from 0.71 on) and visibility 1 below 0.71 and 0 from there
    on; a disabled mesh is treated the same below 0.71 and left alone from
    0.71 on. *)
Theorem furniture_fade (p : R) (s : State) (k : FurnitureKey) :
  let s' := updateFurnitureFade p s in
  (isToggleMode s = false \/ currentOption s <> Some k ->
   furnitureSet k (furnitureSets s') = furnitureSet k (furnitureSets s)) /\
  (isToggleMode s = true -> currentOption s = Some k ->
   Forall2 (fadedFrom p) (furnitureSet k (furnitureSets s))
           (furnitureSet k (furnitureSets s'))) /\
  map enabled (furnitureSet k (furnitureSets s'))
  = map enabled (furnitureSet k (furnitureSets s)) /\
  map _originalScaling (furnitureSet k (furnitureSets s'))
  = map _originalScaling (furnitureSet k (furnitureSets s)).
Proof.
  intros s'. subst s'.
  split; [| split; [| split; [apply updateFurnitureFade_enabled |]]].
  - intros H. unfold updateFurnitureFade.
    destruct (isToggleMode s); simpl; [| reflexivity].
    destruct H as [H | H]; [discriminate |].
    destruct (currentOption s) as [key |]; [| reflexivity].
    destruct key, k; try reflexivity; congruence.
  - intros Ht Hk. unfold updateFurnitureFade. rewrite Ht, Hk. simpl.
    destruct k; simpl; apply Forall2_map_r; intros mesh; apply fade_mesh.
  - unfold updateFurnitureFade.
    destruct (isToggleMode s); simpl; [| reflexivity].
    destruct (currentOption s) as [key |]; [| reflexivity].
    destruct key, k; simpl; try reflexivity; rewrite map_map; apply map_ext;
      intros mesh; apply (fade_mesh p mesh).
Qed.

Lemma furniture_fade_witness :
  furnitureSet Furniture1 (furnitureSets (updateFurnitureFade 0.7 sampleScene))
  = furnitureSet Furniture1 (furnitureSets sampleScene).
Proof.
  apply (furniture_fade 0.7 sampleScene Furniture1). left. reflexivity.
Defined.

(** ** Entrance marker *)

Lemma updateEntranceParent_changed (s : State) (cam : Camera) (img : Marker) :
  camera s = Some cam -> entranceImage s = Some img ->
  lastEntranceQuadrant s <> Some (getQuadrant (alpha cam)) ->
  updateEntranceParent s =
  (let s1 := set_lastEntranceQuadrant (Some (getQuadrant (alpha cam))) s in
   if anchorPresent s (anchorOf (getQuadrant (alpha cam)))
   then set_entranceImage
          (Some (mkMarker (anchorOf (getQuadrant (alpha cam))) 65 (-25))) s1
   else s1).
Proof.
  intros Hcam Himg Hq. unfold updateEntranceParent. rewrite Hcam, Himg.
  pose proof (getQuadrant_range (alpha cam)) as Hr.
  destruct (lastEntranceQuadrant s) as [q |] eqn:Hl.
  - destruct (Nat.eqb (getQuadrant (alpha cam)) q) eqn:E.
    + apply Nat.eqb_eq in E. congruence.
    + destruct (getQuadrant (alpha cam)) as [| [| [| [| [| n]]]]]; try lia; simpl;
        destruct (entranceNodeHigh s), (entranceNodeLow s); reflexivity.
  - destruct (getQuadrant (alpha cam)) as [| [| [| [| [| n]]]]]; try lia; simpl;
      destruct (entranceNodeHigh s), (entranceNodeLow s); reflexivity.
Qed.

Lemma updateEntranceParent_same (s : State) (cam : Camera) :
  camera s = Some cam ->
  lastEntranceQuadrant s = Some (getQuadrant (alpha cam)) ->
  updateEntranceParent s = s.
Proof.
  intros Hcam Hq. unfold updateEntranceParent. rewrite Hcam, Hq, Nat.eqb_refl.
  destruct (entranceImage s); reflexivity.
Qed.

(** X8.  [updateEntranceParent] does nothing without a camera or without
    the marker, and nothing when the quadrant of the azimuth is the one it
    saw last.  Otherwise it records the quadrant and, when the anchor of
    that quadrant exists (the high node for quadrants 1 and 4, the low node
    for 2 and 3), links the marker with it at the offsets (65, -25); a
    missing anchor leaves the previous link.  A second call right after
    changes nothing. *)
Theorem entrance_marker_relink (s : State) :
  (camera s = None \/ entranceImage s = None -> updateEntranceParent s = s) /\
  (forall cam, camera s = Some cam ->
     lastEntranceQuadrant s = Some (getQuadrant (alpha cam)) ->
     updateEntranceParent s = s) /\
  (forall cam img, camera s = Some cam -> entranceImage s = Some img ->
     lastEntranceQuadrant s <> Some (getQuadrant (alpha cam)) ->
     let q := getQuadrant (alpha cam) in
     let s' := updateEntranceParent s in
     lastEntranceQuadrant s' = Some q /\
     (anchorPresent s (anchorOf q) = true ->
      entranceImage s' = Some (mkMarker (anchorOf q) 65 (-25))) /\
     (anchorPresent s (anchorOf q) = false -> entranceImage s' = Some img)) /\
  map anchorOf [1; 2; 3; 4]%nat = [EntranceHigh; EntranceLow; EntranceLow; EntranceHigh] /\
  updateEntranceParent (updateEntranceParent s) = updateEntranceParent s.
Proof.
  split; [| split; [| split; [| split; [reflexivity |]]]].
  - intros [H | H]; unfold updateEntranceParent; rewrite H; [reflexivity |].
    destruct (camera s); reflexivity.
  - intros cam Hcam Hq. now apply (updateEntranceParent_same s cam).
  - intros cam img Hcam Himg Hq q s'. subst s'.
    rewrite (updateEntranceParent_changed s cam img Hcam Himg Hq). fold q.
    destruct (anchorPresent s (anchorOf q)); simpl; repeat split;
      try discriminate; auto.
  - destruct (camera s) as [cam |] eqn:Hcam.
    2:{ unfold updateEntranceParent at 2. rewrite Hcam.
        unfold updateEntranceParent. now rewrite Hcam. }
    destruct (entranceImage s) as [img |] eqn:Himg.
    2:{ unfold updateEntranceParent at 2. rewrite Hcam, Himg.
        unfold updateEntranceParent. now rewrite Hcam, Himg. }
    assert (Hdec : lastEntranceQuadrant s = Some (getQuadrant (alpha cam)) \/
                   lastEntranceQuadrant s <> Some (getQuadrant (alpha cam))).
    { destruct (lastEntranceQuadrant s) as [q0 |]; [| right; discriminate].
      destruct (Nat.eq_dec q0 (getQuadrant (alpha cam))) as [-> | Hn];
        [left; reflexivity | right; congruence]. }
    destruct Hdec as [Heq | Hne].
    + rewrite (updateEntranceParent_same s cam Hcam Heq).
      now apply (updateEntranceParent_same s cam).
    + rewrite (updateEntranceParent_changed s cam img Hcam Himg Hne).
      cbv zeta. destruct (anchorPresent s _);
        apply (updateEntranceParent_same _ cam); reflexivity || assumption.
Qed.

(** ** Accent emission *)

(** X9.  With the original colors captured, switching the accent emission
    on gives the two accent materials their accent colors and switching it
    off again gives them back the captured originals; textures, intensities
    and the white material are not touched.  A material whose original was
    not captured keeps the accent color when switched off. *)
Theorem accent_emission_round_trip (s : State) :
  (forall m c, accentMaterial s = Some m -> originalAccentEmissive s = Some c ->
     accentMaterial (updateAccentEmission true s)
     = Some (setEmissiveColor ACCENT_EMISSION_COLOR m) /\
     accentMaterial (updateAccentEmission false (updateAccentEmission true s))
     = Some (setEmissiveColor c m)) /\
  (forall m c, accent2Material s = Some m -> originalAccent2Emissive s = Some c ->
     accent2Material (updateAccentEmission true s)
     = Some (setEmissiveColor ACCENT_2_EMISSION_COLOR m) /\
     accent2Material (updateAccentEmission false (updateAccentEmission true s))
     = Some (setEmissiveColor c m)) /\
  (forall m, accentMaterial s = Some m -> originalAccentEmissive s = None ->
     accentMaterial (updateAccentEmission false (updateAccentEmission true s))
     = Some (setEmissiveColor ACCENT_EMISSION_COLOR m)) /\
  (forall b,
     whiteMaterial (updateAccentEmission b s) = whiteMaterial s /\
     originalAccentEmissive (updateAccentEmission b s) = originalAccentEmissive s /\
     originalAccent2Emissive (updateAccentEmission b s) = originalAccent2Emissive s /\
     option_map emissiveTexture (accentMaterial (updateAccentEmission b s))
     = option_map emissiveTexture (accentMaterial s) /\
     option_map emissiveIntensity (accentMaterial (updateAccentEmission b s))
     = option_map emissiveIntensity (accentMaterial s)).
Proof.
  split; [| split; [| split]].
  - intros m c Hm Hc.
    destruct (accent2Material s) eqn:E1; destruct (originalAccent2Emissive s) eqn:E2;
      unfold updateAccentEmission;
      repeat (simpl; rewrite ?Hm, ?Hc, ?E1, ?E2); split; reflexivity.
  - intros m c Hm Hc.
    destruct (accentMaterial s) eqn:E1; destruct (originalAccentEmissive s) eqn:E2;
      unfold updateAccentEmission;
      repeat (simpl; rewrite ?Hm, ?Hc, ?E1, ?E2); split; reflexivity.
  - intros m Hm Hc.
    destruct (accent2Material s) eqn:E1; destruct (originalAccent2Emissive s) eqn:E2;
      unfold updateAccentEmission;
      repeat (simpl; rewrite ?Hm, ?Hc, ?E1, ?E2); reflexivity.
  - intros b.
    destruct (accentMaterial s) eqn:E1; destruct (originalAccentEmissive s) eqn:E2;
      destruct (accent2Material s) eqn:E3; destruct (originalAccent2Emissive s) eqn:E4;
      destruct b; unfold updateAccentEmission;
      repeat (simpl; rewrite ?E1, ?E2, ?E3, ?E4); repeat split.
Qed.

(** ** Cycling *)









(** ** More of what each operation leaves alone *)

Lemma views_updateEntranceParent (s : State) :
  sunView (updateEntranceParent s) = sunView s /\
  materialView (updateEntranceParent s) = materialView s /\
  lastQuadrant (updateEntranceParent s) = lastQuadrant s /\
  sunPathTitle (updateEntranceParent s) = sunPathTitle s /\
  entranceNodeHigh (updateEntranceParent s) = entranceNodeHigh s /\
  entranceNodeLow (updateEntranceParent s) = entranceNodeLow s.
Proof.
  unfold updateEntranceParent, sunView, materialView.
  destruct (camera s) eqn:Hc; destruct (entranceImage s); break_match;
    simpl; repeat split.
Qed.

Lemma views_walls (f : Dir -> Mesh -> Mesh) (s : State) :
  let s' := set_wallMeshes (forEachWall f (wallMeshes s)) s in
  core s' = core s /\ furnitureSets s' = furnitureSets s /\
  sunView s' = sunView s /\ materialView s' = materialView s /\
  entranceView s' = entranceView s /\ lastQuadrant s' = lastQuadrant s /\
  sunPathTitle s' = sunPathTitle s.
Proof. repeat split. Qed.

Lemma views_updateWallVisibilityForMode (s s' : State) :
  updateWallVisibilityForMode s = Returned s' ->
  core s' = core s /\ furnitureSets s' = furnitureSets s /\
  sunView s' = sunView s /\ materialView s' = materialView s /\
  entranceView s' = entranceView s /\ lastQuadrant s' = lastQuadrant s /\
  sunPathTitle s' = sunPathTitle s /\
  forall d, wallGroup d (wallMeshes s')
            = map (setEnabled (specWallVisible (isOrthoView s) (isToggleMode s)
                                 (match camera s with
                                  | Some cam => getQuadrant (alpha cam)
                                  | None => 0%nat
                                  end) d))
                  (wallGroup d (wallMeshes s)).
Proof.
  unfold updateWallVisibilityForMode.
  destruct (isOrthoView s) eqn:Ho; [| destruct (isToggleMode s) eqn:Ht;
                                       [destruct (camera s) as [cam |] eqn:Hc |]];
    intros H; try discriminate; injection H as <-.
  - repeat split. intros d. rewrite hideAllWalls_group. reflexivity.
  - repeat split. intros d. rewrite updateMeshVisibility_group.
    rewrite hideMap_table by apply getQuadrant_range. reflexivity.
  - repeat split. intros d. rewrite showAllWalls_group. reflexivity.
Qed.

Lemma views_updateSunPathTransition (p : R) (s : State) :
  let s' := updateSunPathTransition p s in
  entranceView s' = entranceView s /\ lastQuadrant s' = lastQuadrant s /\
  sunPathTitle s' = sunPathTitle s /\
  sunTextures s' = sunTextures s /\
  currentSunTextureIndex s' = currentSunTextureIndex s /\
  originalAccentEmissive s' = originalAccentEmissive s /\
  originalAccent2Emissive s' = originalAccent2Emissive s /\
  originalWhiteEmissive s' = originalWhiteEmissive s /\
  option_map sunSampler (blendedTextureWhite s')
  = option_map sunSampler (blendedTextureWhite s) /\
  option_map sunSampler (blendedTextureAccent s')
  = option_map sunSampler (blendedTextureAccent s) /\
  option_map sunSampler (blendedTextureAccent2 s')
  = option_map sunSampler (blendedTextureAccent2 s) /\
  (accentMaterial s' = None <-> accentMaterial s = None) /\
  (accent2Material s' = None <-> accent2Material s = None) /\
  (whiteMaterial s' = None <-> whiteMaterial s = None).
Proof.
  unfold updateSunPathTransition, entranceView.
  destruct (Req_dec_T _ 0); simpl;
    destruct (blendedTextureWhite s), (blendedTextureAccent s),
      (blendedTextureAccent2 s), (accentMaterial s), (accent2Material s),
      (whiteMaterial s); simpl; repeat split; intros; discriminate.
Qed.

Lemma views_updateFurnitureFade (p : R) (s : State) :
  let s' := updateFurnitureFade p s in
  sunView s' = sunView s /\ materialView s' = materialView s /\
  entranceView s' = entranceView s /\ lastQuadrant s' = lastQuadrant s /\
  sunPathTitle s' = sunPathTitle s.
Proof.
  unfold updateFurnitureFade.
  destruct (negb (isToggleMode s)); [repeat split |].
  destruct (currentOption s); repeat split.
Qed.

Lemma views_updateFurnitureVisibility (s : State) :
  let s' := updateFurnitureVisibility s in
  sunView s' = sunView s /\ materialView s' = materialView s /\
  entranceView s' = entranceView s /\ lastQuadrant s' = lastQuadrant s /\
  sunPathTitle s' = sunPathTitle s.
Proof.
  unfold updateFurnitureVisibility.
  destruct (negb (isToggleMode s)); repeat split.
Qed.

Lemma views_idleRotation (p : R) (now : Z) (s : State) :
  let s' := idleRotation p now s in
  sunView s' = sunView s /\ materialView s' = materialView s /\
  entranceView s' = entranceView s /\ lastQuadrant s' = lastQuadrant s /\
  sunPathTitle s' = sunPathTitle s.
Proof.
  unfold idleRotation.
  destruct (Rge_dec p 0.33); [| repeat split].
  destruct (now - lastInteractionTime s >? IDLE_TIMEOUT)%Z; [| repeat split].
  destruct (negb (isIdleRotating s)); repeat split.
Qed.

Lemma views_updateAccentEmission (b : bool) (s : State) :
  let s' := updateAccentEmission b s in
  sunView s' = sunView s /\ entranceView s' = entranceView s /\
  lastQuadrant s' = lastQuadrant s /\ sunPathTitle s' = sunPathTitle s /\
  whiteMaterial s' = whiteMaterial s /\
  originalAccentEmissive s' = originalAccentEmissive s /\
  originalAccent2Emissive s' = originalAccent2Emissive s /\
  originalWhiteEmissive s' = originalWhiteEmissive s /\
  (accentMaterial s' = None <-> accentMaterial s = None) /\
  (accent2Material s' = None <-> accent2Material s = None).
Proof.
  destruct (accentMaterial s) eqn:E1; destruct (originalAccentEmissive s) eqn:E2;
    destruct (accent2Material s) eqn:E3; destruct (originalAccent2Emissive s) eqn:E4;
    destruct b; unfold updateAccentEmission, sunView, entranceView;
    repeat (simpl; rewrite ?E1, ?E2, ?E3, ?E4); repeat split; intros; discriminate.
Qed.

Lemma views_sliderInput (v : Z) (s : State) :
  let s' := sliderInput v s in
  materialView s' = materialView s /\ entranceView s' = entranceView s /\
  lastQuadrant s' = lastQuadrant s.
Proof.
  unfold sliderInput, updateSunPathTitle, updateSunTexture.
  destruct ((v - 1 <? 0)%Z || (v - 1 >=? sunTextures s)%Z); simpl;
    destruct (sunPathTitle s); repeat split.
Qed.

Lemma views_storeFurniture (key : FurnitureKey) (meshes : list Mesh) (s : State) :
  let s' := furnitureLoaded key meshes s in
  sunView s' = sunView s /\ materialView s' = materialView s /\
  entranceView s' = entranceView s /\ lastQuadrant s' = lastQuadrant s /\
  sunPathTitle s' = sunPathTitle s.
Proof.
  unfold furnitureLoaded. revert s.
  induction meshes as [| m l IH]; intros s; [repeat split |].
  cbn [fold_left]. cbv zeta in *.
  destruct (IH (storeFurniture key s m)) as (H1 & H2 & H3 & H4 & H5).
  rewrite H1, H2, H3, H4, H5. repeat split.
Qed.

(** ** Loading *)

Lemma categorize_materials (s : State) (im : ImportedMesh) :
  accentMaterial (categorize s im)
  = keepFirst (accentMaterial s) (firstNamed Accent [im]) /\
  accent2Material (categorize s im)
  = keepFirst (accent2Material s) (firstNamed Accent_2 [im]) /\
  whiteMaterial (categorize s im)
  = keepFirst (whiteMaterial s) (firstNamed White [im]) /\
  originalAccentEmissive (categorize s im)
  = match accentMaterial s, firstNamed Accent [im] with
    | None, Some m => originalEmissive m (0, 0, 0)
    | _, _ => originalAccentEmissive s
    end /\
  originalAccent2Emissive (categorize s im)
  = match accent2Material s, firstNamed Accent_2 [im] with
    | None, Some m => originalEmissive m (0, 0, 0)
    | _, _ => originalAccent2Emissive s
    end /\
  originalWhiteEmissive (categorize s im)
  = match whiteMaterial s, firstNamed White [im] with
    | None, Some m => originalEmissive m (1, 1, 1)
    | _, _ => originalWhiteEmissive s
    end.
Proof.
  unfold categorize, firstNamed.
  destruct (im_wall im); destruct (im_material im) as [[[] m] |]; simpl;
    destruct (accentMaterial s) eqn:E1; destruct (accent2Material s) eqn:E2;
      destruct (whiteMaterial s) eqn:E3; simpl; rewrite ?E1, ?E2, ?E3;
        repeat split.
Qed.

Lemma firstNamed_cons (name : MaterialName) (im : ImportedMesh) (l : list ImportedMesh) :
  firstNamed name (im :: l) = keepFirst (firstNamed name [im]) (firstNamed name l).
Proof.
  simpl. destruct (im_material im) as [[n m] |]; [| reflexivity].
  destruct (MaterialName_eqb n name); reflexivity.
Qed.

Lemma fold_categorize_materials (l : list ImportedMesh) (s : State) :
  let s' := fold_left categorize l s in
  accentMaterial s' = keepFirst (accentMaterial s) (firstNamed Accent l) /\
  accent2Material s' = keepFirst (accent2Material s) (firstNamed Accent_2 l) /\
  whiteMaterial s' = keepFirst (whiteMaterial s) (firstNamed White l) /\
  originalAccentEmissive s'
  = match accentMaterial s, firstNamed Accent l with
    | None, Some m => originalEmissive m (0, 0, 0)
    | _, _ => originalAccentEmissive s
    end /\
  originalAccent2Emissive s'
  = match accent2Material s, firstNamed Accent_2 l with
    | None, Some m => originalEmissive m (0, 0, 0)
    | _, _ => originalAccent2Emissive s
    end /\
  originalWhiteEmissive s'
  = match whiteMaterial s, firstNamed White l with
    | None, Some m => originalEmissive m (1, 1, 1)
    | _, _ => originalWhiteEmissive s
    end.
Proof.
  revert s. induction l as [| im l IH]; intros s.
  - simpl. destruct (accentMaterial s), (accent2Material s), (whiteMaterial s);
      repeat split.
  - cbn [fold_left]. cbv zeta in *.
    destruct (IH (categorize s im)) as (A1 & A2 & A3 & O1 & O2 & O3).
    destruct (categorize_materials s im) as (B1 & B2 & B3 & P1 & P2 & P3).
    rewrite A1, A2, A3, O1, O2, O3, B1, B2, B3, P1, P2, P3.
    rewrite !(firstNamed_cons _ im l).
    destruct (accentMaterial s), (accent2Material s), (whiteMaterial s),
      (firstNamed Accent [im]), (firstNamed Accent_2 [im]), (firstNamed White [im]),
      (firstNamed Accent l), (firstNamed Accent_2 l), (firstNamed White l);
      repeat split.
Qed.

Lemma fold_categorize_walls (l : list ImportedMesh) (s : State) (d : Dir) :
  wallGroup d (wallMeshes (fold_left categorize l s))
  = wallGroup d (wallMeshes s) ++ wallsOf d l.
Proof.
  revert s. induction l as [| im l IH]; intros s.
  - simpl. now rewrite app_nil_r.
  - cbn [fold_left]. rewrite IH. unfold wallsOf. cbn [filter].
    assert (Hw : wallGroup d (wallMeshes (categorize s im))
                 = wallGroup d (wallMeshes s)
                   ++ match im_wall im with
                      | Some d' => if Dir_eqb d' d then [im_mesh im] else []
                      | None => []
                      end).
    { unfold categorize.
      destruct (im_wall im) as [d' |]; [destruct d', d |];
        destruct (im_material im) as [[[] m] |]; simpl;
        break_match; simpl; rewrite ?app_nil_r; reflexivity. }
    rewrite Hw. rewrite <- app_assoc. f_equal.
    destruct (im_wall im) as [d' |]; [destruct (Dir_eqb d' d) |]; reflexivity.
Qed.

Lemma views_categorize (l : list ImportedMesh) (s : State) :
  let s' := fold_left categorize l s in
  sunView s' = sunView s /\ entranceView s' = entranceView s /\
  lastQuadrant s' = lastQuadrant s /\ sunPathTitle s' = sunPathTitle s.
Proof.
  revert s. induction l as [| im l IH]; intros s; [repeat split |].
  cbn [fold_left]. cbv zeta in *.
  destruct (IH (categorize s im)) as (H1 & H2 & H3 & H4).
  rewrite H1, H2, H3, H4. unfold categorize.
  destruct (im_wall im); destruct (im_material im) as [[[] m] |];
    break_match; repeat split.
Qed.

(** The stages of [modelLoaded] after the categorising loop. *)
Lemma modelLoaded_stages (r : ModelImport) (s : State) (cam : Camera) :
  camera s = Some cam ->
  let s1 := fold_left categorize (im_meshes r) s in
  materialView (modelLoaded r s) = materialView s1 /\
  sunView (modelLoaded r s) = sunView s1 /\
  lastQuadrant (modelLoaded r s) = lastQuadrant s1 /\
  sunPathTitle (modelLoaded r s) = sunPathTitle s1 /\
  wallMeshes (modelLoaded r s) = wallMeshes (hideAllWalls s1) /\
  entranceNodeHigh (modelLoaded r s) = im_entranceHigh r /\
  entranceNodeLow (modelLoaded r s) = im_entranceLow r.
Proof.
  intros Hcam. unfold modelLoaded. rewrite Hcam. cbv zeta.
  match goal with
  | |- context [if ?c then _ else _] => destruct c
  end; [| repeat split].
  match goal with
  | |- context [updateEntranceParent ?s2] =>
      destruct (views_updateEntranceParent s2) as (V1 & V2 & V3 & V4 & V5 & V6);
      destruct (core_updateEntranceParent s2) as (_ & _ & V7);
      rewrite V1, V2, V3, V4, V5, V6, V7
  end.
  repeat split.
Qed.

(** ** The model and the furniture arrive *)



(** X12.  When the model arrives with the camera in place, every wall
    group is what it was followed by the imported wall meshes of its
    direction in import order, and every mesh in it, old or new, ends
    disabled, whatever the view and the toggle are; the two entrance
    globals say whether the import has the nodes.  Without a camera the
    stage changes nothing. *)
Theorem model_load_walls (r : ModelImport) (s : State) :
  (camera s = None -> modelLoaded r s = s) /\
  (camera s <> None ->
   (forall d,
      wallGroup d (wallMeshes (modelLoaded r s))
      = map (setEnabled false) (wallGroup d (wallMeshes s) ++ wallsOf d (im_meshes r)) /\
      allEnabled false (wallGroup d (wallMeshes (modelLoaded r s)))) /\
   entranceNodeHigh (modelLoaded r s) = im_entranceHigh r /\
   entranceNodeLow (modelLoaded r s) = im_entranceLow r).
Proof.
  split; [apply modelLoaded_no_camera |].
  intros Hcam. destruct (camera s) as [cam |] eqn:Hc; [| contradiction].
  destruct (modelLoaded_stages r s cam Hc) as (_ & _ & _ & _ & Hw & Hh & Hl).
  cbv zeta in *. split; [| split; assumption].
  intros d. rewrite Hw, hideAllWalls_group, fold_categorize_walls.
  split; [reflexivity | apply allEnabled_setEnabled].
Qed.

(** What a furniture file adds to each set. *)
Lemma furniture_load_stored_parts (key k : FurnitureKey) (meshes : list Mesh) (s : State) :
  furnitureSet k (furnitureSets (furnitureLoaded key meshes s))
  = furnitureSet k (furnitureSets s)
    ++ (if FurnitureKey_eqb k key then map storedMesh meshes else []) /\
  Forall (fun mesh => enabled mesh = false /\ visibility mesh = 0 /\
                      _originalScaling mesh <> None)
         (map storedMesh meshes).
Proof.
  split.
  - unfold furnitureLoaded. revert s.
    induction meshes as [| m l IH]; intros s.
    + simpl. destruct (FurnitureKey_eqb k key); now rewrite app_nil_r.
    + cbn [fold_left]. rewrite IH.
      assert (H : furnitureSet k (furnitureSets (storeFurniture key s m))
                  = furnitureSet k (furnitureSets s)
                    ++ (if FurnitureKey_eqb k key then [storedMesh m] else [])).
      { destruct k, key; simpl; rewrite ?app_nil_r; reflexivity. }
      rewrite H, <- app_assoc. f_equal.
      destruct (FurnitureKey_eqb k key); reflexivity.
  - apply Forall_forall. intros x Hx. apply in_map_iff in Hx.
    destruct Hx as (m & <- & _). unfold storedMesh. simpl.
    repeat split. destruct (_originalScaling m); discriminate.
Qed.

(** X13.  A furniture file that arrives appends its kept meshes, in
    order, to the set of its key and to no other set; each is stored
    disabled, with visibility 0, its scaling as it came, and its original
    scaling remembered: the one it already carried, or else its scaling. *)
Theorem furniture_load_stored (key k : FurnitureKey) (meshes : list Mesh) (s : State) :
  furnitureSet k (furnitureSets (furnitureLoaded key meshes s))
  = furnitureSet k (furnitureSets s)
    ++ (if FurnitureKey_eqb k key then map storedMesh meshes else []) /\
  Forall (fun mesh => enabled mesh = false /\ visibility mesh = 0 /\
                      _originalScaling mesh <> None)
         (map storedMesh meshes).
Proof. exact (furniture_load_stored_parts key k meshes s). Qed.

(** ** The stages of a frame *)

Lemma updateWallVisibilityForMode_camera (s : State) (cam : Camera) :
  camera s = Some cam ->
  exists s', updateWallVisibilityForMode s = Returned s'.
Proof.
  intros H. destruct (core_updateWallVisibilityForMode s cam H) as (s' & Hs & _).
  eauto.
Qed.

(** A frame with a camera and a numeric progress: the camera and mode
    variables are written, the walls are redone when the view flag flips,
    and the four per-frame updates follow in order. *)
Lemma updateCameraWith_stages (p : R) (now : Z) (cam : Camera) (s : State) :
  camera s = Some cam -> FOV_ORTHO <= fov cam <= FOV_PERSPECTIVE ->
  exists newAlpha target s2,
    alphaHandling (transitionProgressOf p) (alpha cam)
                  (lastTransitionProgress s) (transitionTargetAlpha s)
    = Some (newAlpha, target) /\
    updateCameraWith p now cam s
    = Returned (idleRotation p now
                  (updateFurnitureFade p
                     (updateSunPathTransition p (updateEntranceParent s2)))) /\
    camera s2 = Some (mkCamera newAlpha (newBetaOf p cam) (newRadiusOf p cam)
                               (newFovOf p cam) (newBetaOf p cam) (newBetaOf p cam)
                               (newRadiusOf p cam) (newRadiusOf p cam)
                               (Rmax 0.1 (newRadiusOf p cam * 0.01))) /\
    isOrthoView s2 = orthoAt p /\
    lastTransitionProgress s2 = transitionProgressOf p /\
    isToggleMode s2 = isToggleMode s /\
    currentFurnitureIndex s2 = currentFurnitureIndex s /\
    furnitureSets s2 = furnitureSets s /\
    sunView s2 = sunView s /\ materialView s2 = materialView s /\
    entranceView s2 = entranceView s /\ lastQuadrant s2 = lastQuadrant s /\
    sunPathTitle s2 = sunPathTitle s /\
    (orthoAt p = isOrthoView s -> wallMeshes s2 = wallMeshes s) /\
    (orthoAt p <> isOrthoView s ->
     forall d, wallGroup d (wallMeshes s2)
               = map (setEnabled (specWallVisible (orthoAt p) (isToggleMode s)
                                    (getQuadrant newAlpha) d))
                     (wallGroup d (wallMeshes s))).
Proof.
  intros Hcam Hfov.
  destruct (alphaHandling_Some (transitionProgressOf p) (alpha cam)
              (lastTransitionProgress s) (transitionTargetAlpha s))
    as (newAlpha & target & Halpha).
  exists newAlpha, target.
  unfold updateCameraWith. rewrite Halpha.
  fold (newFovOf p cam). fold (newBetaOf p cam).
  pose proof (tan_half_fov_pos _ (newFovOf_range p cam Hfov)) as Htan.
  rewrite js_div_nonzero by lra.
  fold (newRadiusOf p cam). fold (orthoAt p).
  cbv zeta.
  match goal with
  | |- context [set_isOrthoView ?b ?s0] => set (s1 := set_isOrthoView b s0)
  end.
  change (isOrthoView s1) with (orthoAt p).
  match goal with
  | |- context [Bool.eqb (orthoAt p) ?w] => change w with (isOrthoView s)
  end.
  destruct (Bool.eqb (orthoAt p) (isOrthoView s)) eqn:Hsame.
  - apply eqb_prop in Hsame. exists s1. split; [reflexivity |].
    split; [reflexivity |]. repeat split. intros Hne. contradiction.
  - apply eqb_false_iff in Hsame.
    destruct (updateWallVisibilityForMode_camera s1 _ eq_refl) as (s2 & Hret).
    destruct (views_updateWallVisibilityForMode s1 s2 Hret)
      as (Hcore & Hf & Hsun & Hmat & Hent & Hq & Htitle & Hwalls).
    exists s2. rewrite Hret. split; [reflexivity |]. split; [reflexivity |].
    unfold core in Hcore. injection Hcore as Hc Ho Ht Hi Hta Hl Hti Hid.
    rewrite Hc, Ho, Hl, Ht, Hi, Hf, Hsun, Hmat, Hent, Hq, Htitle.
    repeat split.
    + intros Heq. contradiction.
    + intros _ d. rewrite Hwalls. reflexivity.
Qed.

(** ** The scene invariants hold in every reachable state *)

Lemma updateFurnitureFade_original (p : R) (s : State) (k : FurnitureKey) :
  map _originalScaling (furnitureSet k (furnitureSets (updateFurnitureFade p s)))
  = map _originalScaling (furnitureSet k (furnitureSets s)).
Proof.
  unfold updateFurnitureFade.
  destruct (negb (isToggleMode s)); [reflexivity |].
  destruct (currentOption s) as [key |]; [| reflexivity]. simpl.
  destruct key, k; simpl; try reflexivity; rewrite map_map; apply map_ext;
    intros m; break_match; reflexivity.
Qed.

Lemma updateFurnitureVisibility_original (s : State) (k : FurnitureKey) :
  map _originalScaling (furnitureSet k (furnitureSets (updateFurnitureVisibility s)))
  = map _originalScaling (furnitureSet k (furnitureSets s)).
Proof.
  unfold updateFurnitureVisibility, hideAllFurniture.
  destruct (negb (isToggleMode s)); simpl; rewrite forEachFurniture_set, map_map;
    apply map_ext; intros m; reflexivity.
Qed.

Lemma scalingInv_map (s s' : State) :
  (forall k, map _originalScaling (furnitureSet k (furnitureSets s'))
             = map _originalScaling (furnitureSet k (furnitureSets s))) ->
  scalingInv s -> scalingInv s'.
Proof.
  intros Hmap Hinv k. specialize (Hmap k). specialize (Hinv k).
  revert Hmap Hinv.
  generalize (furnitureSet k (furnitureSets s)) (furnitureSet k (furnitureSets s')).
  intros l. induction l as [| m l IH]; intros [| m' l'] Hmap Hinv;
    try discriminate; constructor.
  - simpl in Hmap. injection Hmap as Hm _. rewrite Hm.
    now inversion Hinv.
  - simpl in Hmap. injection Hmap as _ Hl. apply IH; [assumption |].
    now inversion Hinv.
Qed.

Lemma wallsInv_eq (s s' : State) :
  isOrthoView s' = isOrthoView s -> wallMeshes s' = wallMeshes s ->
  wallsInv s -> wallsInv s'.
Proof. unfold wallsInv. now intros -> ->. Qed.

Lemma modeInv_eq (s s' : State) :
  isOrthoView s' = isOrthoView s ->
  lastTransitionProgress s' = lastTransitionProgress s ->
  modeInv s -> modeInv s'.
Proof. unfold modeInv. now intros -> ->. Qed.

Lemma sunInv_eq (s s' : State) : sunView s' = sunView s -> sunInv s -> sunInv s'.
Proof.
  unfold sunView, sunInv. intros H. injection H as -> -> -> -> ->. auto.
Qed.

Lemma materialInv_eq (s s' : State) :
  materialView s' = materialView s -> materialInv s -> materialInv s'.
Proof.
  unfold materialView, materialInv. intros H. injection H as -> -> -> -> -> ->. auto.
Qed.

Lemma scalingInv_eq (s s' : State) :
  furnitureSets s' = furnitureSets s -> scalingInv s -> scalingInv s'.
Proof. unfold scalingInv. now intros ->. Qed.

Lemma betaInv_eq (s s' : State) : camera s' = camera s -> betaInv s -> betaInv s'.
Proof. unfold betaInv. now intros ->. Qed.

Lemma sunBlendFactorOf_bounds (p : R) : 0 <= sunBlendFactorOf p <= 1.
Proof.
  unfold sunBlendFactorOf. destruct (Rge_dec p 0.66); [| lra].
  apply clamp_bounds. lra.
Qed.

Lemma blended_factor (base : Vector3) (sampler : Z) (t t' : R)
                     (f : ProceduralTexture -> ProceduralTexture)
                     (tex : option ProceduralTexture) :
  (forall x, baseColor (f x) = baseColor x /\ sunSampler (f x) = sunSampler x /\
             blendFactor (f x) = t') ->
  blended base sampler t tex -> blended base sampler t' (option_map f tex).
Proof.
  intros Hf (x & -> & Hb & Hs & _). exists (f x).
  destruct (Hf x) as (H1 & H2 & H3). rewrite H1, H2, H3. auto.
Qed.

Lemma updateSunPathTransition_textures (p : R) (s : State) :
  exists f : ProceduralTexture -> ProceduralTexture,
    (forall x, baseColor (f x) = baseColor x /\ sunSampler (f x) = sunSampler x /\
               blendFactor (f x) = sunBlendFactorOf p) /\
    blendedTextureWhite (updateSunPathTransition p s)
    = option_map f (blendedTextureWhite s) /\
    blendedTextureAccent (updateSunPathTransition p s)
    = option_map f (blendedTextureAccent s) /\
    blendedTextureAccent2 (updateSunPathTransition p s)
    = option_map f (blendedTextureAccent2 s).
Proof.
  unfold updateSunPathTransition. cbv zeta.
  destruct (Req_dec_T (sunBlendFactorOf p) 0).
  - exists (setBlendFactor (sunBlendFactorOf p)). repeat split.
  - exists (fun x => setCoordinatesIndex 0 (setBlendFactor (sunBlendFactorOf p) x)).
    split; [repeat split |]. simpl.
    destruct (blendedTextureWhite s), (blendedTextureAccent s),
      (blendedTextureAccent2 s); repeat split.
Qed.

Lemma sunInv_updateSunPathTransition (p : R) (s : State) :
  sunInv s -> sunInv (updateSunPathTransition p s).
Proof.
  destruct (views_updateSunPathTransition p s)
    as (_ & _ & _ & Hn & Hi & _). cbv zeta in *.
  destruct (updateSunPathTransition_textures p s) as (f & Hf & Hw & Ha & Ha2).
  unfold sunInv. rewrite Hn, Hi, Hw, Ha, Ha2.
  intros [(H1 & H2 & -> & -> & ->) | (H1 & H2 & sampler & t & Hs & Ht & Bw & Ba & Ba2)].
  - left. auto.
  - right. split; [assumption |]. split; [assumption |].
    exists sampler, (sunBlendFactorOf p). split; [assumption |].
    split; [apply sunBlendFactorOf_bounds |].
    split; [| split]; eapply blended_factor; eassumption.
Qed.

Lemma materialInv_updateSunPathTransition (p : R) (s : State) :
  materialInv s -> materialInv (updateSunPathTransition p s).
Proof.
  destruct (views_updateSunPathTransition p s)
    as (_ & _ & _ & _ & _ & O1 & O2 & O3 & _ & _ & _ & M1 & M2 & M3).
  cbv zeta in *. unfold materialInv. rewrite O1, O2, O3.
  intros (H1 & H2 & H3). repeat split; intros H.
  - apply H1. intros E. apply H. now apply M1.
  - apply H2. intros E. apply H. now apply M2.
  - apply H3. intros E. apply H. now apply M3.
Qed.

Lemma materialInv_updateAccentEmission (b : bool) (s : State) :
  materialInv s -> materialInv (updateAccentEmission b s).
Proof.
  destruct (views_updateAccentEmission b s)
    as (_ & _ & _ & _ & W & O1 & O2 & O3 & M1 & M2).
  cbv zeta in *. unfold materialInv. rewrite O1, O2, O3, W.
  intros (H1 & H2 & H3). repeat split; intros H.
  - apply H1. intros E. apply H. now apply M1.
  - apply H2. intros E. apply H. now apply M2.
  - now apply H3.
Qed.

Lemma sunInv_updateSunTexture (index : Z) (s : State) :
  sunInv s -> sunInv (updateSunTexture index s).
Proof.
  unfold updateSunTexture.
  destruct ((index <? 0)%Z || (index >=? sunTextures s)%Z) eqn:Hout; [auto |].
  apply orb_false_iff in Hout. destruct Hout as [Hlo Hhi].
  apply Z.ltb_ge in Hlo. rewrite Z.geb_leb in Hhi. apply Z.leb_gt in Hhi.
  unfold sunInv. simpl.
  intros [(H1 & _) | (H1 & H2 & sampler & t & Hs & Ht & Bw & Ba & Ba2)]; [lia |].
  right. split; [assumption |]. split; [lia |].
  exists index, t. split; [now right |]. split; [assumption |].
  destruct Bw as (x & -> & Hb & _ & Hbf). destruct Ba as (y & -> & Hb' & _ & Hbf').
  destruct Ba2 as (z & -> & Hb'' & _ & Hbf'').
  split; [| split]; eexists; (split; [reflexivity |]); simpl; auto.
Qed.

Lemma sunInv_sliderInput (v : Z) (s : State) : sunInv s -> sunInv (sliderInput v s).
Proof.
  intros H. unfold sliderInput.
  apply (sunInv_eq (updateSunTexture (v - 1) s)); [| now apply sunInv_updateSunTexture].
  unfold updateSunPathTitle. destruct (sunPathTitle _); reflexivity.
Qed.

Lemma allEnabled_hidden (toggle : bool) (quadrant : nat) (d : Dir) (meshes : list Mesh) :
  allEnabled false (map (setEnabled (specWallVisible true toggle quadrant d)) meshes).
Proof. apply allEnabled_setEnabled. Qed.

Lemma BETA_order : BETA_TOP_DOWN < BETA_ANGLED.
Proof. pose proof PI_gt_3. unfold BETA_TOP_DOWN, BETA_ANGLED. lra. Qed.

Lemma newBetaOf_range (p : R) (cam : Camera) :
  BETA_TOP_DOWN <= beta cam <= BETA_ANGLED ->
  BETA_TOP_DOWN <= newBetaOf p cam <= BETA_ANGLED.
Proof.
  intros H. pose proof (transitionProgressOf_bounds p) as Ht.
  pose proof BETA_order as Ho.
  unfold newBetaOf, lerp.
  set (tp := transitionProgressOf p) in *.
  set (lo := BETA_TOP_DOWN) in *. set (hi := BETA_ANGLED) in *.
  split; nra.
Qed.

Lemma tan_half_fov_monotone (x y : R) :
  FOV_ORTHO <= x -> x <= y -> y <= FOV_PERSPECTIVE -> tan (x / 2) <= tan (y / 2).
Proof.
  unfold FOV_ORTHO, FOV_PERSPECTIVE. intros Hx Hxy Hy. pose proof PI_gt_3.
  destruct (Req_dec x y) as [-> | Hne]; [lra |].
  left. apply tan_increasing; lra.
Qed.

(** The radius that keeps the apparent size lies between the perspective
    radius and the initial one. *)
Lemma radius_bounds (x : R) :
  FOV_ORTHO <= x <= FOV_PERSPECTIVE ->
  RADIUS_PERSPECTIVE <= APPARENT_SIZE_CONSTANT / tan (x / 2)
  <= APPARENT_SIZE_CONSTANT / tan (FOV_ORTHO / 2).
Proof.
  intros Hx.
  assert (Hr : FOV_ORTHO <= FOV_PERSPECTIVE) by lra.
  pose proof (tan_half_fov_pos x Hx) as Ht.
  pose proof (tan_half_fov_pos FOV_ORTHO (conj (Rle_refl _) Hr)) as Ht0.
  pose proof (tan_half_fov_monotone x FOV_PERSPECTIVE (proj1 Hx) (proj2 Hx) (Rle_refl _))
    as Hup.
  pose proof (tan_half_fov_monotone FOV_ORTHO x (Rle_refl _) (proj1 Hx) (proj2 Hx))
    as Hlo.
  unfold APPARENT_SIZE_CONSTANT, RADIUS_PERSPECTIVE.
  set (T := tan (FOV_PERSPECTIVE / 2)) in *. set (t := tan (x / 2)) in *.
  set (t0 := tan (FOV_ORTHO / 2)) in *.
  assert (H1 : 30 * T / t * t = 30 * T) by (field; lra).
  assert (H0 : 30 * T / t0 * t0 = 30 * T) by (field; lra).
  set (q := 30 * T / t) in *. set (q0 := 30 * T / t0) in *.
  split.
  - destruct (Rle_or_lt 30 q); [assumption | exfalso; nra].
  - destruct (Rle_or_lt q q0); [assumption | exfalso].
    assert (0 < q0) by (destruct (Rle_or_lt q0 0); [exfalso; nra | assumption]).
    nra.
Qed.

Lemma newRadiusOf_bounds (p : R) (cam : Camera) :
  FOV_ORTHO <= fov cam <= FOV_PERSPECTIVE ->
  RADIUS_PERSPECTIVE <= newRadiusOf p cam
  <= APPARENT_SIZE_CONSTANT / tan (FOV_ORTHO / 2).
Proof. intros H. apply radius_bounds. now apply newFovOf_range. Qed.

Lemma sceneInv_initial (now : Z) (title : option string) :
  sceneInv (initialState now title).
Proof.
  unfold sceneInv. split; [| split; [| split; [| split; [| split]]]].
  - intros _ []; constructor.
  - unfold modeInv, ORTHO_THRESHOLD. simpl. split; [lra |]. split; [lra | reflexivity].
  - left. repeat split.
  - repeat split; intros H; now elim H.
  - intros []; constructor.
  - intros cam H. discriminate.
Qed.

Lemma sceneInv_createSceneSetup (s : State) :
  sceneInv s -> sceneInv (createSceneSetup s).
Proof.
  intros (Hw & Hm & Hs & Hmat & Hsc & Hb).
  split; [| split; [| split; [| split; [| split]]]].
  - exact Hw.
  - exact Hm.
  - right. simpl. split; [reflexivity |]. split; [lia |].
    exists 13%Z, 0. split; [now left |]. split; [lra |].
    split; [| split]; eexists; (split; [reflexivity |]); simpl;
      (split; [| split; [reflexivity | lra]]);
      unfold ACCENT_EMISSION_COLOR, ACCENT_2_EMISSION_COLOR;
      repeat (f_equal; try lra).
  - exact Hmat.
  - exact Hsc.
  - intros cam H. unfold createSceneSetup in H. simpl in H. injection H as <-.
    simpl. pose proof BETA_order.
    split; [lra |]. split; [reflexivity |]. split; [reflexivity |]. now left.
Qed.

Lemma materialInv_categorize (l : list ImportedMesh) (s : State) :
  materialInv s -> materialInv (fold_left categorize l s).
Proof.
  destruct (fold_categorize_materials l s) as (A1 & A2 & A3 & O1 & O2 & O3).
  cbv zeta in *. unfold materialInv. rewrite A1, A2, A3, O1, O2, O3.
  intros (H1 & H2 & H3). unfold originalEmissive.
  destruct (accentMaterial s) as [a1 |], (accent2Material s) as [a2 |],
    (whiteMaterial s) as [a3 |],
    (firstNamed Accent l) as [m1 |], (firstNamed Accent_2 l) as [m2 |],
    (firstNamed White l) as [m3 |]; simpl;
    repeat split; intros H; auto;
    try (now elim H);
    try (destruct (emissiveColor m1); discriminate);
    try (destruct (emissiveColor m2); discriminate);
    try (destruct (emissiveColor m3); discriminate).
Qed.

Lemma sceneInv_modelLoaded (r : ModelImport) (s : State) :
  sceneInv s -> sceneInv (modelLoaded r s).
Proof.
  intros Hinv. destruct (camera s) as [cam |] eqn:Hcam;
    [| now rewrite modelLoaded_no_camera].
  destruct Hinv as (Hw & Hm & Hs & Hmat & Hsc & Hb).
  destruct (core_modelLoaded r s) as [Hcore Hf].
  unfold core in Hcore. injection Hcore as Hc Ho Ht Hi Hta Hl Hti Hid.
  destruct (modelLoaded_stages r s cam Hcam) as (Vm & Vs & _ & _ & Vw & _).
  cbv zeta in *.
  destruct (views_categorize (im_meshes r) s) as (Cs & _). cbv zeta in *.
  split; [| split; [| split; [| split; [| split]]]].
  - intros _ d. rewrite Vw, hideAllWalls_group. apply allEnabled_setEnabled.
  - now apply (modeInv_eq s).
  - apply (sunInv_eq s); [congruence | assumption].
  - apply (materialInv_eq (fold_left categorize (im_meshes r) s)); [assumption |].
    now apply materialInv_categorize.
  - now apply (scalingInv_eq s).
  - now apply (betaInv_eq s).
Qed.

Lemma sceneInv_furnitureLoaded (key : FurnitureKey) (meshes : list Mesh) (s : State) :
  sceneInv s -> sceneInv (furnitureLoaded key meshes s).
Proof.
  intros (Hw & Hm & Hs & Hmat & Hsc & Hb).
  destruct (core_furnitureLoaded key meshes s) as [Hcore Hwalls].
  unfold core in Hcore. injection Hcore as Hc Ho Ht Hi Hta Hl Hti Hid.
  destruct (views_storeFurniture key meshes s) as (Vs & Vm & _). cbv zeta in *.
  split; [| split; [| split; [| split; [| split]]]].
  - now apply (wallsInv_eq s).
  - now apply (modeInv_eq s).
  - now apply (sunInv_eq s).
  - now apply (materialInv_eq s).
  - intros k.
    destruct (furniture_load_stored_parts key k meshes s) as [-> Hall].
    apply Forall_app. split; [apply Hsc |].
    destruct (FurnitureKey_eqb k key); [| constructor].
    eapply Forall_impl; [| exact Hall]. intros m (_ & _ & H). exact H.
  - now apply (betaInv_eq s).
Qed.

Lemma sceneInv_updateCameraWith (p : R) (now : Z) (cam : Camera) (s s' : State) :
  cameraInv s -> sceneInv s -> camera s = Some cam ->
  updateCameraWith p now cam s = Returned s' -> sceneInv s'.
Proof.
  intros Icam (Hw & Hm & Hs & Hmat & Hsc & Hb) Hcam Hret.
  destruct (Icam cam Hcam) as [Hfov _].
  destruct (updateCameraWith_stages p now cam s Hcam Hfov)
    as (a & t & s2 & _ & Hret2 & Hc2 & Ho2 & Hl2 & Ht2 & Hi2 & Hf2 & Hs2 & Hm2 & _ & _
        & _ & Hsame & Hflip).
  rewrite Hret in Hret2. injection Hret2 as ->.
  destruct (core_updateEntranceParent s2) as (Ca & Fa & Wa).
  destruct (views_updateEntranceParent s2) as (Sa & Ma & _).
  remember (updateEntranceParent s2) as sa eqn:Esa.
  destruct (core_updateSunPathTransition p sa) as (Cb & Fb & Wb).
  pose proof (sunInv_updateSunPathTransition p sa) as Sb.
  pose proof (materialInv_updateSunPathTransition p sa) as Mb.
  remember (updateSunPathTransition p sa) as sb eqn:Esb.
  destruct (core_updateFurnitureFade p sb) as (Cc & Wc).
  destruct (views_updateFurnitureFade p sb) as (Sc & Mc & _).
  pose proof (updateFurnitureFade_original p sb) as Oc.
  cbv zeta in *.
  remember (updateFurnitureFade p sb) as sc eqn:Esc.
  destruct (views_idleRotation p now sc) as (Sd & Md & _).
  destruct (idleRotation_spec p now sc)
    as (Dcam & _ & Do & _ & _ & _ & Dl & _ & Df & Dw).
  cbv zeta in *.
  assert (Hcore : core sc = core s2) by congruence.
  unfold core in Hcore. injection Hcore as Ec Eo Et Ei Eta El Eti Eid.
  split; [| split; [| split; [| split; [| split]]]].
  - intros Hortho d. rewrite Do, Eo, Ho2 in Hortho.
    rewrite Dw, Wc, Wb, Wa.
    destruct (isOrthoView s) eqn:Hos.
    + rewrite Hsame by assumption. now apply Hw.
    + rewrite Hflip by congruence. rewrite Hortho. apply allEnabled_hidden.
  - unfold modeInv. rewrite Do, Dl, Eo, El, Ho2, Hl2.
    pose proof (transitionProgressOf_bounds p) as Hb01.
    split; [assumption |]. unfold orthoAt, ORTHO_THRESHOLD.
    destruct (Rlt_dec (transitionProgressOf p) 0.1); split; intros H;
      try assumption; try reflexivity; try discriminate; contradiction.
  - apply (sunInv_eq sb); [congruence |]. apply Sb.
    apply (sunInv_eq s); [congruence | assumption].
  - apply (materialInv_eq sb); [congruence |]. apply Mb.
    apply (materialInv_eq s); [congruence | assumption].
  - apply (scalingInv_map sb).
    + intros k. rewrite Df. apply Oc.
    + apply (scalingInv_eq s); [congruence | assumption].
  - intros cam' Hcam'. rewrite Dcam, Ec, Hc2 in Hcam'.
    destruct (Hb cam Hcam) as (Hrange & _).
    pose proof (newBetaOf_range p cam Hrange) as Hnew.
    pose proof (newRadiusOf_bounds p cam Hfov) as Hrad.
    unfold RADIUS_PERSPECTIVE in Hrad.
    assert (Hmin : Rmax 0.1 (newRadiusOf p cam * 0.01) = newRadiusOf p cam * 0.01)
      by (apply Rmax_right; lra).
    destruct (idleNow p now sc); simpl in Hcam'; injection Hcam' as <-; simpl;
      (split; [assumption |]); (split; [reflexivity |]); (split; [reflexivity |]);
      right; exact Hmin.
Qed.

Lemma render_scene (dAlpha : R) (s : State) :
  sunView (render dAlpha s) = sunView s /\
  materialView (render dAlpha s) = materialView s /\
  (isOrthoView s = true -> wallMeshes (render dAlpha s) = wallMeshes s).
Proof.
  unfold render. destruct (camera s) as [cam |] eqn:Hcam; [| repeat split].
  cbv zeta.
  match goal with
  | |- context [updateEntranceParent ?s2] => set (s3 := s2)
  end.
  destruct (views_updateEntranceParent s3) as (Vs & Vm & _).
  destruct (core_updateEntranceParent s3) as (_ & _ & Vw).
  rewrite Vs, Vm, Vw. subst s3.
  destruct (negb _); [| repeat split]. simpl.
  destruct (isToggleMode s), (isOrthoView s); simpl; repeat split;
    intros H; discriminate.
Qed.

Lemma sceneInv_render (dAlpha : R) (s : State) :
  sceneInv s -> sceneInv (render dAlpha s).
Proof.
  intros (Hw & Hm & Hs & Hmat & Hsc & Hb).
  destruct (render_spec dAlpha s)
    as (Hc & Hn & Ho & Ht & Hi & Hta & Hl & _ & _ & Hf).
  destruct (render_scene dAlpha s) as (Vs & Vm & Vw).
  split; [| split; [| split; [| split; [| split]]]].
  - intros Hortho. rewrite Ho in Hortho. rewrite Vw by assumption. now apply Hw.
  - now apply (modeInv_eq s).
  - now apply (sunInv_eq s).
  - now apply (materialInv_eq s).
  - now apply (scalingInv_eq s).
  - intros cam' Hcam'. rewrite Hc in Hcam'.
    destruct (camera s) as [cam |] eqn:Hcam; [| discriminate].
    injection Hcam' as <-. simpl. exact (Hb cam Hcam).
Qed.

Lemma sceneInv_updateFurnitureVisibility (s : State) :
  sceneInv s -> sceneInv (updateFurnitureVisibility s).
Proof.
  intros (Hw & Hm & Hs & Hmat & Hsc & Hb).
  destruct (core_updateFurnitureVisibility s) as [Hcore Hwalls].
  unfold core in Hcore. injection Hcore as Hc Ho Ht Hi Hta Hl Hti Hid.
  destruct (views_updateFurnitureVisibility s) as (Vs & Vm & _). cbv zeta in *.
  split; [| split; [| split; [| split; [| split]]]].
  - now apply (wallsInv_eq s).
  - now apply (modeInv_eq s).
  - now apply (sunInv_eq s).
  - now apply (materialInv_eq s).
  - apply (scalingInv_map s); [| assumption].
    apply updateFurnitureVisibility_original.
  - now apply (betaInv_eq s).
Qed.

Lemma sceneInv_toggle (s s' : State) :
  loadInv s -> sceneInv s -> step s Pick = Some s' -> sceneInv s'.
Proof.
  intros Hload (Hw & Hm & Hs & Hmat & Hsc & Hb) Hstep.
  simpl in Hstep. unfold toggleMode in Hstep. cbv zeta in Hstep.
  set (s1 := set_isToggleMode (negb (isToggleMode s)) s) in *.
  set (s2 := updateAccentEmission (isToggleMode s1) s1) in *.
  destruct (core_updateAccentEmission (isToggleMode s1) s1) as (C2 & F2 & W2).
  destruct (views_updateAccentEmission (isToggleMode s1) s1) as (S2 & _).
  cbv zeta in *. fold s2 in C2, F2, W2, S2.
  unfold core in C2. injection C2 as Ec Eo Et Ei Eta El Eti Eid.
  assert (Hinv2 : sceneInv s2).
  { split; [| split; [| split; [| split; [| split]]]].
    - now apply (wallsInv_eq s).
    - now apply (modeInv_eq s).
    - now apply (sunInv_eq s).
    - apply materialInv_updateAccentEmission. now apply (materialInv_eq s).
    - now apply (scalingInv_eq s).
    - now apply (betaInv_eq s). }
  destruct (updateWallVisibilityForMode s2) as [s3 | s3 |] eqn:Hret.
  - injection Hstep as <-. apply sceneInv_updateFurnitureVisibility.
    destruct (views_updateWallVisibilityForMode s2 s3 Hret)
      as (C3 & F3 & S3 & M3 & _ & _ & _ & W3).
    unfold core in C3. injection C3 as Gc Go Gt Gi Gta Gl Gti Gid.
    destruct Hinv2 as (Hw2 & Hm2 & Hs2 & Hmat2 & Hsc2 & Hb2).
    split; [| split; [| split; [| split; [| split]]]].
    + intros Hortho d. rewrite Go in Hortho. rewrite W3, Hortho.
      apply allEnabled_hidden.
    + now apply (modeInv_eq s2).
    + now apply (sunInv_eq s2).
    + now apply (materialInv_eq s2).
    + now apply (scalingInv_eq s2).
    + now apply (betaInv_eq s2).
  - injection Hstep as <-.
    unfold updateWallVisibilityForMode in Hret.
    destruct (isOrthoView s2) eqn:Ho2; [discriminate |].
    destruct (isToggleMode s2); [| discriminate].
    destruct (camera s2) eqn:Hc2; [discriminate |].
    injection Hret as <-. exact Hinv2.
  - discriminate.
Qed.

Lemma sceneInv_cycle (s : State) : sceneInv s -> sceneInv (cycleFurniture s).
Proof.
  intros (Hw & Hm & Hs & Hmat & Hsc & Hb). unfold cycleFurniture. cbv zeta.
  apply sceneInv_updateFurnitureVisibility.
  split; [| split; [| split; [| split; [| split]]]]; assumption.
Qed.

Lemma sceneInv_sliderInput (v : Z) (s : State) :
  sceneInv s -> sceneInv (sliderInput v s).
Proof.
  intros (Hw & Hm & Hs & Hmat & Hsc & Hb).
  destruct (core_sliderInput v s) as (Hcore & Hf & Hwalls).
  unfold core in Hcore. injection Hcore as Hc Ho Ht Hi Hta Hl Hti Hid.
  destruct (views_sliderInput v s) as (Vm & _). cbv zeta in *.
  split; [| split; [| split; [| split; [| split]]]].
  - now apply (wallsInv_eq s).
  - now apply (modeInv_eq s).
  - now apply sunInv_sliderInput.
  - now apply (materialInv_eq s).
  - now apply (scalingInv_eq s).
  - now apply (betaInv_eq s).
Qed.

Lemma sceneInv_step (s s' : State) (e : Event) :
  stateInv s -> sceneInv s -> step s e = Some s' -> sceneInv s'.
Proof.
  intros Hst Hinv Hstep. destruct e.
  - injection Hstep as <-. now apply sceneInv_createSceneSetup.
  - injection Hstep as <-. now apply sceneInv_modelLoaded.
  - injection Hstep as <-. now apply sceneInv_furnitureLoaded.
  - destruct (frame_cases env s s' (proj1 Hst) Hstep)
      as [[-> _] | (cam & w & p & Hcam & _ & _ & Hret)]; [assumption |].
    eapply sceneInv_updateCameraWith; try eassumption. exact (proj1 Hst).
  - injection Hstep as <-. now apply sceneInv_render.
  - injection Hstep as <-. exact Hinv.
  - eapply sceneInv_toggle; try eassumption. exact (proj1 (proj2 (proj2 Hst))).
  - injection Hstep as <-. now apply sceneInv_cycle.
  - injection Hstep as <-. now apply sceneInv_sliderInput.
Qed.

Lemma reachable_sceneInv (s : State) : reachable s -> sceneInv s.
Proof.
  intros Hr.
  enough (H : stateInv s /\ sceneInv s) by exact (proj2 H).
  revert s Hr. apply reachable_invariant.
  - intros now title. split; [apply stateInv_initial | apply sceneInv_initial].
  - intros s e s' [Hst Hsc] Hstep. split.
    + eapply stateInv_step; eassumption.
    + eapply sceneInv_step; eassumption.
Qed.

(** ** What holds of the scene in every reachable state *)

Lemma step_ModelLoaded (r : ModelImport) (s : State) :
  step s (ModelLoaded r) = Some (modelLoaded r s).
Proof. reflexivity. Qed.

Lemma step_FurnitureLoaded (key : FurnitureKey) (meshes : list Mesh) (s : State) :
  step s (FurnitureLoaded key meshes) = Some (furnitureLoaded key meshes s).
Proof. reflexivity. Qed.

Lemma sampleLoaded_reachable : reachable sampleLoaded.
Proof.
  exact (reachable_step sampleScene sampleLoaded (ModelLoaded sampleImport)
           sampleScene_reachable (step_ModelLoaded sampleImport sampleScene)).
Qed.

Lemma sampleLoaded_ortho : isOrthoView sampleLoaded = true.
Proof.
  unfold sampleLoaded.
  destruct (core_modelLoaded sampleImport sampleScene) as [Hc _].
  unfold core in Hc. injection Hc as _ Ho _ _ _ _ _ _.
  rewrite Ho. reflexivity.
Qed.

Lemma sampleLoaded_accent :
  accentMaterial sampleLoaded = Some (mkMaterial None None None).
Proof.
  unfold sampleLoaded.
  destruct (modelLoaded_stages sampleImport sampleScene sampleCamera eq_refl)
    as (Hm & _).
  cbv zeta in Hm. unfold materialView in Hm. injection Hm as Ha _ _ _ _ _.
  rewrite Ha. reflexivity.
Qed.

(** X14.  In every reachable state with the top-down view flag set, no
    wall mesh of any group is enabled: whatever order the model, the
    frames, the picks and the pointer input came in. *)
Theorem ortho_view_hides_walls (s : State) :
  reachable s -> isOrthoView s = true ->
  forall d, allEnabled false (wallGroup d (wallMeshes s)).
Proof.
  intros Hr. destruct (reachable_sceneInv s Hr) as (Hw & _). exact Hw.
Qed.

Lemma ortho_view_hides_walls_witness :
  allEnabled false (wallGroup North (wallMeshes sampleLoaded)).
Proof.
  apply (ortho_view_hides_walls sampleLoaded).
  - exact sampleLoaded_reachable.
  - exact sampleLoaded_ortho.
Defined.

(** X16.  In every reachable state the sun-path objects are consistent.
    Before the scene setup there are no sun images and no blended texture.
    After it there are forty images, the current index is one of them, and
    the three blended textures exist and show one common image (image 13
    of the setup, or the one of the current index) at one common blend
    factor in [[0, 1]], each over its own base color: white, the accent
    color and the second accent color. *)
Theorem sun_textures_in_step (s : State) :
  reachable s ->
  (sunTextures s = 0%Z /\ currentSunTextureIndex s = 0%Z /\
   blendedTextureWhite s = None /\ blendedTextureAccent s = None /\
   blendedTextureAccent2 s = None) \/
  (sunTextures s = 40%Z /\ (0 <= currentSunTextureIndex s < 40)%Z /\
   exists sampler t,
     (sampler = 13%Z \/ sampler = currentSunTextureIndex s) /\ 0 <= t <= 1 /\
     blended (1, 1, 1) sampler t (blendedTextureWhite s) /\
     blended ACCENT_EMISSION_COLOR sampler t (blendedTextureAccent s) /\
     blended ACCENT_2_EMISSION_COLOR sampler t (blendedTextureAccent2 s)).
Proof.
  intros Hr. destruct (reachable_sceneInv s Hr) as (_ & _ & Hs & _). exact Hs.
Qed.

Lemma sun_textures_in_step_witness :
  (sunTextures sampleScene = 0%Z /\ currentSunTextureIndex sampleScene = 0%Z /\
   blendedTextureWhite sampleScene = None /\ blendedTextureAccent sampleScene = None /\
   blendedTextureAccent2 sampleScene = None) \/
  (sunTextures sampleScene = 40%Z /\ (0 <= currentSunTextureIndex sampleScene < 40)%Z /\
   exists sampler t,
     (sampler = 13%Z \/ sampler = currentSunTextureIndex sampleScene) /\ 0 <= t <= 1 /\
     blended (1, 1, 1) sampler t (blendedTextureWhite sampleScene) /\
     blended ACCENT_EMISSION_COLOR sampler t (blendedTextureAccent sampleScene) /\
     blended ACCENT_2_EMISSION_COLOR sampler t (blendedTextureAccent2 sampleScene)).
Proof.
  apply (sun_textures_in_step sampleScene). exact sampleScene_reachable.
Defined.

(** X17.  In every reachable state a material global that is set has its
    original emissive color captured, so switching the accent emission off
    always writes that color back: the inner guard of
    [updateAccentEmission] never skips a known material. *)
Theorem originals_captured (s : State) :
  reachable s ->
  (forall m, accentMaterial s = Some m ->
     exists c, originalAccentEmissive s = Some c /\
               accentMaterial (updateAccentEmission false s)
               = Some (setEmissiveColor c m)) /\
  (forall m, accent2Material s = Some m ->
     exists c, originalAccent2Emissive s = Some c /\
               accent2Material (updateAccentEmission false s)
               = Some (setEmissiveColor c m)) /\
  (forall m, whiteMaterial s = Some m -> originalWhiteEmissive s <> None).
Proof.
  intros Hr. destruct (reachable_sceneInv s Hr) as (_ & _ & _ & (H1 & H2 & H3) & _).
  split; [| split].
  - intros m Hm. destruct (originalAccentEmissive s) as [c |] eqn:Hc.
    + exists c. split; [reflexivity |].
      destruct (accent2Material s) eqn:E1; destruct (originalAccent2Emissive s) eqn:E2;
        unfold updateAccentEmission;
        repeat (simpl; rewrite ?Hm, ?Hc, ?E1, ?E2); reflexivity.
    + exfalso. apply H1; [rewrite Hm; discriminate | reflexivity].
  - intros m Hm. destruct (originalAccent2Emissive s) as [c |] eqn:Hc.
    + exists c. split; [reflexivity |].
      destruct (accentMaterial s) eqn:E1; destruct (originalAccentEmissive s) eqn:E2;
        unfold updateAccentEmission;
        repeat (simpl; rewrite ?Hm, ?Hc, ?E1, ?E2); reflexivity.
    + exfalso. apply H2; [rewrite Hm; discriminate | reflexivity].
  - intros m Hm. apply H3. rewrite Hm. discriminate.
Qed.

Lemma originals_captured_witness :
  exists c, originalAccentEmissive sampleLoaded = Some c /\
            accentMaterial (updateAccentEmission false sampleLoaded)
            = Some (setEmissiveColor c (mkMaterial None None None)).
Proof.
  apply (proj1 (originals_captured sampleLoaded sampleLoaded_reachable)).
  exact sampleLoaded_accent.
Defined.

(** X18.  In every reachable state every mesh of every furniture set
    carries a remembered original scaling, so the fade and the visibility
    update always scale from it and never fall back to the current
    scaling. *)
Theorem furniture_scaling_remembered (s : State) :
  reachable s ->
  forall k mesh, In mesh (furnitureSet k (furnitureSets s)) ->
    exists v, _originalScaling mesh = Some v.
Proof.
  intros Hr k mesh Hin.
  destruct (reachable_sceneInv s Hr) as (_ & _ & _ & _ & Hsc & _).
  specialize (Hsc k). rewrite Forall_forall in Hsc. specialize (Hsc mesh Hin).
  destruct (_originalScaling mesh) as [v |]; [eauto | now elim Hsc].
Qed.

Lemma furniture_scaling_remembered_witness :
  exists v, _originalScaling (storedMesh loadedMesh) = Some v.
Proof.
  apply (furniture_scaling_remembered
           (furnitureLoaded Furniture1 [loadedMesh] sampleScene)
           (reachable_step sampleScene _ (FurnitureLoaded Furniture1 [loadedMesh])
              sampleScene_reachable
              (step_FurnitureLoaded Furniture1 [loadedMesh] sampleScene))
           Furniture1).
  destruct (furniture_load_stored_parts Furniture1 Furniture1 [loadedMesh] sampleScene)
    as [-> _].
  apply in_or_app. right. left. reflexivity.
Defined.

(** ** How a frame ends *)

Lemma scrollProgress_cases (w : Wrapper) (viewportHeight : R) :
  (exists p, scrollProgress w viewportHeight = Num p /\
             ~ (scrolledAmountOf w = 0 /\ scrollableDistanceOf w viewportHeight = 0)) \/
  (scrollProgress w viewportHeight = NaN /\
   scrolledAmountOf w = 0 /\ scrollableDistanceOf w viewportHeight = 0).
Proof.
  unfold scrollProgress, scrollProgressOf, scrolledAmountOf, scrollableDistanceOf, js_div.
  cbv zeta.
  destruct (Req_dec_T (offsetHeight w - viewportHeight) 0) as [Hd | Hd].
  - destruct (Rlt_dec 0 (- rect_top w)) as [Hpos | Hpos].
    + left. eexists. split; [reflexivity |]. intros [Ha _]. lra.
    + destruct (Rlt_dec (- rect_top w) 0) as [Hneg | Hneg].
      * left. eexists. split; [reflexivity |]. intros [Ha _]. lra.
      * right. split; [reflexivity |]. split; lra.
  - left. eexists. split; [reflexivity |]. intros [_ Hz]. contradiction.
Qed.

(** X20.  In a reachable state [updateCameraFromScroll] never throws.
    Without a camera or without the wrapper element it returns with
    nothing changed.  Otherwise it returns, except in one case: a wrapper
    exactly as high as the viewport with its top exactly at the viewport
    top, where the progress is 0/0 and the camera numbers stop being
    numbers. *)
Theorem frame_outcome (env : Env) (s : State) :
  reachable s ->
  (forall s', updateCameraFromScroll env s <> TypeError s') /\
  (camera s = None \/ wrapper env = None -> updateCameraFromScroll env s = Returned s) /\
  (updateCameraFromScroll env s = NonFinite <->
   camera s <> None /\
   exists w, wrapper env = Some w /\ scrolledAmountOf w = 0 /\
             scrollableDistanceOf w (innerHeight env) = 0).
Proof.
  intros Hr. destruct (reachable_stateInv s Hr) as (Icam & _).
  unfold updateCameraFromScroll.
  destruct (camera s) as [cam |] eqn:Hcam.
  - destruct (wrapper env) as [w |] eqn:Hw.
    + destruct (scrollProgress_cases w (innerHeight env))
        as [(p & Hp & Hnz) | (Hp & Ha & Hd)]; rewrite Hp.
      * destruct (Icam cam Hcam) as [Hfov _].
        destruct (updateCameraWith_returns p (Date_now env) cam s Hcam Hfov)
          as (a & t & s2 & _ & Hret & _).
        rewrite Hret. split; [discriminate |]. split; [intros [H | H]; discriminate |].
        split; [discriminate |].
        intros (_ & w' & Hw' & Ha & Hd). injection Hw' as <-. elim Hnz. auto.
      * split; [discriminate |]. split; [intros [H | H]; discriminate |].
        split; [| reflexivity]. intros _. split; [discriminate |]. exists w. auto.
    + split; [discriminate |]. split; [reflexivity |].
      split; [discriminate |]. intros (_ & w & Hw' & _). discriminate.
  - split; [discriminate |]. split; [reflexivity |].
    split; [discriminate |]. intros (H & _). now elim H.
Qed.

Lemma frame_outcome_witness :
  updateCameraFromScroll (mkEnv None 1000 0) sampleScene = Returned sampleScene.
Proof.
  destruct (frame_outcome (mkEnv None 1000 0) sampleScene sampleScene_reachable)
    as (_ & H & _).
  apply H. right. reflexivity.
Defined.

(** X21.  A frame in a reachable state with a camera and a numeric
    progress redoes the walls only when the view flag flips: when the flag
    the progress asks for is the one already set, every wall group is left
    exactly as it was; when it differs, every mesh of every group is
    enabled as the table says for the new flag, the toggle and the
    quadrant of the eased azimuth, taken before the idle rotation is
    added. *)
Theorem frame_walls (env : Env) (s : State) (cam : Camera) (w : Wrapper) (p : R) :
  reachable s -> camera s = Some cam -> wrapper env = Some w ->
  scrollProgress w (innerHeight env) = Num p ->
  exists newAlpha target s',
    alphaHandling (transitionProgressOf p) (alpha cam)
                  (lastTransitionProgress s) (transitionTargetAlpha s)
    = Some (newAlpha, target) /\
    updateCameraFromScroll env s = Returned s' /\
    isOrthoView s' = orthoAt p /\
    (orthoAt p = isOrthoView s -> wallMeshes s' = wallMeshes s) /\
    (orthoAt p <> isOrthoView s ->
     forall d, wallGroup d (wallMeshes s')
               = map (setEnabled (specWallVisible (orthoAt p) (isToggleMode s)
                                    (getQuadrant newAlpha) d))
                     (wallGroup d (wallMeshes s))).
Proof.
  intros Hr Hcam Hw Hp. destruct (reachable_stateInv s Hr) as (Icam & _).
  destruct (Icam cam Hcam) as [Hfov _].
  destruct (updateCameraWith_stages p (Date_now env) cam s Hcam Hfov)
    as (a & t & s2 & Halpha & Hret & _ & Ho2 & _ & _ & _ & _ & _ & _ & _ & _
        & _ & Hsame & Hflip).
  exists a, t. eexists. split; [exact Halpha |].
  rewrite (updateCameraFromScroll_progress env s cam w p Hcam Hw Hp).
  split; [exact Hret |].
  destruct (core_updateEntranceParent s2) as (Ca & _ & Wa).
  remember (updateEntranceParent s2) as sa eqn:Esa.
  destruct (core_updateSunPathTransition p sa) as (Cb & _ & Wb).
  remember (updateSunPathTransition p sa) as sb eqn:Esb.
  destruct (core_updateFurnitureFade p sb) as (Cc & Wc).
  remember (updateFurnitureFade p sb) as sc eqn:Esc.
  destruct (idleRotation_spec p (Date_now env) sc)
    as (_ & _ & Do & _ & _ & _ & _ & _ & _ & Dw).
  cbv zeta in *.
  assert (Hcore : core sc = core s2) by congruence.
  unfold core in Hcore. injection Hcore as _ Eo _ _ _ _ _ _.
  rewrite Do, Dw, Eo, Wc, Wb, Wa. split; [exact Ho2 |]. split; assumption.
Qed.

Lemma frame_walls_witness :
  exists newAlpha target s',
    alphaHandling (transitionProgressOf (500 / 1000)) (alpha sampleCamera)
                  (lastTransitionProgress sampleScene) (transitionTargetAlpha sampleScene)
    = Some (newAlpha, target) /\
    updateCameraFromScroll (sampleEnv 500 0) sampleScene = Returned s' /\
    isOrthoView s' = orthoAt (500 / 1000) /\
    (orthoAt (500 / 1000) = isOrthoView sampleScene ->
     wallMeshes s' = wallMeshes sampleScene) /\
    (orthoAt (500 / 1000) <> isOrthoView sampleScene ->
     forall d, wallGroup d (wallMeshes s')
               = map (setEnabled (specWallVisible (orthoAt (500 / 1000))
                                    (isToggleMode sampleScene)
                                    (getQuadrant newAlpha) d))
                     (wallGroup d (wallMeshes sampleScene))).
Proof.
  apply (frame_walls (sampleEnv 500 0) sampleScene sampleCamera
                     (mkWrapper (- 500) 2000) (500 / 1000)).
  - exact sampleScene_reachable.
  - reflexivity.
  - reflexivity.
  - apply sampleEnv_progress. lra.
Defined.

(** ** The pointer moves the camera *)

(** X22.  [scene.render()] with a camera: the azimuth takes the pointer's
    change and nothing else of the camera moves; afterwards the observer's
    local holds the quadrant of the new azimuth; the walls are redone, by
    the table of that quadrant, exactly when the quadrant differs from the
    remembered one while the toggle is on and the view is not ortho, and
    are left as they were in every other case. *)
Theorem render_quadrant_observer (dAlpha : R) (s : State) (cam : Camera) :
  camera s = Some cam ->
  camera (render dAlpha s) = Some (set_alpha (alpha cam + dAlpha) cam) /\
  lastQuadrant (render dAlpha s) = getQuadrant (alpha cam + dAlpha) /\
  (getQuadrant (alpha cam + dAlpha) <> lastQuadrant s ->
   isToggleMode s = true -> isOrthoView s = false ->
   forall d, wallGroup d (wallMeshes (render dAlpha s))
             = map (setEnabled (specWallVisible false true
                                  (getQuadrant (alpha cam + dAlpha)) d))
                   (wallGroup d (wallMeshes s))) /\
  (getQuadrant (alpha cam + dAlpha) = lastQuadrant s \/ isToggleMode s = false
   \/ isOrthoView s = true ->
   wallMeshes (render dAlpha s) = wallMeshes s).
Proof.
  intros Hcam.
  destruct (render_spec dAlpha s) as (Hc & _).
  split; [rewrite Hc, Hcam; reflexivity |].
  unfold render. rewrite Hcam. cbv beta iota zeta.
  match goal with
  | |- context [updateEntranceParent ?s2] => set (s3 := s2)
  end.
  pose proof (views_updateEntranceParent s3) as (_ & _ & Vq & _).
  pose proof (core_updateEntranceParent s3) as (_ & _ & Vw).
  rewrite Vq, Vw. subst s3. simpl.
  destruct (Nat.eqb (getQuadrant (alpha cam + dAlpha)) (lastQuadrant s)) eqn:Hq.
  - apply Nat.eqb_eq in Hq. simpl. split; [symmetry; exact Hq |].
    split; [intros Hne; contradiction | reflexivity].
  - apply Nat.eqb_neq in Hq. simpl.
    destruct (isToggleMode s), (isOrthoView s); simpl;
      (split; [reflexivity |]);
      (split; [intros _ Ht Ho; try discriminate |
               intros [H | [H | H]]; try reflexivity; try contradiction;
               try discriminate]).
    intros d. rewrite forEachWall_group.
    rewrite hideMap_table by apply getQuadrant_range. reflexivity.
Qed.

Lemma render_quadrant_observer_witness :
  lastQuadrant (render 1 sampleScene) = getQuadrant (alpha sampleCamera + 1).
Proof.
  destruct (render_quadrant_observer 1 sampleScene sampleCamera) as (_ & H & _).
  - reflexivity.
  - exact H.
Defined.

(** ** Easing in the ortho regime *)

Lemma snapToNearest_fixed (a : R) (angles : list R) :
  (forall x, In x angles -> 0 <= x < 2 * PI) -> In a angles ->
  snapToNearest a angles = Some a.
Proof.
  intros Hrange Ha.
  assert (Hne : angles <> []) by (intros ->; contradiction).
  destruct (snapToNearest_first_min a angles Hne)
    as (c & pre & post & Hsnap & Hl & Hpre & Hpost).
  assert (Hin : In c angles) by (rewrite Hl; apply in_or_app; right; now left).
  assert (Hle : angularDiff (normalizeAlpha a) c <= angularDiff (normalizeAlpha a) a).
  { rewrite Hl in Ha. apply in_app_or in Ha. destruct Ha as [Hx | [Hx | Hx]].
    - left. now apply Hpre.
    - subst c. right. reflexivity.
    - now apply Hpost. }
  rewrite (normalizeAlpha_id a (Hrange a Ha)) in Hle.
  destruct (angularDiff_in_range a c (Hrange a Ha) (Hrange c Hin)) as [Hge Hzero].
  assert (H0 : angularDiff a a = 0).
  { unfold angularDiff. replace (a - a) with 0 by lra. rewrite Rabs_R0.
    pose proof PI_RGT_0. destruct (Rgt_dec 0 PI); lra. }
  rewrite Hsnap. f_equal. apply Hzero. lra.
Qed.

(** X23.  In the ortho regime (transition progress below 0.1) a frame
    moves the azimuth 8% of the way to the straight angle nearest, by
    circular distance, to the normalised azimuth, so that 92% of the
    difference to that angle remains, and it clears the transition target.
    The azimuth stays where it is exactly when it is itself one of the
    four straight angles. *)
Theorem ortho_easing (tp a last : R) (target : option R) :
  tp < ORTHO_THRESHOLD ->
  exists straight,
    In straight STRAIGHT_ANGLES /\
    (forall x, In x STRAIGHT_ANGLES ->
       circularDistance (normalizeAlpha a) straight
       <= circularDistance (normalizeAlpha a) x) /\
    alphaHandling tp a last target = Some (lerp a straight 0.08, None) /\
    lerp a straight 0.08 - straight = 0.92 * (a - straight) /\
    (lerp a straight 0.08 = a <-> In a STRAIGHT_ANGLES).
Proof.
  intros Htp.
  destruct (snapToNearest_STRAIGHT a) as (t & Ht & Hin).
  destruct (snapToNearest_minimal a t STRAIGHT_ANGLES Ht) as [_ Hmin].
  exists t. split; [assumption |]. split; [assumption |].
  split; [| split; [| split]].
  - unfold alphaHandling. destruct (Rlt_dec tp ORTHO_THRESHOLD); [| contradiction].
    rewrite Ht. reflexivity.
  - unfold lerp. lra.
  - intros Heq. unfold lerp in Heq. assert (t = a) by lra. now subst.
  - intros Ha. rewrite (snapToNearest_fixed a STRAIGHT_ANGLES STRAIGHT_ANGLES_range Ha) in Ht.
    injection Ht as <-. unfold lerp. lra.
Qed.

Lemma ortho_easing_witness :
  exists straight,
    In straight STRAIGHT_ANGLES /\
    (forall x, In x STRAIGHT_ANGLES ->
       circularDistance (normalizeAlpha 1) straight
       <= circularDistance (normalizeAlpha 1) x) /\
    alphaHandling 0 1 0 None = Some (lerp 1 straight 0.08, None) /\
    lerp 1 straight 0.08 - straight = 0.92 * (1 - straight) /\
    (lerp 1 straight 0.08 = 1 <-> In 1 STRAIGHT_ANGLES).
Proof.
  apply (ortho_easing 0 1 0 None). unfold ORTHO_THRESHOLD. lra.
Defined.

(** ** Where the ortho easing leads *)

Lemma circularDistance_cases (a t : R) :
  (circularDistance a t = Rabs (a - t) /\ Rabs (a - t) <= PI) \/
  (circularDistance a t = 2 * PI - Rabs (a - t) /\ PI <= Rabs (a - t)).
Proof.
  unfold circularDistance, Rmin.
  destruct (Rle_dec (Rabs (a - t)) (2 * PI - Rabs (a - t))); [left | right];
    split; lra.
Qed.

(** Below 315° the straight angle that is nearest on the circle is within
    45° on the line as well. *)
Lemma snap_STRAIGHT_within (a t : R) :
  0 <= a < 7 * PI / 4 -> snapToNearest a STRAIGHT_ANGLES = Some t ->
  In t STRAIGHT_ANGLES /\ Rabs (a - t) <= PI / 4.
Proof.
  intros Ha Hsnap. pose proof PI_RGT_0 as Hpi.
  destruct (snapToNearest_minimal a t STRAIGHT_ANGLES Hsnap) as [Hin Hmin].
  split; [assumption |].
  rewrite normalizeAlpha_id in Hmin by lra.
  assert (Hnear : exists x, In x STRAIGHT_ANGLES /\ Rabs (a - x) <= PI / 4).
  { destruct (Rle_dec a (PI / 4)).
    - exists 0. split; [simpl; auto |]. unfold Rabs. destruct (Rcase_abs (a - 0)); lra.
    - destruct (Rle_dec a (3 * PI / 4)).
      + exists (PI / 2). split; [simpl; auto |].
        unfold Rabs. destruct (Rcase_abs (a - PI / 2)); lra.
      + destruct (Rle_dec a (5 * PI / 4)).
        * exists PI. split; [simpl; auto |].
          unfold Rabs. destruct (Rcase_abs (a - PI)); lra.
        * exists (3 * PI / 2). split; [simpl; auto 6 |].
          unfold Rabs. destruct (Rcase_abs (a - 3 * PI / 2)); lra. }
  destruct Hnear as (x & Hx & Hax).
  specialize (Hmin x Hx).
  assert (Hcx : circularDistance a x <= PI / 4).
  { destruct (circularDistance_cases a x) as [[-> _] | [-> H]]; lra. }
  pose proof (STRAIGHT_ANGLES_range t Hin) as Ht.
  destruct (circularDistance_cases a t) as [[E _] | [E H]]; [lra |].
  assert (Rabs (a - t) < 7 * PI / 4).
  { unfold Rabs. destruct (Rcase_abs (a - t)); [| lra].
    unfold STRAIGHT_ANGLES in Hin. simpl in Hin.
    destruct Hin as [<- | [<- | [<- | [<- | []]]]]; lra. }
  lra.
Qed.

(** Strictly within 45° of a straight angle, that angle is the one
    returned. *)
Lemma snap_STRAIGHT_near (a t : R) :
  0 <= a < 2 * PI -> In t STRAIGHT_ANGLES -> Rabs (a - t) < PI / 4 ->
  snapToNearest a STRAIGHT_ANGLES = Some t.
Proof.
  intros Ha Hin Hnear. pose proof PI_RGT_0 as Hpi.
  destruct (snapToNearest_STRAIGHT a) as (c & Hc & Hcin).
  destruct (snapToNearest_minimal a c STRAIGHT_ANGLES Hc) as [_ Hmin].
  rewrite normalizeAlpha_id in Hmin by lra.
  specialize (Hmin t Hin).
  assert (Hct : circularDistance a t < PI / 4).
  { destruct (circularDistance_cases a t) as [[-> _] | [-> H]]; lra. }
  rewrite Hc. f_equal.
  assert (Hcc : circularDistance a c < PI / 4) by lra.
  clear Hmin Hc Hct.
  unfold circularDistance, Rmin in Hcc.
  destruct (Rle_dec (Rabs (a - c)) (2 * PI - Rabs (a - c)));
    unfold Rabs in *;
    destruct (Rcase_abs (a - c)); destruct (Rcase_abs (a - t));
    unfold STRAIGHT_ANGLES in Hin, Hcin; simpl in Hin, Hcin;
    destruct Hin as [<- | [<- | [<- | [<- | []]]]];
    destruct Hcin as [<- | [<- | [<- | [<- | []]]]]; lra.
Qed.

Lemma orthoFrames_S (n : nat) (a : R) :
  orthoFrames (S n) a
  = match alphaHandling 0 a 0 None with
    | Some (newAlpha, _) => orthoFrames n newAlpha
    | None => None
    end.
Proof. reflexivity. Qed.

Lemma alphaHandling_ortho_step (a t : R) :
  snapToNearest a STRAIGHT_ANGLES = Some t ->
  alphaHandling 0 a 0 None = Some (lerp a t 0.08, None).
Proof.
  intros Hsnap. unfold alphaHandling, ORTHO_THRESHOLD.
  destruct (Rlt_dec 0 0.1); [| lra]. rewrite Hsnap. reflexivity.
Qed.

Lemma orthoFrames_near (n : nat) (a t : R) :
  In t STRAIGHT_ANGLES -> 0 <= a < 2 * PI -> Rabs (a - t) < PI / 4 ->
  orthoFrames n a = Some (t + 0.92 ^ n * (a - t)).
Proof.
  intros Hin. revert a. induction n as [| n IH]; intros a Ha Hnear.
  - simpl. f_equal. lra.
  - rewrite orthoFrames_S.
    rewrite (alphaHandling_ortho_step a t (snap_STRAIGHT_near a t Ha Hin Hnear)).
    pose proof (STRAIGHT_ANGLES_range t Hin) as Ht.
    assert (Hstep : lerp a t 0.08 - t = 0.92 * (a - t)) by (unfold lerp; lra).
    rewrite IH.
    + f_equal. rewrite Hstep. simpl. lra.
    + unfold lerp. lra.
    + rewrite Hstep. rewrite Rabs_mult. rewrite (Rabs_right 0.92) by lra.
      pose proof (Rabs_pos (a - t)). lra.
Qed.

(** X24.  Left alone in the ortho regime, an azimuth from 0° up to but not
    including 315° settles on a straight angle within 45° of it: every
    frame targets that same angle, and after [n] frames the offset from it
    is [0.92^n] times the initial one.  From 315° up to 360° the first
    frame targets 0°, not 360°: it multiplies the azimuth by 0.92, which
    turns the camera backwards, away from the straight angle it is nearest
    to on the circle. *)
Theorem ortho_easing_converges (a : R) :
  (0 <= a < 7 * PI / 4 ->
   exists t, In t STRAIGHT_ANGLES /\ Rabs (a - t) <= PI / 4 /\
             forall n, orthoFrames n a = Some (t + 0.92 ^ n * (a - t))) /\
  (7 * PI / 4 <= a < 2 * PI ->
   orthoFrames 1 a = Some (0.92 * a) /\
   circularDistance (normalizeAlpha a) 0
   < circularDistance (normalizeAlpha (0.92 * a)) 0).
Proof.
  pose proof PI_RGT_0 as Hpi. split.
  - intros Ha.
    destruct (snapToNearest_STRAIGHT a) as (t & Ht & _).
    destruct (snap_STRAIGHT_within a t Ha Ht) as [Hin Hnear].
    pose proof (STRAIGHT_ANGLES_range t Hin) as Htr.
    exists t. split; [assumption |]. split; [assumption |].
    intros [| n]; [simpl; f_equal; lra |].
    rewrite orthoFrames_S, (alphaHandling_ortho_step a t Ht).
    assert (Hstep : lerp a t 0.08 - t = 0.92 * (a - t)) by (unfold lerp; lra).
    assert (Hlt : Rabs (lerp a t 0.08 - t) < PI / 4).
    { rewrite Hstep, Rabs_mult, (Rabs_right 0.92) by lra.
      pose proof (Rabs_pos (a - t)). lra. }
    rewrite (orthoFrames_near n (lerp a t 0.08) t Hin); [| | exact Hlt].
    + f_equal. rewrite Hstep. simpl. lra.
    + unfold lerp.
      unfold Rabs in Hnear. destruct (Rcase_abs (a - t)); lra.
  - intros Ha.
    assert (Hsnap : snapToNearest a STRAIGHT_ANGLES = Some 0).
    { destruct (Req_dec a (7 * PI / 4)) as [-> | Hne].
      - snap_eval.
      - destruct (snapToNearest_STRAIGHT a) as (c & Hc & Hcin).
        destruct (snapToNearest_minimal a c STRAIGHT_ANGLES Hc) as [_ Hmin].
        rewrite normalizeAlpha_id in Hmin by lra.
        assert (H0 : In 0 STRAIGHT_ANGLES) by (simpl; auto).
        specialize (Hmin 0 H0). rewrite Hc. f_equal.
        unfold circularDistance, Rmin, Rabs in Hmin.
        destruct (Rcase_abs (a - 0)); [lra |].
        destruct (Rle_dec (a - 0) (2 * PI - (a - 0))); [lra |].
        unfold STRAIGHT_ANGLES in Hcin; simpl in Hcin;
          destruct Hcin as [<- | [<- | [<- | [<- | []]]]]; try reflexivity;
          exfalso;
          match type of Hmin with
          | context [Rcase_abs ?x] => destruct (Rcase_abs x)
          end;
          match type of Hmin with
          | context [Rle_dec ?x ?y] => destruct (Rle_dec x y)
          end; lra. }
    split.
    + rewrite orthoFrames_S, (alphaHandling_ortho_step a 0 Hsnap).
      simpl. f_equal. unfold lerp. lra.
    + rewrite !normalizeAlpha_id by lra.
      unfold circularDistance, Rmin, Rabs.
      destruct (Rcase_abs (a - 0)); [lra |].
      destruct (Rcase_abs (0.92 * a - 0)); [lra |].
      destruct (Rle_dec (a - 0) (2 * PI - (a - 0)));
        destruct (Rle_dec (0.92 * a - 0) (2 * PI - (0.92 * a - 0))); lra.
Qed.

Lemma ortho_easing_converges_witness :
  exists t, In t STRAIGHT_ANGLES /\ Rabs (1 - t) <= PI / 4 /\
            forall n, orthoFrames n 1 = Some (t + 0.92 ^ n * (1 - t)).
Proof.
  apply (proj1 (ortho_easing_converges 1)). pose proof PI_gt_3. lra.
Defined.

(** ** Showing furniture again *)



(** ** Runs in which every frame has a numeric progress *)

Lemma step_numeric (s : State) (e : Event) :
  reachable s -> numericFrame e -> exists s', step s e = Some s'.
Proof.
  intros Hr Hnum. destruct (reachable_stateInv s Hr) as (Icam & _ & Iload & _).
  destruct e; cbn [step]; eauto.
  - unfold updateCameraFromScroll.
    destruct (camera s) as [cam |] eqn:Hcam; [| eauto].
    destruct (wrapper env) as [w |] eqn:Hw; [| eauto].
    destruct (scrollProgress_cases w (innerHeight env))
      as [(p & Hp & _) | (_ & Ha & Hd)].
    + rewrite Hp. destruct (Icam cam Hcam) as [Hfov _].
      destruct (updateCameraWith_returns p (Date_now env) cam s Hcam Hfov)
        as (a & t & s2 & _ & Hret & _).
      rewrite Hret. eauto.
    + exfalso. apply (Hnum w Hw). auto.
  - destruct (toggleMode_returns s Iload) as (s3 & Hret & _). rewrite Hret. eauto.
Qed.

Lemma run_numeric (es : list Event) (s : State) :
  reachable s -> Forall numericFrame es ->
  exists s', run s es = Some s' /\ reachable s'.
Proof.
  revert s. induction es as [| e es IH]; intros s Hr Hall.
  - exists s. split; [reflexivity | assumption].
  - inversion Hall as [| ? ? He Hes]; subst.
    destruct (step_numeric s e Hr He) as (s1 & Hstep).
    destruct (IH s1 (reachable_step s s1 e Hr Hstep) Hes) as (s' & Hrun & Hr').
    exists s'. split; [| assumption]. cbn [run]. rewrite Hstep. exact Hrun.
Qed.

Lemma sampleRun_numeric : Forall numericFrame sampleRun.
Proof.
  unfold sampleRun. constructor; [exact I |]. constructor; [| constructor].
  intros w Hw [_ Hd]. unfold sampleEnv in Hw. cbn [wrapper] in Hw.
  injection Hw as <-. unfold scrollableDistanceOf, sampleEnv in Hd.
  cbn [offsetHeight innerHeight] in Hd. lra.
Qed.

(** X15.  Through every run of events from the initial state in which no
    frame finds the wrapper exactly as high as the viewport with its top
    at the viewport top (the one case where the progress is 0/0), the
    program runs on, the stored transition progress lies in [[0, 1]] and
    the view flag says exactly whether it is below the ortho threshold
    0.1. *)
Theorem view_flag_follows_progress (now : Z) (title : option string)
        (es : list Event) :
  Forall numericFrame es ->
  exists s,
    run (initialState now title) es = Some s /\
    0 <= lastTransitionProgress s <= 1 /\
    (isOrthoView s = true <-> lastTransitionProgress s < ORTHO_THRESHOLD).
Proof.
  intros Hall.
  destruct (run_numeric es (initialState now title) (reachable_initial now title) Hall)
    as (s & Hrun & Hr).
  exists s. split; [exact Hrun |].
  destruct (reachable_sceneInv s Hr) as (_ & Hm & _). exact Hm.
Qed.

Lemma view_flag_follows_progress_witness :
  exists s,
    run (initialState 0 None) sampleRun = Some s /\
    0 <= lastTransitionProgress s <= 1 /\
    (isOrthoView s = true <-> lastTransitionProgress s < ORTHO_THRESHOLD).
Proof.
  apply (view_flag_follows_progress 0 None sampleRun). exact sampleRun_numeric.
Defined.

(** X19.  Through every run of events from the initial state in which no
    frame finds the wrapper exactly as high as the viewport with its top
    at the viewport top (the one case where the progress is 0/0), the
    program runs on and the camera, once made, stays inside its envelope:
    the polar angle between the top-down and the angled constant and
    locked by both of its limits, the radius between the perspective
    radius 30 and the initial radius, locked by both of its limits and
    equal to [k / tan(fov/2)], the field of view between the two
    constants, and the near plane at its initial 0.1 or at a hundredth of
    the radius. *)
Theorem camera_envelope (now : Z) (title : option string) (es : list Event) :
  Forall numericFrame es ->
  exists s,
    run (initialState now title) es = Some s /\
    forall cam, camera s = Some cam ->
      BETA_TOP_DOWN <= beta cam <= BETA_ANGLED /\
      lowerBetaLimit cam = beta cam /\ upperBetaLimit cam = beta cam /\
      RADIUS_PERSPECTIVE <= radius cam <= APPARENT_SIZE_CONSTANT / tan (FOV_ORTHO / 2) /\
      lowerRadiusLimit cam = radius cam /\ upperRadiusLimit cam = radius cam /\
      radius cam * tan (fov cam / 2) = APPARENT_SIZE_CONSTANT /\
      FOV_ORTHO <= fov cam <= FOV_PERSPECTIVE /\
      (minZ cam = 0.1 \/ minZ cam = radius cam * 0.01).
Proof.
  intros Hall.
  destruct (run_numeric es (initialState now title) (reachable_initial now title) Hall)
    as (s & Hrun & Hr).
  exists s. split; [exact Hrun |]. intros cam Hcam.
  destruct (reachable_sceneInv s Hr) as (_ & _ & _ & _ & _ & Hb).
  destruct (reachable_stateInv s Hr) as (Hc & _).
  destruct (Hb cam Hcam) as (B1 & B2 & B3 & B4).
  destruct (Hc cam Hcam) as (C1 & C2 & C3 & C4).
  pose proof (tan_half_fov_pos (fov cam) C1) as Ht.
  assert (Hrad : radius cam = APPARENT_SIZE_CONSTANT / tan (fov cam / 2)).
  { rewrite <- C2. field. lra. }
  pose proof (radius_bounds (fov cam) C1) as Hrb. rewrite <- Hrad in Hrb.
  split; [exact B1 |]. split; [exact B2 |]. split; [exact B3 |].
  split; [exact Hrb |]. split; [exact C3 |]. split; [exact C4 |].
  split; [exact C2 |]. split; [exact C1 | exact B4].
Qed.

Lemma camera_envelope_witness :
  exists s,
    run (initialState 0 None) sampleRun = Some s /\
    forall cam, camera s = Some cam ->
      BETA_TOP_DOWN <= beta cam <= BETA_ANGLED /\
      lowerBetaLimit cam = beta cam /\ upperBetaLimit cam = beta cam /\
      RADIUS_PERSPECTIVE <= radius cam <= APPARENT_SIZE_CONSTANT / tan (FOV_ORTHO / 2) /\
      lowerRadiusLimit cam = radius cam /\ upperRadiusLimit cam = radius cam /\
      radius cam * tan (fov cam / 2) = APPARENT_SIZE_CONSTANT /\
      FOV_ORTHO <= fov cam <= FOV_PERSPECTIVE /\
      (minZ cam = 0.1 \/ minZ cam = radius cam * 0.01).
Proof.
  apply (camera_envelope 0 None sampleRun). exact sampleRun_numeric.
Defined.
